(** * Soramimi: the archive-and-replay engine

    A shallow embedding of the timestamped implementation of the
    engine (constants, [archiveAudio], [playRandomSoraMimi],
    [startRandomTrigger], [scheduleNextGuaranteedTrigger] and the timer
    callbacks they install), followed by the properties of the archive
    buffer, the fragment selector and the dual trigger scheduler.

    Modelling conventions.
    - JavaScript numbers that hold counts, indices, lengths, delays and
      [Date.now()] readings are integers ([Z]); numbers that come from
      [Math.random()], the sample rate and the values computed from them
      are rationals ([Q]). A binary64 number is the rational it stands
      for, and an arithmetic operation on such numbers is the exact
      operation followed by the rounding [fl] to the nearest binary64
      number, ties to even (no number here is large enough to overflow).
      The start index, the duration and length of a fragment, the
      playback parameters and the trigger configuration are computed
      this way. The delay of the guarantee loop ([nextMsOf]) is taken from
      the exact product: the rounded product gives a delay in the same
      range and at most one millisecond away ([nextMsOf_binary64]).
    - Typed arrays live in an explicit store ([heap]); a segment of the
      archive holds the address of its [Float32Array], so that sharing
      between the archive and a playback buffer can be expressed.
    - The embedding follows the implementation that stamps its segments;
      the earlier file without time stamps has the same functions with a
      threshold of 50 segments in the probabilistic loop, one delay range
      for every guaranteed fire, copies made with [slice] and a silent
      guard.
    - The module-level [let]/[const] variables, the timers, the clock,
      the random source, the audio platform and the notification sink
      form one record [World]; every function is a computation in a
      state monad over [World] in which a JavaScript exception is an
      outcome that keeps the state reached when it was thrown.
    - Writes to DOM elements and to the console (the 900 ms timeout that
      ends the visual cue among them) are presentation only and are left
      out; every call to [updateLog] is recorded in [log]. *)

From stdpp Require Import base list.
From Stdlib Require Import ZArith QArith Qround Qabs Qpower Lia Lqa.
From Stdlib Require SpecFloat.

Local Open Scope Z_scope.

(** ** Constants *)

Definition MAX_ARCHIVE_SEGMENTS : nat := 300.
Definition SAMPLE_RATE : Q := 44100 # 1.
Definition BUFFER_SIZE : Z := 4096.
Definition SEGMENT_MIN_SEC : Q := 2 # 1.
Definition SEGMENT_MAX_SEC : Q := 5 # 1.
Definition EXCLUDE_RECENT_MS : Z := 4000.

(** ** Numbers *)

(** [Math.floor] and [Math.round] (ties go up): both are exact on every
    number. *)
Definition Math_floor (x : Q) : Z := Qfloor x.
Definition Math_round (x : Q) : Z := Qfloor (x + (1 # 2)).

(** [floor (log2 x)] for a positive rational. *)
Definition Qlog2 (x : Q) : Z :=
  let e := Z.log2 (Qnum x) - Z.log2 (Z.pos (Qden x)) in
  if Qle_bool (2 ^ e) x then e else e - 1.

(** Round to the nearest integer, ties to the even one. *)
Definition round_half_even (x : Q) : Z :=
  let n := Qfloor x in
  match (x - inject_Z n ?= 1 # 2)%Q with
  | Lt => n
  | Gt => n + 1
  | Eq => if Z.even n then n else n + 1
  end.

(** The exponent of the last place of the binary64 numbers around [x]:
    53 significant bits, and [2 ^ -1074] for the subnormal numbers. *)
Definition ulp_exponent (x : Q) : Z := Z.max (Qlog2 (Qabs x) - 52) (-1074).

(** Rounding at a given exponent: the nearest multiple of [2 ^ e]. *)
Definition round_at (e : Z) (x : Q) : Q :=
  (inject_Z (round_half_even (x / 2 ^ e)) * 2 ^ e)%Q.

(** The value of a JavaScript arithmetic operation whose exact result is
    [x]: the binary64 number nearest to [x], ties to even, as a fraction
    in lowest terms. *)
Definition fl (x : Q) : Q := Qred (round_at (ulp_exponent x) x).

(** The rationals that are binary64 numbers. *)
Definition binary64 (x : Q) : Prop := (fl x == x)%Q.

(** The Standard Library's specification of IEEE 754 arithmetic
    ([SpecFloat], with 53 bits of precision and exponents below 1024),
    to compare [fl] with: the rational that a finite number stands for,
    and the number that stands for a binary64 rational. *)
Definition SF2Q (f : SpecFloat.spec_float) : Q :=
  match f with
  | SpecFloat.S754_finite s m e =>
      ((if s then -1 else 1) * inject_Z (Z.pos m) * 2 ^ e)%Q
  | _ => 0%Q
  end.

Definition Q2SF (x : Q) : SpecFloat.spec_float :=
  SpecFloat.binary_normalize 53 1024 (Qnum x) (- Z.log2 (Z.pos (Qden x))) false.

Definition fl_agrees (op : SpecFloat.spec_float -> SpecFloat.spec_float ->
                           SpecFloat.spec_float)
    (exact : Q -> Q -> Q) (a b : Q) : bool :=
  Qeq_bool (SF2Q (op (Q2SF a) (Q2SF b))) (fl (exact a b)).

(** [a < b] and [a > b] on numbers, as booleans. *)
Definition Qltb (a b : Q) : bool :=
  (Qnum a * Z.pos (Qden b) <? Qnum b * Z.pos (Qden a))%Z.
Definition Qgtb (a b : Q) : bool := Qltb b a.

(** A draw of [Math.random()] lies in [0,1). *)
Definition unit_draw (r : Q) : Prop := (0 <= r)%Q /\ (r < 1)%Q.

(** ** Data *)

Definition sample : Type := Q.
Definition loc : Type := nat.
Definition handle : Type := nat.

(** One element of [ARCHIVE_QUEUE]: [{ samples: Float32Array, t: Date.now() }];
    [samples] is the address of the array in the store. *)
Record Segment : Type := mkSegment { samples : loc; t : Z }.

Inductive ContextState : Type := suspended | running | closed.

Record AudioContext : Type := mkAudioContext {
  state : ContextState;
  sampleRate : Q
}.

(** [event.inputBuffer.getChannelData(0)] of an [AudioProcessingEvent]. *)
Record AudioProcessingEvent : Type := mkEvent { inputBuffer : list sample }.

(** A window on a typed array, as [subarray] returns it: it shares the
    storage at [base]. *)
Record View : Type := mkView { base : loc; lo : nat; hi : nat }.

(** A one-shot playback chain that was connected and started:
    source -> lowpass filter -> stereo panner -> replay gain -> output. *)
Record Playback : Type := mkPlayback {
  buffer : loc;
  bufferRate : Q;
  cutoff : Q;
  pan : Q;
  replayLevel : Q;
  ended : bool
}.

Inductive TimerKind : Type := Timeout | Interval.

(** A pending timer: its id, whether it came from [setTimeout] or
    [setInterval], and its delay or period in milliseconds. *)
Record Timer : Type := mkTimer { timerId : handle; kind : TimerKind; ms : Z }.

(** The messages passed to [updateLog], by kind and with the numbers they
    carry. *)
Inductive Notification : Type :=
  | LogArchiveUpdate (len : nat)
  | LogInputLevel
  | LogSkip
  | LogNoCandidates (startIndex : option Z) (archiveLength : nat)
  | LogSelected (startIndex : option Z) (candidates : nat) (archiveLength : nat)
  | LogDuration (durationSec : Q) (segmentLength : Z)
  | LogBufferBuilt (outputLength : Z) (copied : Z)
  | LogReplayBegin
  | LogReplayEnd
  | LogTriggerStart (intervalMs : Z) (probability : Q)
  | LogNextGuaranteed (nextMs : Z)
  | LogMonitoringConnected
  | LogMicTracks
  | LogRecordingStart
  | LogRecordingStop
  | LogManualTrigger
  | LogManualNotRunning
  | LogProbabilityChanged (percent : Q)
  | LogIntervalChanged (intervalMs : Z).

Inductive Exn : Type :=
  | PlatformError   (* a node or buffer could not be constructed *)
  | RangeError.     (* a typed-array write past the end of its target *)

Record World : Type := mkWorld {
  heap : list (list sample);
  ARCHIVE_QUEUE : list Segment;
  audioContext : option AudioContext;
  mediaStreamSource : bool;
  monitoringGain : option Q;
  monitoringConnected : bool;
  randomTriggerInterval : option handle;
  guaranteeTimer : option handle;
  TRIGGER_CHECK_INTERVAL : Z;
  TRIGGER_PROBABILITY : Q;
  timers : list Timer;
  nextHandle : handle;
  clock : Z;
  rng : nat -> Q;
  drawn : nat;
  platformBudget : nat;
  chains : list Playback;
  log : list Notification
}.

(** Field updates. *)
Definition with_heap (h : list (list sample)) (w : World) : World :=
  mkWorld h (ARCHIVE_QUEUE w) (audioContext w) (mediaStreamSource w)
    (monitoringGain w) (monitoringConnected w) (randomTriggerInterval w)
    (guaranteeTimer w) (TRIGGER_CHECK_INTERVAL w) (TRIGGER_PROBABILITY w)
    (timers w) (nextHandle w) (clock w) (rng w) (drawn w) (platformBudget w)
    (chains w) (log w).
Definition with_queue (q : list Segment) (w : World) : World :=
  mkWorld (heap w) q (audioContext w) (mediaStreamSource w)
    (monitoringGain w) (monitoringConnected w) (randomTriggerInterval w)
    (guaranteeTimer w) (TRIGGER_CHECK_INTERVAL w) (TRIGGER_PROBABILITY w)
    (timers w) (nextHandle w) (clock w) (rng w) (drawn w) (platformBudget w)
    (chains w) (log w).
Definition with_audioContext (c : option AudioContext) (w : World) : World :=
  mkWorld (heap w) (ARCHIVE_QUEUE w) c (mediaStreamSource w)
    (monitoringGain w) (monitoringConnected w) (randomTriggerInterval w)
    (guaranteeTimer w) (TRIGGER_CHECK_INTERVAL w) (TRIGGER_PROBABILITY w)
    (timers w) (nextHandle w) (clock w) (rng w) (drawn w) (platformBudget w)
    (chains w) (log w).
Definition with_mediaStreamSource (s : bool) (w : World) : World :=
  mkWorld (heap w) (ARCHIVE_QUEUE w) (audioContext w) s
    (monitoringGain w) (monitoringConnected w) (randomTriggerInterval w)
    (guaranteeTimer w) (TRIGGER_CHECK_INTERVAL w) (TRIGGER_PROBABILITY w)
    (timers w) (nextHandle w) (clock w) (rng w) (drawn w) (platformBudget w)
    (chains w) (log w).
Definition with_monitoring (g : option Q) (c : bool) (w : World) : World :=
  mkWorld (heap w) (ARCHIVE_QUEUE w) (audioContext w) (mediaStreamSource w)
    g c (randomTriggerInterval w)
    (guaranteeTimer w) (TRIGGER_CHECK_INTERVAL w) (TRIGGER_PROBABILITY w)
    (timers w) (nextHandle w) (clock w) (rng w) (drawn w) (platformBudget w)
    (chains w) (log w).
Definition with_randomTriggerInterval (i : option handle) (w : World) : World :=
  mkWorld (heap w) (ARCHIVE_QUEUE w) (audioContext w) (mediaStreamSource w)
    (monitoringGain w) (monitoringConnected w) i
    (guaranteeTimer w) (TRIGGER_CHECK_INTERVAL w) (TRIGGER_PROBABILITY w)
    (timers w) (nextHandle w) (clock w) (rng w) (drawn w) (platformBudget w)
    (chains w) (log w).
Definition with_guaranteeTimer (g : option handle) (w : World) : World :=
  mkWorld (heap w) (ARCHIVE_QUEUE w) (audioContext w) (mediaStreamSource w)
    (monitoringGain w) (monitoringConnected w) (randomTriggerInterval w)
    g (TRIGGER_CHECK_INTERVAL w) (TRIGGER_PROBABILITY w)
    (timers w) (nextHandle w) (clock w) (rng w) (drawn w) (platformBudget w)
    (chains w) (log w).
Definition with_config (interval : Z) (probability : Q) (w : World) : World :=
  mkWorld (heap w) (ARCHIVE_QUEUE w) (audioContext w) (mediaStreamSource w)
    (monitoringGain w) (monitoringConnected w) (randomTriggerInterval w)
    (guaranteeTimer w) interval probability
    (timers w) (nextHandle w) (clock w) (rng w) (drawn w) (platformBudget w)
    (chains w) (log w).
Definition with_timers (ts : list Timer) (n : handle) (w : World) : World :=
  mkWorld (heap w) (ARCHIVE_QUEUE w) (audioContext w) (mediaStreamSource w)
    (monitoringGain w) (monitoringConnected w) (randomTriggerInterval w)
    (guaranteeTimer w) (TRIGGER_CHECK_INTERVAL w) (TRIGGER_PROBABILITY w)
    ts n (clock w) (rng w) (drawn w) (platformBudget w)
    (chains w) (log w).
Definition with_clock (now : Z) (w : World) : World :=
  mkWorld (heap w) (ARCHIVE_QUEUE w) (audioContext w) (mediaStreamSource w)
    (monitoringGain w) (monitoringConnected w) (randomTriggerInterval w)
    (guaranteeTimer w) (TRIGGER_CHECK_INTERVAL w) (TRIGGER_PROBABILITY w)
    (timers w) (nextHandle w) now (rng w) (drawn w) (platformBudget w)
    (chains w) (log w).
Definition with_drawn (n : nat) (w : World) : World :=
  mkWorld (heap w) (ARCHIVE_QUEUE w) (audioContext w) (mediaStreamSource w)
    (monitoringGain w) (monitoringConnected w) (randomTriggerInterval w)
    (guaranteeTimer w) (TRIGGER_CHECK_INTERVAL w) (TRIGGER_PROBABILITY w)
    (timers w) (nextHandle w) (clock w) (rng w) n (platformBudget w)
    (chains w) (log w).
Definition with_platformBudget (n : nat) (w : World) : World :=
  mkWorld (heap w) (ARCHIVE_QUEUE w) (audioContext w) (mediaStreamSource w)
    (monitoringGain w) (monitoringConnected w) (randomTriggerInterval w)
    (guaranteeTimer w) (TRIGGER_CHECK_INTERVAL w) (TRIGGER_PROBABILITY w)
    (timers w) (nextHandle w) (clock w) (rng w) (drawn w) n
    (chains w) (log w).
Definition with_chains (cs : list Playback) (w : World) : World :=
  mkWorld (heap w) (ARCHIVE_QUEUE w) (audioContext w) (mediaStreamSource w)
    (monitoringGain w) (monitoringConnected w) (randomTriggerInterval w)
    (guaranteeTimer w) (TRIGGER_CHECK_INTERVAL w) (TRIGGER_PROBABILITY w)
    (timers w) (nextHandle w) (clock w) (rng w) (drawn w) (platformBudget w)
    cs (log w).
Definition with_log (l : list Notification) (w : World) : World :=
  mkWorld (heap w) (ARCHIVE_QUEUE w) (audioContext w) (mediaStreamSource w)
    (monitoringGain w) (monitoringConnected w) (randomTriggerInterval w)
    (guaranteeTimer w) (TRIGGER_CHECK_INTERVAL w) (TRIGGER_PROBABILITY w)
    (timers w) (nextHandle w) (clock w) (rng w) (drawn w) (platformBudget w)
    (chains w) l.

(** ** Computations *)

Inductive Outcome (A : Type) : Type :=
  | Normal (a : A)
  | Thrown (e : Exn).
Arguments Normal {A} a.
Arguments Thrown {A} e.

Definition M (A : Type) : Type := World -> Outcome A * World.

Definition ret {A} (a : A) : M A := fun w => (Normal a, w).
Definition bind {A B} (m : M A) (k : A -> M B) : M B :=
  fun w => match m w with
           | (Normal a, w') => k a w'
           | (Thrown e, w') => (Thrown e, w')
           end.
Definition throw {A} (e : Exn) : M A := fun w => (Thrown e, w).
Definition gets {A} (f : World -> A) : M A := fun w => (Normal (f w), w).
Definition modify (f : World -> World) : M unit := fun w => (Normal tt, f w).

(** [try { body } catch (e) { handler }] *)
Definition try_catch (body handler : M unit) : M unit :=
  fun w => match body w with
           | (Normal _, w') => (Normal tt, w')
           | (Thrown _, w') => handler w'
           end.

(** [try { body } finally { fin }]: [fin] runs on both exits; an
    exception of [body] is rethrown after it unless [fin] throws itself. *)
Definition try_finally (body fin : M unit) : M unit :=
  fun w => match body w with
           | (Normal _, w') => fin w'
           | (Thrown e, w') =>
               match fin w' with
               | (Normal _, w'') => (Thrown e, w'')
               | (Thrown e', w'') => (Thrown e', w'')
               end
           end.

Definition when (b : bool) (m : M unit) : M unit := if b then m else ret tt.

Definition exec {A} (m : M A) (w : World) : World := snd (m w).
Definition outcome {A} (m : M A) (w : World) : Outcome A := fst (m w).

Declare Scope js_scope.
Delimit Scope js_scope with js.
Notation "'let*' x := m 'in' k" := (bind m (fun x => k))
  (at level 10, x name, m at level 100, k at level 200) : js_scope.
Notation "m ;; k" := (bind m (fun _ => k))
  (at level 100, k at level 200, right associativity) : js_scope.
Local Open Scope js_scope.

(** ** The environment *)

Definition Date_now : M Z := gets clock.

Definition Math_random : M Q :=
  fun w => (Normal (rng w (drawn w)), with_drawn (S (drawn w)) w).

Definition updateLog (n : Notification) : M unit :=
  modify (fun w => with_log (log w ++ [n]) w).

(** Typed arrays. *)
Definition heap_get (h : list (list sample)) (l : loc) : list sample :=
  default [] (h !! l).

(** [new Float32Array(src)]: fresh storage holding a copy of [src]. *)
Definition new_Float32Array (src : list sample) : M loc :=
  fun w => (Normal (length (heap w)), with_heap (heap w ++ [src]) w).

(** [arr.subarray(0, n)]: a view of the first [n] elements (clamped to the
    array's length) on the storage of [arr]. *)
Definition subarray (h : list (list sample)) (arr : loc) (n : nat) : View :=
  mkView arr 0 (Nat.min n (length (heap_get h arr))).

Definition read_view (h : list (list sample)) (v : View) : list sample :=
  take (hi v - lo v) (drop (lo v) (heap_get h (base v))).

(** Overwrite [xs] from position [off] on with [src]. *)
Definition splice (xs src : list sample) (off : nat) : list sample :=
  take off xs ++ src ++ drop (off + length src) xs.

(** [target.set(source, offset)]: copies the elements seen through the
    view into [target]; a [RangeError] when they do not fit. *)
Definition TypedArray_set (target : loc) (source : View) (offset : nat) : M unit :=
  fun w =>
    let src := read_view (heap w) source in
    let dst := heap_get (heap w) target in
    if (offset + length src <=? length dst)%nat
    then (Normal tt, with_heap (<[target := splice dst src offset]> (heap w)) w)
    else (Thrown RangeError, w).

(** The audio platform builds a node or a buffer as long as it has
    resources left ([platformBudget]), and throws otherwise. *)
Definition platform_create : M unit :=
  fun w => match platformBudget w with
           | O => (Thrown PlatformError, w)
           | S n => (Normal tt, with_platformBudget n w)
           end.

(** [audioContext.createBuffer(1, length, rate).getChannelData(0)]:
    fresh storage of [length] zeros; the platform rejects a buffer of no
    frames. *)
Definition createBuffer (len : Z) : M loc :=
  (if len <=? 0 then throw PlatformError else ret tt) ;;
  platform_create ;;
  fun w => (Normal (length (heap w)),
            with_heap (heap w ++ [replicate (Z.to_nat len) 0%Q]) w).

(** Timers. *)
Definition clear_timer (h : handle) : M unit :=
  modify (fun w =>
    with_timers (filter (fun tm => timerId tm <> h) (timers w)) (nextHandle w) w).

Definition set_timer (k : TimerKind) (delay : Z) : M handle :=
  fun w => (Normal (nextHandle w),
            with_timers (timers w ++ [mkTimer (nextHandle w) k delay])
                        (S (nextHandle w)) w).

(** ** Archive accumulation *)

(** [archiveAudio(event)]: copy the block, stamp it, push it, and drop the
    oldest segment when the queue has grown past its capacity. *)
Definition archiveAudio (event : AudioProcessingEvent) : M unit :=
  let inputBuffer := inputBuffer event in
  let* segmentCopy := new_Float32Array inputBuffer in
  let* now := Date_now in
  modify (fun w => with_queue (ARCHIVE_QUEUE w ++ [mkSegment segmentCopy now]) w) ;;
  let* len := gets (fun w => length (ARCHIVE_QUEUE w)) in
  when (MAX_ARCHIVE_SEGMENTS <? len)%nat
       (modify (fun w => with_queue (tail (ARCHIVE_QUEUE w)) w)) ;;
  let* len := gets (fun w => length (ARCHIVE_QUEUE w)) in
  when (len mod 10 =? 0)%nat (updateLog (LogArchiveUpdate len)) ;;
  when (len mod 50 =? 0)%nat (try_catch (updateLog LogInputLevel) (ret tt)).

(** ** Random replay *)

(** [arr[i]] for a number [i]: [undefined] outside the array. *)
Definition js_index {A} (l : list A) (i : Z) : option A :=
  if i <? 0 then None else l !! Z.to_nat i.

(** The candidate loop of [playRandomSoraMimi]: for [i] from [0] to
    [segmentCount - 1], skip a segment whose [t] is falsy, and keep [i]
    when [(now - seg.t) > EXCLUDE_RECENT_MS]. *)
Definition is_candidate (now : Z) (q : list Segment) (i : nat) : bool :=
  match q !! i with
  | None => false
  | Some seg =>
      if t seg =? 0 then false
      else now - t seg >? EXCLUDE_RECENT_MS
  end.

Definition candidateIndices (now : Z) (q : list Segment) : list nat :=
  List.filter (is_candidate now q) (seq 0 (length q)).

(** The start index: a uniform pick among the candidates, or among all
    positions when there is no candidate. *)
Definition pick_startIndex (candidateIndices : list nat) (segmentCount : nat)
    (r : Q) : option Z :=
  match candidateIndices with
  | [] => Some (Math_floor (fl (r * inject_Z (Z.of_nat segmentCount))))
  | _ =>
      Z.of_nat <$>
        js_index candidateIndices
          (Math_floor (fl (r * inject_Z (Z.of_nat (length candidateIndices)))))
  end.

(** [SEGMENT_MIN_SEC + Math.random() * (SEGMENT_MAX_SEC - SEGMENT_MIN_SEC)] *)
Definition durationSecOf (r : Q) : Q :=
  fl (SEGMENT_MIN_SEC + fl (r * fl (SEGMENT_MAX_SEC - SEGMENT_MIN_SEC))).

(** [Math.round(durationSec * sampleRate / BUFFER_SIZE) * BUFFER_SIZE]:
    the product and the quotient are rounded to binary64, [Math.round]
    gives a whole number, and the last product is exact. *)
Definition segmentLengthOf (durationSec rate : Q) : Z :=
  Math_round (fl (fl (durationSec * rate) / inject_Z BUFFER_SIZE)) * BUFFER_SIZE.

(** The copy loop
    [for (let i = 0; offset < segmentLength && i < segmentCount; i++)].
    The recursion is on the number of iterations [i < segmentCount] still
    allows, so that [i = segmentCount - remaining]; it returns the final
    [offset]. *)
Fixpoint copyLoop (remaining : nat) (startIndex : option Z) (segmentCount : nat)
    (segmentLength : Z) (outputData : loc) (offset : Z) : M Z :=
  match remaining with
  | O => ret offset
  | S remaining' =>
      if offset <? segmentLength then
        let i := (segmentCount - remaining)%nat in
        let* queue := gets ARCHIVE_QUEUE in
        let segObj :=
          match startIndex with
          | Some s => js_index queue (Z.rem (s + Z.of_nat i) (Z.of_nat segmentCount))
          | None => None
          end in
        match segObj with
        | None =>
            copyLoop remaining' startIndex segmentCount segmentLength outputData offset
        | Some segObj =>
            let segment := samples segObj in
            let* h := gets heap in
            let copyLength :=
              Z.min BUFFER_SIZE
                (Z.min (segmentLength - offset)
                       (Z.of_nat (length (heap_get h segment)))) in
            TypedArray_set outputData (subarray h segment (Z.to_nat copyLength))
                           (Z.to_nat offset) ;;
            copyLoop remaining' startIndex segmentCount segmentLength outputData
                     (offset + copyLength)
        end
      else ret offset
  end.

Definition is_running (s : ContextState) : bool :=
  match s with running => true | _ => false end.

(** Keep the live monitoring path connected and at unit gain. *)
Definition ensureMonitoring : M unit :=
  try_catch (modify (fun w =>
    match monitoringGain w with
    | Some _ =>
        if negb (monitoringConnected w) && mediaStreamSource w
        then with_monitoring (Some 1%Q) true w
        else with_monitoring (Some 1%Q) (monitoringConnected w) w
    | None => w
    end)) (ret tt).

(** The body of [playRandomSoraMimi] past its guard. *)
Definition playSelected (ctx : AudioContext) : M unit :=
  ensureMonitoring ;;
  (* 1. where to start *)
  let* segmentCount := gets (fun w => length (ARCHIVE_QUEUE w)) in
  let* now := Date_now in
  let* queue := gets ARCHIVE_QUEUE in
  let candidateIndices := candidateIndices now queue in
  let* r := Math_random in
  let startIndex := pick_startIndex candidateIndices segmentCount r in
  match candidateIndices with
  | [] => updateLog (LogNoCandidates startIndex segmentCount)
  | _ => updateLog (LogSelected startIndex (length candidateIndices) segmentCount)
  end ;;
  (* 2. how long *)
  let* r := Math_random in
  let durationSec := durationSecOf r in
  let segmentLength := segmentLengthOf durationSec (sampleRate ctx) in
  updateLog (LogDuration durationSec segmentLength) ;;
  (* 3. the playback buffer *)
  let* outputData := createBuffer segmentLength in
  (* 4. copy from the queue *)
  let* offset := copyLoop segmentCount startIndex segmentCount segmentLength
                          outputData 0 in
  updateLog (LogBufferBuilt segmentLength offset) ;;
  (* 5. source, panner and filter nodes *)
  platform_create ;;
  platform_create ;;
  platform_create ;;
  let* side := Math_random in
  let* magnitude := Math_random in
  let pan := if Qgtb side (1 # 2)
             then fl (fl (magnitude * fl (6 # 10)) + fl (2 # 10))
             else (- fl (fl (magnitude * fl (6 # 10)) + fl (2 # 10)))%Q in
  let* r := Math_random in
  let cutoff := fl (3000 + fl (r * 1000)) in
  (* 6. replay gain, start *)
  platform_create ;;
  modify (fun w =>
    with_chains (chains w ++
      [mkPlayback outputData (sampleRate ctx) cutoff pan (fl (9 # 10)) false]) w) ;;
  updateLog LogReplayBegin.

(** [playRandomSoraMimi()] *)
Definition playRandomSoraMimi : M unit :=
  let* ctx := gets audioContext in
  let* queueLength := gets (fun w => length (ARCHIVE_QUEUE w)) in
  match ctx with
  | None => try_catch (updateLog LogSkip) (ret tt)
  | Some ctx =>
      if negb (is_running (state ctx)) || (queueLength =? 0)%nat
      then try_catch (updateLog LogSkip) (ret tt)
      else playSelected ctx
  end.

(** [sourceNode.onended] of the [n]-th chain: disconnect and report. *)
Definition onended (n : nat) : M unit :=
  modify (fun w =>
    match chains w !! n with
    | Some c =>
        with_chains (<[n := mkPlayback (buffer c) (bufferRate c) (cutoff c)
                                       (pan c) (replayLevel c) true]> (chains w)) w
    | None => w
    end) ;;
  updateLog LogReplayEnd.

(** ** The two trigger loops *)

(** The callback given to [setInterval] by [startRandomTrigger]. *)
Definition intervalCallback : M unit :=
  let* randomValue := Math_random in
  let* probability := gets TRIGGER_PROBABILITY in
  let* queueLength := gets (fun w => length (ARCHIVE_QUEUE w)) in
  when (Qltb randomValue probability && (10 <? queueLength)%nat)
       playRandomSoraMimi.

(** [startRandomTrigger()] *)
Definition startRandomTrigger : M unit :=
  let* old := gets randomTriggerInterval in
  match old with
  | Some h => clear_timer h ;; modify (with_randomTriggerInterval None)
  | None => ret tt
  end ;;
  let* period := gets TRIGGER_CHECK_INTERVAL in
  let* h := set_timer Interval period in
  modify (with_randomTriggerInterval (Some h)) ;;
  let* probability := gets TRIGGER_PROBABILITY in
  updateLog (LogTriggerStart period probability).

(** The delay [nextMs] computed from one draw. *)
Definition nextMsOf (isFirst : bool) (r : Q) : Z :=
  if isFirst
  then Math_floor (r * 30000) + 1000
  else Math_floor (r * 60000) + 1000.

(** [scheduleNextGuaranteedTrigger(isFirst = false)] *)
Definition scheduleNextGuaranteedTrigger (isFirst : bool) : M unit :=
  let* old := gets guaranteeTimer in
  match old with
  | Some h => clear_timer h ;; modify (with_guaranteeTimer None)
  | None => ret tt
  end ;;
  let* r := Math_random in
  let nextMs := nextMsOf isFirst r in
  let* h := set_timer Timeout nextMs in
  modify (with_guaranteeTimer (Some h)) ;;
  updateLog (LogNextGuaranteed nextMs).

Definition audio_ready (w : World) : bool :=
  match audioContext w with
  | Some ctx => is_running (state ctx) && negb (length (ARCHIVE_QUEUE w) =? 0)%nat
  | None => false
  end.

(** The callback given to [setTimeout] by [scheduleNextGuaranteedTrigger]:
    [try { if (guard) playRandomSoraMimi(); } finally { scheduleNextGuaranteedTrigger(); }] *)
Definition guaranteeCallback : M unit :=
  try_finally
    (let* ready := gets audio_ready in when ready playRandomSoraMimi)
    (scheduleNextGuaranteedTrigger false).

(** ** Session control *)

(** [stopSoramimi()], up to the call of [audioContext.close()]: both timers
    are cancelled. *)
Definition stopSoramimi : M unit :=
  let* interval := gets randomTriggerInterval in
  match interval with
  | Some h => clear_timer h ;; modify (with_randomTriggerInterval None)
  | None => ret tt
  end ;;
  let* timeout := gets guaranteeTimer in
  match timeout with
  | Some h => clear_timer h ;; modify (with_guaranteeTimer None)
  | None => ret tt
  end.

(** The continuation of [audioContext.close()] in [stopSoramimi]: the
    context is dropped and the archive is emptied. *)
Definition stopSoramimi_closed : M unit :=
  modify (with_audioContext None) ;;
  modify (with_mediaStreamSource false) ;;
  modify (fun w => with_monitoring (monitoringGain w) false w) ;;
  modify (with_queue []) ;;
  updateLog LogRecordingStop.

(** [startSoramimi()], up to the request for the microphone: a new
    context, as the platform hands it out, unless one is running. *)
Definition startSoramimi (created : AudioContext) : M unit :=
  let* ctx := gets audioContext in
  match ctx with
  | Some c =>
      if is_running (state c) then ret tt
      else modify (with_audioContext (Some created))
  | None => modify (with_audioContext (Some created))
  end.

(** The continuation of [getUserMedia] in [startSoramimi]: the input
    nodes, then both trigger loops; a failure stops the session. *)
Definition startSoramimi_granted : M unit :=
  try_catch
    (platform_create ;;
     modify (with_mediaStreamSource true) ;;
     platform_create ;;
     modify (fun w => with_monitoring (Some (15 # 10)) (monitoringConnected w) w) ;;
     try_catch
       (let* connected := gets monitoringConnected in
        when (negb connected)
          (modify (fun w => with_monitoring (monitoringGain w) true w) ;;
           try_catch (updateLog LogMonitoringConnected) (ret tt)))
       (ret tt) ;;
     platform_create ;;
     try_catch (updateLog LogMicTracks) (ret tt) ;;
     startRandomTrigger ;;
     scheduleNextGuaranteedTrigger true ;;
     updateLog LogRecordingStart)
    stopSoramimi.

(** The key [t] pressed: a replay on demand while the context runs. *)
Definition onKeyT : M unit :=
  let* ctx := gets audioContext in
  match ctx with
  | Some c =>
      if is_running (state c)
      then updateLog LogManualTrigger ;; try_catch playRandomSoraMimi (ret tt)
      else updateLog LogManualNotRunning
  | None => updateLog LogManualNotRunning
  end.

(** The probability slider moved to [percent]. *)
Definition onProbabilityInput (percent : Q) : M unit :=
  modify (fun w => with_config (TRIGGER_CHECK_INTERVAL w) (fl (percent / 100)) w) ;;
  updateLog (LogProbabilityChanged percent).

(** The interval field changed to [seconds]: at least one second, and the
    probabilistic loop is restarted when the context runs. *)
Definition onIntervalChange (seconds : Q) : M unit :=
  let seconds := if Qeq_bool seconds 0 then 1%Q else seconds in
  let interval := Z.max 1000 (Math_floor (fl (seconds * 1000))) in
  modify (fun w => with_config interval (TRIGGER_PROBABILITY w) w) ;;
  let* ctx := gets audioContext in
  match ctx with
  | Some c => when (is_running (state c)) startRandomTrigger
  | None => ret tt
  end ;;
  updateLog (LogIntervalChanged interval).

(** ** The event loop *)

(** What the browser may run next. *)
Inductive Event : Type :=
  | AudioProcess (event : AudioProcessingEvent)
  | TimerFired (h : handle)
  | SourceEnded (n : nat)
  | StartClicked (created : AudioContext)
  | MicrophoneGranted
  | StopClicked
  | ContextClosed
  | KeyT
  | ProbabilityInput (percent : Q)
  | IntervalChange (seconds : Q).

(** A timer that fires runs its callback, unless it was cleared; a
    timeout is spent once it has fired. *)
Definition fire (h : handle) : M unit :=
  let* pending := gets timers in
  match List.find (fun tm => (timerId tm =? h)%nat) pending with
  | None => ret tt
  | Some tm =>
      match kind tm with
      | Timeout => clear_timer h ;; guaranteeCallback
      | Interval => intervalCallback
      end
  end.

Definition handler (e : Event) : M unit :=
  match e with
  | AudioProcess event => archiveAudio event
  | TimerFired h => fire h
  | SourceEnded n => onended n
  | StartClicked created => startSoramimi created
  | MicrophoneGranted => startSoramimi_granted
  | StopClicked => stopSoramimi
  | ContextClosed => stopSoramimi_closed
  | KeyT => onKeyT
  | ProbabilityInput percent => onProbabilityInput percent
  | IntervalChange seconds => onIntervalChange seconds
  end.

(** One turn of the event loop at time [now]; an exception that escapes
    the handler is reported by the browser and the state stays as it was
    left. *)
Definition step (w : World) (timed : Z * Event) : World :=
  exec (handler (snd timed)) (with_clock (fst timed) w).

Definition run (events : list (Z * Event)) (w : World) : World :=
  fold_left step events w.

(** The capture callback alone, on a sequence of timed blocks. *)
Definition capture (w : World) (timed : Z * AudioProcessingEvent) : World :=
  step w (fst timed, AudioProcess (snd timed)).

Definition captures (blocks : list (Z * AudioProcessingEvent)) (w : World) : World :=
  fold_left capture blocks w.

(** The segments that [captures] pushes, in order: the [i]-th block gets
    the [i]-th fresh address and its own time stamp. *)
Fixpoint appended (next : loc) (blocks : list (Z * AudioProcessingEvent))
    : list Segment :=
  match blocks with
  | [] => []
  | b :: rest => mkSegment next (fst b) :: appended (S next) rest
  end.

(** The state when the page has loaded: nothing allocated, no context,
    no timer, the default trigger configuration. *)
Definition initial (random : nat -> Q) (budget : nat) : World :=
  mkWorld [] [] None false None false None None 10000 (fl (5 # 100))
          [] 1%nat 0 random 0%nat budget [] [].

(** Every segment of the archive owns allocated storage. *)
Definition archive_allocated (w : World) : Prop :=
  Forall (fun seg => (samples seg < length (heap w))%nat) (ARCHIVE_QUEUE w).

(** Every draw of the random source lies in [0,1). *)
Definition rng_ok (w : World) : Prop := forall n, unit_draw (rng w n).

Arguments fl : simpl never.
Arguments Math_floor : simpl never.
Arguments Math_round : simpl never.
Arguments Qltb : simpl never.
Arguments Qgtb : simpl never.
Arguments candidateIndices : simpl never.
Arguments pick_startIndex : simpl never.
Arguments durationSecOf : simpl never.
Arguments segmentLengthOf : simpl never.
Arguments nextMsOf : simpl never.

(** What a call of [playRandomSoraMimi] may change, from [w] to [w']: the
    archive, the timers, the context, the clock and the configuration are
    as they were; the store has only grown; at most one chain was started,
    on a buffer allocated during the call; something was logged. *)
Definition replayed (w w' : World) : Prop :=
  ARCHIVE_QUEUE w' = ARCHIVE_QUEUE w /\
  (exists extra, heap w' = heap w ++ extra) /\
  (chains w' = chains w \/
   exists c data, chains w' = chains w ++ [c] /\
     buffer c = length (heap w) /\ heap w' = heap w ++ [data]) /\
  (exists n rest, log w' = log w ++ n :: rest) /\
  timers w' = timers w /\
  nextHandle w' = nextHandle w /\
  guaranteeTimer w' = guaranteeTimer w /\
  randomTriggerInterval w' = randomTriggerInterval w /\
  audioContext w' = audioContext w /\
  rng w' = rng w /\
  clock w' = clock w /\
  TRIGGER_CHECK_INTERVAL w' = TRIGGER_CHECK_INTERVAL w /\
  TRIGGER_PROBABILITY w' = TRIGGER_PROBABILITY w /\
  (drawn w <= drawn w')%nat /\
  (platformBudget w' <= platformBudget w)%nat.

(** Test data: [n] one-sample blocks, captured 100 ms apart. *)
Definition tagged_blocks (n : nat) : list (Z * AudioProcessingEvent) :=
  map (fun i => (100 * Z.of_nat i, mkEvent [inject_Z (Z.of_nat i)])) (seq 0 n).

(** Handles are handed out in increasing order: every pending timer has
    a handle below the next one. *)
Definition timers_fresh (w : World) : Prop :=
  Forall (fun tm => (timerId tm < nextHandle w)%nat) (timers w).

(** Test data: a session that is running with three segments archived,
    and the same session on a platform that has no resources left. *)
Definition session (random : nat -> Q) (budget : nat) : World :=
  run [(0, StartClicked (mkAudioContext running SAMPLE_RATE));
       (10, MicrophoneGranted);
       (100, AudioProcess (mkEvent [1 # 2; 1 # 4]));
       (200, AudioProcess (mkEvent [1 # 8; 1 # 16]));
       (300, AudioProcess (mkEvent [1 # 32; 1 # 64]))]
      (initial random (3 + budget)).

(** What holds of every state the event loop can reach (see
    [invariant_run]): the archive is within its capacity, its segments own
    allocated storage, and timer handles are fresh. *)
Definition invariant (w : World) : Prop :=
  (length (ARCHIVE_QUEUE w) <= MAX_ARCHIVE_SEGMENTS)%nat /\
  archive_allocated w /\
  timers_fresh w.

(** A computation preserves a property of the world when the property
    holds of the state it leaves, however it ends. *)
Definition preserves {A} (I : World -> Prop) (m : M A) : Prop :=
  forall w, I w -> I (exec m w).

(** The samples that a segment contributes to a fragment: the first
    [BUFFER_SIZE] of its array. *)
Definition blockOf (h : list (list sample)) (seg : Segment) : list sample :=
  take (Z.to_nat BUFFER_SIZE) (heap_get h (samples seg)).

(** What iteration [i] of the copy loop reads: the block of the segment
    at [(startIndex + i) % segmentCount], nothing when there is none. *)
Definition blockAt (queue : list Segment) (h : list (list sample))
    (startIndex : Z) (i : nat) : list sample :=
  match js_index queue (Z.rem (startIndex + Z.of_nat i) (Z.of_nat (length queue))) with
  | Some seg => blockOf h seg
  | None => []
  end.

#[global] Instance TimerKind_eq_dec : EqDecision TimerKind.
Proof. solve_decision. Defined.

(** The variable in which the handle of the timer of each loop is kept:
    [randomTriggerInterval] for the probabilistic loop, [guaranteeTimer]
    for the guarantee loop. *)
Definition handle_of (k : TimerKind) (w : World) : option handle :=
  match k with
  | Interval => randomTriggerInterval w
  | Timeout => guaranteeTimer w
  end.

(** The pending timers of one loop. *)
Definition pending (k : TimerKind) (w : World) : list Timer :=
  filter (fun tm => kind tm = k) (timers w).

(** The bookkeeping of the two loops: handles are fresh and distinct,
    every pending timer is the one whose handle its loop has kept, and the
    two loops never keep the same handle. *)
Definition scheduler_ok (w : World) : Prop :=
  timers_fresh w /\
  NoDup (timerId <$> timers w) /\
  (forall tm, tm ∈ timers w -> handle_of (kind tm) w = Some (timerId tm)) /\
  (forall k h, handle_of k w = Some h -> (h < nextHandle w)%nat) /\
  (forall h h', randomTriggerInterval w = Some h ->
                guaranteeTimer w = Some h' -> h <> h').




(** The events whose handlers write to [ARCHIVE_QUEUE]: a captured block,
    and the end of [audioContext.close()] after a stop. *)
Definition writes_archive (e : Event) : bool :=
  match e with
  | AudioProcess _ | ContextClosed => true
  | _ => false
  end.

(** The log pane. [updateLog(message)] does nothing without a log element;
    otherwise it puts the new entry first and then removes last children
    for as long as there are more than 200. [trimLog] is that loop, with
    one round of fuel for each child there is at most to remove. *)
Fixpoint trimLog {A} (fuel : nat) (children : list A) : list A :=
  match fuel with
  | O => children
  | S fuel' =>
      if (200 <? length children)%nat
      then trimLog fuel' (removelast children)
      else children
  end.

Definition updateLog_element {A} (logElement : option (list A)) (entry : A)
    : option (list A) :=
  match logElement with
  | None => None
  | Some children =>
      let children := entry :: children in
      Some (trimLog (length children) children)
  end.

(** * Properties *)

(** ** Binary64 rounding: powers of two *)

Lemma pow2_pos (e : Z) : (0 < 2 ^ e)%Q.
Proof. apply Qpower_0_lt. reflexivity. Qed.

Lemma pow2_add (a b : Z) : (2 ^ (a + b) == 2 ^ a * 2 ^ b)%Q.
Proof. apply Qpower_plus. discriminate. Qed.

Lemma pow2_sub (a b : Z) : (2 ^ (a - b) == 2 ^ a / 2 ^ b)%Q.
Proof. apply Qpower_minus. discriminate. Qed.

Lemma pow2_le (a b : Z) : a <= b -> (2 ^ a <= 2 ^ b)%Q.
Proof. intros H. apply Qpower_le_compat_l; [exact H | discriminate]. Qed.

Lemma pow2_lt (a b : Z) : a < b -> (2 ^ a < 2 ^ b)%Q.
Proof. intros H. apply Qpower_lt_compat_l; [exact H | reflexivity]. Qed.

Lemma pow2_lt_inv (a b : Z) : (2 ^ a < 2 ^ b)%Q -> a < b.
Proof. intros H. apply (Qpower_lt_compat_l_inv 2); [exact H | reflexivity]. Qed.

Lemma pow2_Z (e : Z) : 0 <= e -> (2 ^ e == inject_Z (2 ^ e))%Q.
Proof. intros H. symmetry. apply (Zpower_Qpower 2 e H). Qed.

Lemma pow2_S (a : Z) : (2 ^ (a + 1) == 2 * 2 ^ a)%Q.
Proof. rewrite pow2_add. change (2 ^ 1)%Q with 2%Q. ring. Qed.

(** ** The binade of a positive number *)

Lemma Qlog2_spec (x : Q) :
  (0 < x)%Q -> (2 ^ Qlog2 x <= x)%Q /\ (x < 2 ^ (Qlog2 x + 1))%Q.
Proof.
  intros Hx. destruct x as [p q]. unfold Qlog2. simpl Qnum. simpl Qden.
  assert (Hp : 0 < p) by (unfold Qlt in Hx; simpl in Hx; lia).
  set (a := Z.log2 p). set (b := Z.log2 (Z.pos q)).
  destruct (Z.log2_spec p Hp) as [Ha1 Ha2]. fold a in Ha1, Ha2.
  destruct (Z.log2_spec (Z.pos q) ltac:(lia)) as [Hb1 Hb2]. fold b in Hb1, Hb2.
  assert (Ha0 : 0 <= a) by apply Z.log2_nonneg.
  assert (Hb0 : 0 <= b) by apply Z.log2_nonneg.
  assert (Hx' : (p # q == inject_Z p / inject_Z (Z.pos q))%Q) by apply Qmake_Qdiv.
  assert (Hq : (0 < inject_Z (Z.pos q))%Q) by reflexivity.
  destruct (Qle_bool (2 ^ (a - b)) (p # q)) eqn:E.
  - split; [now apply Qle_bool_iff|].
    replace (a - b + 1) with ((a + 1) - b) by lia.
    rewrite pow2_sub, Hx', !pow2_Z by lia.
    apply Qlt_shift_div_l; [rewrite <- pow2_Z by lia; apply pow2_pos|].
    unfold Qdiv. rewrite <- Qmult_assoc, (Qmult_comm (/ _)), Qmult_assoc.
    apply Qlt_shift_div_r; [exact Hq|].
    rewrite <- !inject_Z_mult, <- Zlt_Qlt. nia.
  - assert (Hlt : (p # q < 2 ^ (a - b))%Q).
    { apply Qnot_le_lt. intros H. apply Qle_bool_iff in H. congruence. }
    replace (a - b - 1 + 1) with (a - b) by lia. split; [|exact Hlt].
    replace (a - b - 1) with (a - (b + 1)) by lia.
    rewrite pow2_sub, Hx', !pow2_Z by lia.
    apply Qle_shift_div_r; [rewrite <- pow2_Z by lia; apply pow2_pos|].
    unfold Qdiv. rewrite <- Qmult_assoc, (Qmult_comm (/ _)), Qmult_assoc.
    apply Qle_shift_div_l; [exact Hq|].
    rewrite <- !inject_Z_mult, <- Zle_Qle. nia.
Qed.

Lemma Qlog2_unique (x : Q) (k : Z) :
  (2 ^ k <= x)%Q -> (x < 2 ^ (k + 1))%Q -> Qlog2 x = k.
Proof.
  intros Hlo Hhi.
  assert (Hx : (0 < x)%Q) by (eapply Qlt_le_trans; [apply pow2_pos | exact Hlo]).
  destruct (Qlog2_spec x Hx) as [Hlo' Hhi'].
  assert (k < Qlog2 x + 1)
    by (apply pow2_lt_inv; eapply Qle_lt_trans; eassumption).
  assert (Qlog2 x < k + 1)
    by (apply pow2_lt_inv; eapply Qle_lt_trans; eassumption).
  lia.
Qed.

Lemma Qlog2_comp (x y : Q) : (0 < x)%Q -> (x == y)%Q -> Qlog2 x = Qlog2 y.
Proof.
  intros Hx E. destruct (Qlog2_spec x Hx) as [Hlo Hhi].
  symmetry. apply Qlog2_unique; rewrite <- E; assumption.
Qed.

Lemma Qlog2_mono (x y : Q) : (0 < x)%Q -> (x <= y)%Q -> Qlog2 x <= Qlog2 y.
Proof.
  intros Hx Hxy.
  assert (Hy : (0 < y)%Q) by (eapply Qlt_le_trans; eassumption).
  destruct (Qlog2_spec x Hx) as [Hlo _].
  destruct (Qlog2_spec y Hy) as [_ Hhi].
  assert (Qlog2 x < Qlog2 y + 1).
  { apply pow2_lt_inv. eapply Qle_lt_trans; [exact Hlo|].
    eapply Qle_lt_trans; eassumption. }
  lia.
Qed.

(** ** Rounding to an integer *)

Lemma round_half_even_cases (x : Q) :
  (0 <= x - inject_Z (Qfloor x))%Q /\ (x - inject_Z (Qfloor x) < 1)%Q /\
  ((x - inject_Z (Qfloor x) < 1 # 2)%Q /\ round_half_even x = Qfloor x \/
   (1 # 2 < x - inject_Z (Qfloor x))%Q /\ round_half_even x = Qfloor x + 1 \/
   (x - inject_Z (Qfloor x) == 1 # 2)%Q /\
   round_half_even x = (if Z.even (Qfloor x) then Qfloor x else Qfloor x + 1)).
Proof.
  set (n := Qfloor x). set (d := (x - inject_Z n)%Q).
  assert (H1 := Qfloor_le x). assert (H2 := Qlt_floor x).
  fold n in H1, H2. rewrite inject_Z_plus in H2.
  change (inject_Z 1) with 1%Q in H2.
  split; [unfold d; lra|]. split; [unfold d; lra|].
  unfold round_half_even. fold n. fold d.
  destruct (d ?= 1 # 2)%Q eqn:E.
  - right; right. split; [now apply Qeq_alt | reflexivity].
  - left. split; [now apply Qlt_alt | reflexivity].
  - right; left. split; [now apply Qgt_alt | reflexivity].
Qed.

Lemma round_half_even_near (x : Q) :
  (x - (1 # 2) <= inject_Z (round_half_even x))%Q /\
  (inject_Z (round_half_even x) <= x + (1 # 2))%Q.
Proof.
  destruct (round_half_even_cases x) as (H0 & H1 & [[Hd ->]|[[Hd ->]|[Hd ->]]]).
  - split; lra.
  - rewrite inject_Z_plus. change (inject_Z 1) with 1%Q. split; lra.
  - destruct (Z.even (Qfloor x)).
    + split; lra.
    + rewrite inject_Z_plus. change (inject_Z 1) with 1%Q. split; lra.
Qed.

Lemma round_half_even_Z (n : Z) : round_half_even (inject_Z n) = n.
Proof.
  destruct (round_half_even_cases (inject_Z n)) as (_ & _ & H).
  rewrite Qfloor_Z in H.
  destruct H as [[_ H]|[[Hd _]|[Hd _]]]; [exact H | exfalso; lra | exfalso; lra].
Qed.

Lemma round_half_even_comp (x y : Q) :
  (x == y)%Q -> round_half_even x = round_half_even y.
Proof.
  intros E. unfold round_half_even.
  rewrite (Qfloor_comp _ _ E).
  assert (E' : (x - inject_Z (Qfloor y) == y - inject_Z (Qfloor y))%Q)
    by (rewrite E; reflexivity).
  rewrite (Qcompare_comp _ _ E' _ _ (Qeq_refl (1 # 2))). reflexivity.
Qed.

Lemma round_half_even_mono (x y : Q) :
  (x <= y)%Q -> round_half_even x <= round_half_even y.
Proof.
  intros Hxy.
  assert (Hf : Qfloor x <= Qfloor y) by now apply Qfloor_resp_le.
  destruct (round_half_even_cases x) as (Hx0 & Hx1 & Hx).
  destruct (round_half_even_cases y) as (Hy0 & Hy1 & Hy).
  destruct (Z.eq_dec (Qfloor x) (Qfloor y)) as [E|E].
  - rewrite E in *.
    destruct Hx as [[Hdx ->]|[[Hdx ->]|[Hdx ->]]];
    destruct Hy as [[Hdy ->]|[[Hdy ->]|[Hdy ->]]];
      try lia; try (exfalso; lra);
      destruct (Z.even (Qfloor y)); try lia; exfalso; lra.
  - assert (Hlt : Qfloor x + 1 <= Qfloor y) by lia.
    assert (round_half_even x <= Qfloor x + 1).
    { destruct Hx as [[_ ->]|[[_ ->]|[_ ->]]]; try lia.
      destruct (Z.even (Qfloor x)); lia. }
    assert (Qfloor y <= round_half_even y).
    { destruct Hy as [[_ ->]|[[_ ->]|[_ ->]]]; try lia.
      destruct (Z.even (Qfloor y)); lia. }
    lia.
Qed.

Lemma round_half_even_below (x : Q) (n : Z) :
  (x < inject_Z n - (1 # 2))%Q -> round_half_even x <= n - 1.
Proof.
  intros H. destruct (round_half_even_near x) as [_ Hhi].
  assert (Hlt : (inject_Z (round_half_even x) < inject_Z n)%Q) by lra.
  rewrite <- Zlt_Qlt in Hlt. lia.
Qed.

(** ** Rounding at a given exponent *)

Lemma fl_round_at (x : Q) : (fl x == round_at (ulp_exponent x) x)%Q.
Proof. unfold fl. apply Qred_correct. Qed.

(** On the draws and the factors that the examples below use, and on
    the greatest and least positive binary64 numbers below 1, a product,
    a sum and a quotient rounded by [fl] are the product, the sum and
    the quotient of the Standard Library's specification of IEEE 754. *)
Example fl_agrees_with_SpecFloat :
  let draws :=
    [206831982886645 # 2251799813685248; 134801621499525 # 4503599627370496;
     6004799503160661 # 9007199254740992; 1 # 2; 63 # 64;
     6148914691236517 # 36893488147419103232;
     9007199254740991 # 9007199254740992; (2 ^ (-1074))%Q]%Q in
  let factors := [3; 30000; 60000; 44100; 48000; 4096; 1000; 300; 7]%Q in
  forallb (fun a =>
    Qeq_bool (SF2Q (Q2SF a)) a &&
    forallb (fun b =>
      fl_agrees (SpecFloat.SFmul 53 1024) Qmult a b &&
      fl_agrees (SpecFloat.SFadd 53 1024) Qplus a b &&
      fl_agrees (SpecFloat.SFdiv 53 1024) Qdiv a b) factors) draws = true.
Proof. vm_compute. reflexivity. Qed.

(** From here on [fl] is used through its properties; it is still
    evaluated on numerals by [vm_compute]. *)
Opaque fl.

Lemma div_pow2_le (e : Z) (x y : Q) : (x <= y)%Q -> (x / 2 ^ e <= y / 2 ^ e)%Q.
Proof.
  intros H. unfold Qdiv. apply Qmult_le_compat_r; [exact H|].
  apply Qlt_le_weak, Qinv_lt_0_compat, pow2_pos.
Qed.

Lemma round_at_mono (e : Z) (x y : Q) :
  (x <= y)%Q -> (round_at e x <= round_at e y)%Q.
Proof.
  intros H. unfold round_at.
  apply Qmult_le_compat_r; [|apply Qlt_le_weak, pow2_pos].
  rewrite <- Zle_Qle. apply round_half_even_mono, div_pow2_le, H.
Qed.

(** A multiple of [2 ^ e] is not moved. *)
Lemma round_at_exact (e : Z) (x : Q) (m : Z) :
  (x == inject_Z m * 2 ^ e)%Q -> (round_at e x == x)%Q.
Proof.
  intros E. unfold round_at.
  assert (Hm : (x / 2 ^ e == inject_Z m)%Q).
  { rewrite E. field. apply Qnot_eq_sym, Qlt_not_eq, pow2_pos. }
  rewrite (round_half_even_comp _ _ Hm), round_half_even_Z. symmetry. exact E.
Qed.

Lemma round_at_pow2 (e k : Z) : e <= k -> (round_at e (2 ^ k) == 2 ^ k)%Q.
Proof.
  intros H. apply (round_at_exact e _ (2 ^ (k - e))).
  rewrite <- pow2_Z by lia. rewrite <- pow2_add. now replace (k - e + e) with k by lia.
Qed.

Lemma round_at_near (e : Z) (x : Q) :
  (Qabs (round_at e x - x) <= 2 ^ e * (1 # 2))%Q.
Proof.
  unfold round_at.
  destruct (round_half_even_near (x / 2 ^ e)) as [Hlo Hhi].
  set (m := inject_Z (round_half_even (x / 2 ^ e))) in *.
  assert (Hp := pow2_pos e).
  assert (Hx : (x == x / 2 ^ e * 2 ^ e)%Q)
    by (field; apply Qnot_eq_sym, Qlt_not_eq, Hp).
  set (y := (x / 2 ^ e)%Q) in *.
  rewrite Hx. set (p := (2 ^ e)%Q) in *.
  apply Qabs_Qle_condition. split.
  - assert ((y - m) * p <= (1 # 2) * p)%Q
      by (apply Qmult_le_compat_r; [lra | lra]).
    lra.
  - assert ((m - y) * p <= (1 # 2) * p)%Q
      by (apply Qmult_le_compat_r; [lra | lra]).
    lra.
Qed.

(** ** Rounding to binary64 *)

Lemma Qabs_pos_eq (x : Q) : (0 < x)%Q -> Qabs x = x.
Proof.
  destruct x as [p q]. unfold Qlt, Qabs; simpl. intros H.
  f_equal. apply Z.abs_eq. lia.
Qed.

Lemma ulp_exponent_pos (x : Q) :
  (0 < x)%Q -> ulp_exponent x = Z.max (Qlog2 x - 52) (-1074).
Proof. intros H. unfold ulp_exponent. now rewrite Qabs_pos_eq. Qed.

Lemma round_at_comp (e : Z) (x y : Q) : (x == y)%Q -> (round_at e x == round_at e y)%Q.
Proof.
  intros E. unfold round_at.
  assert (E' : (x / 2 ^ e == y / 2 ^ e)%Q) by (rewrite E; reflexivity).
  now rewrite (round_half_even_comp _ _ E').
Qed.

Lemma round_at_zero (e : Z) (x : Q) : (x == 0)%Q -> (round_at e x == 0)%Q.
Proof.
  intros E. rewrite (round_at_comp e x 0 E).
  apply (round_at_exact e 0 0). ring.
Qed.

Lemma fl_zero (x : Q) : (x == 0)%Q -> (fl x == 0)%Q.
Proof. intros E. rewrite fl_round_at. now apply round_at_zero. Qed.

#[global] Instance fl_comp : Proper (Qeq ==> Qeq) fl.
Proof.
  intros x y E.
  destruct (Qeq_dec x 0) as [Hz|Hnz].
  - rewrite (fl_zero x Hz). symmetry. apply fl_zero. now rewrite <- E.
  - rewrite !fl_round_at.
    assert (Ha : (Qabs x == Qabs y)%Q) by now rewrite E.
    assert (Hpos : (0 < Qabs x)%Q).
    { destruct (Qlt_le_dec 0 (Qabs x)) as [H|H]; [exact H|].
      exfalso. apply Hnz. apply Qabs_Qle_condition in H as [H1 H2].
      apply Qle_antisym; [exact H2 | exact H1]. }
    unfold ulp_exponent. rewrite (Qlog2_comp _ _ Hpos Ha).
    now apply round_at_comp.
Qed.

Lemma fl_nonneg (x : Q) : (0 <= x)%Q -> (0 <= fl x)%Q.
Proof.
  intros H. rewrite fl_round_at.
  rewrite <- (round_at_zero (ulp_exponent x) 0 (Qeq_refl 0)).
  now apply round_at_mono.
Qed.

(** Rounding keeps the order (of non-negative numbers). *)
Lemma fl_mono (x y : Q) : (0 <= x)%Q -> (x <= y)%Q -> (fl x <= fl y)%Q.
Proof.
  intros Hx Hxy.
  destruct (Qle_lt_or_eq _ _ Hx) as [Hx0|Hx0].
  2:{ rewrite (fl_zero x) by (symmetry; exact Hx0). apply fl_nonneg. lra. }
  assert (Hy0 : (0 < y)%Q) by lra.
  rewrite !fl_round_at, !ulp_exponent_pos by assumption.
  assert (Hl := Qlog2_mono x y Hx0 Hxy).
  set (lx := Qlog2 x) in *. set (ly := Qlog2 y) in *.
  destruct (Z.eq_dec (Z.max (lx - 52) (-1074)) (Z.max (ly - 52) (-1074))) as [E|E].
  - rewrite E. now apply round_at_mono.
  - assert (Hlt : lx < ly) by lia.
    assert (Huy : Z.max (ly - 52) (-1074) <= ly) by lia.
    assert (Hux : Z.max (lx - 52) (-1074) <= ly) by lia.
    destruct (Qlog2_spec x Hx0) as [_ Hxhi]. fold lx in Hxhi.
    destruct (Qlog2_spec y Hy0) as [Hylo _]. fold ly in Hylo.
    assert (Hxb : (x <= 2 ^ ly)%Q).
    { apply Qlt_le_weak. eapply Qlt_le_trans; [exact Hxhi|]. apply pow2_le. lia. }
    apply Qle_trans with (2 ^ ly)%Q.
    + eapply Qle_trans; [apply round_at_mono, Hxb|].
      rewrite (round_at_pow2 _ ly Hux). apply Qle_refl.
    + eapply Qle_trans; [|apply round_at_mono, Hylo].
      rewrite (round_at_pow2 _ ly Huy). apply Qle_refl.
Qed.

(** A number with at most 53 significant bits above [2 ^ -1074] is not
    moved. *)
Lemma fl_exact (x : Q) (m e : Z) :
  (x == inject_Z m * 2 ^ e)%Q -> -1074 <= e -> (0 < x)%Q -> (x < 2 ^ (53 + e))%Q ->
  (fl x == x)%Q.
Proof.
  intros E He Hx Hhi.
  rewrite fl_round_at, ulp_exponent_pos by exact Hx.
  destruct (Qlog2_spec x Hx) as [Hlo _].
  assert (Hl : Qlog2 x < 53 + e)
    by (apply pow2_lt_inv; eapply Qle_lt_trans; eassumption).
  set (u := Z.max (Qlog2 x - 52) (-1074)).
  assert (Hu : u <= e) by (unfold u; lia).
  apply (round_at_exact u x (m * 2 ^ (e - u))).
  rewrite E, inject_Z_mult, <- pow2_Z by lia.
  rewrite <- Qmult_assoc, <- pow2_add.
  now replace (e - u + u) with e by lia.
Qed.

Lemma fl_Z (n : Z) : 0 <= n < 2 ^ 53 -> (fl (inject_Z n) == inject_Z n)%Q.
Proof.
  intros [Hlo Hhi].
  destruct (Z.eq_dec n 0) as [->|Hn]; [now apply fl_zero|].
  apply (fl_exact _ n 0).
  - change (2 ^ 0)%Q with 1%Q. ring.
  - lia.
  - change 0%Q with (inject_Z 0). rewrite <- Zlt_Qlt. lia.
  - rewrite pow2_Z by lia. rewrite <- Zlt_Qlt. exact Hhi.
Qed.

(** The relative error of one rounding is at most [2 ^ -53], for a number
    in the range of the normal binary64 numbers. *)
Lemma fl_error (x : Q) :
  (2 ^ (-1022) <= x)%Q -> (Qabs (fl x - x) <= x * 2 ^ (-53))%Q.
Proof.
  intros Hn.
  assert (Hx : (0 < x)%Q) by (eapply Qlt_le_trans; [apply pow2_pos | exact Hn]).
  rewrite fl_round_at, ulp_exponent_pos by exact Hx.
  destruct (Qlog2_spec x Hx) as [Hlo Hhi].
  assert (Hl : -1022 <= Qlog2 x).
  { assert (-1022 < Qlog2 x + 1)
      by (apply pow2_lt_inv; eapply Qle_lt_trans; eassumption).
    lia. }
  replace (Z.max (Qlog2 x - 52) (-1074)) with (Qlog2 x - 52) by lia.
  eapply Qle_trans; [apply round_at_near|].
  replace (Qlog2 x - 52) with (Qlog2 x + (-53) + 1) by lia.
  rewrite pow2_S, pow2_add.
  assert (Hp := pow2_pos (-53)).
  assert ((2 ^ Qlog2 x * 2 ^ (-53) <= x * 2 ^ (-53))%Q)
    by (apply Qmult_le_compat_r; [exact Hlo | lra]).
  set (a := (2 ^ Qlog2 x * 2 ^ (-53))%Q) in *. lra.
Qed.

(** A product that stays [2 ^ -53] (relatively) below a whole number [N]
    is rounded to a number below [N]: the binary64 number next below
    [N] is nearer. *)
Lemma fl_below_integer (x : Q) (N : Z) :
  0 < N < 2 ^ 53 -> (0 <= x)%Q -> (x <= inject_Z N * (1 - 2 ^ (-53)))%Q ->
  (fl x < inject_Z N)%Q.
Proof.
  intros [HN0 HN] Hx Hxb.
  set (k := Z.log2 N).
  destruct (Z.log2_spec N HN0) as [Hk1 Hk2]. fold k in Hk1, Hk2.
  assert (Hk0 : 0 <= k) by apply Z.log2_nonneg.
  assert (Hk52 : k <= 52).
  { assert (2 ^ k < 2 ^ 53) by lia.
    apply Z.pow_lt_mono_r_iff in H; lia. }
  assert (Hc : (0 < 2 ^ (-53))%Q) by apply pow2_pos.
  set (c := (2 ^ (-53))%Q) in *.
  assert (HP : (0 < 2 ^ k)%Q) by apply pow2_pos.
  assert (HPZ : (2 ^ k == inject_Z (2 ^ k))%Q) by (apply pow2_Z; lia).
  assert (HNQ : (0 < inject_Z N)%Q)
    by (change 0%Q with (inject_Z 0); rewrite <- Zlt_Qlt; lia).
  destruct (Z.eq_dec N (2 ^ k)) as [E|E].
  - (* [N] is a power of two: the bound itself is a binary64 number *)
    set (b := (inject_Z N * (1 - c))%Q) in *.
    assert (Hb : (b == inject_Z (2 ^ 53 - 1) * 2 ^ (k - 53))%Q).
    { unfold b. rewrite E, <- HPZ.
      replace (k - 53) with (k + (-53)) by lia. rewrite pow2_add. fold c.
      assert (H53 : (inject_Z (2 ^ 53 - 1) * c == 1 - c)%Q) by reflexivity.
      rewrite <- H53. ring. }
    assert (Hblt : (b < inject_Z N)%Q).
    { unfold b. assert (0 < inject_Z N * c)%Q by (apply Qmult_lt_0_compat; assumption).
      lra. }
    assert (Hb0 : (0 < b)%Q).
    { unfold b. apply Qmult_lt_0_compat; [exact HNQ|]. reflexivity. }
    assert (Hfb : (fl b == b)%Q).
    { apply (fl_exact b _ _ Hb); [lia | exact Hb0|].
      replace (53 + (k - 53)) with k by lia. rewrite HPZ, <- E. exact Hblt. }
    eapply Qle_lt_trans; [apply (fl_mono x b Hx Hxb)|].
    rewrite Hfb. exact Hblt.
  - assert (HNk : 2 ^ k + 1 <= N) by lia.
    destruct (Qlt_le_dec x (2 ^ k)) as [Hlt|Hge].
    + (* below the binade of [N] *)
      eapply Qle_lt_trans; [apply (fl_mono x (2 ^ k) Hx); lra|].
      rewrite HPZ, fl_Z by lia. rewrite <- Zlt_Qlt. lia.
    + (* in the binade of [N] *)
      assert (Hx0 : (0 < x)%Q) by lra.
      assert (HxN : (x < inject_Z N)%Q).
      { assert (0 < inject_Z N * c)%Q by (apply Qmult_lt_0_compat; assumption).
        lra. }
      assert (Hl : Qlog2 x = k).
      { apply Qlog2_unique; [exact Hge|].
        eapply Qlt_le_trans; [exact HxN|].
        rewrite pow2_Z by lia. rewrite <- Zle_Qle. lia. }
      rewrite fl_round_at, ulp_exponent_pos, Hl by exact Hx0.
      replace (Z.max (k - 52) (-1074)) with (k - 52) by lia.
      set (s := (2 ^ (k - 52))%Q).
      assert (Hs : (0 < s)%Q) by apply pow2_pos.
      set (N' := N * 2 ^ (52 - k)).
      assert (HN's : (inject_Z N' * s == inject_Z N)%Q).
      { unfold N', s. rewrite inject_Z_mult, <- pow2_Z by lia.
        rewrite <- Qmult_assoc, <- pow2_add.
        replace (52 - k + (k - 52)) with 0 by lia.
        change (2 ^ 0)%Q with 1%Q. ring. }
      assert (Hs2 : (s * (1 # 2) == 2 ^ k * c)%Q).
      { unfold s, c. replace (k - 52) with (k + (-53) + 1) by lia.
        rewrite pow2_S, pow2_add. ring. }
      assert (HNc : (2 ^ k * c < inject_Z N * c)%Q).
      { apply Qmult_lt_compat_r; [exact Hc|].
        rewrite HPZ, <- Zlt_Qlt. lia. }
      assert (Hr : round_half_even (x / s) <= N' - 1).
      { apply round_half_even_below.
        apply Qlt_shift_div_r; [exact Hs|].
        assert (((inject_Z N' - (1 # 2)) * s == inject_Z N - 2 ^ k * c)%Q)
          by (rewrite <- HN's, <- Hs2; ring).
        set (P := (2 ^ k)%Q) in *. lra. }
      unfold round_at. fold s.
      apply Qle_lt_trans with (inject_Z (N' - 1) * s)%Q.
      * apply Qmult_le_compat_r; [now rewrite <- Zle_Qle | lra].
      * assert (Hd : (inject_Z (N' - 1) * s == inject_Z N - s)%Q).
        { unfold Z.sub. rewrite inject_Z_plus, inject_Z_opp, <- HN's.
          change (inject_Z 1) with 1%Q. ring. }
        rewrite Hd. clear - Hs. clearbody s. lra.
Qed.

(** A binary64 number below 1 is at most [1 - 2 ^ -53]. *)
Lemma binary64_below_one (r : Q) :
  binary64 r -> (0 <= r)%Q -> (r < 1)%Q -> (r <= 1 - 2 ^ (-53))%Q.
Proof.
  unfold binary64. intros Hb Hr0 Hr1.
  destruct (Qle_lt_or_eq _ _ Hr0) as [Hpos|Hz];
    [|rewrite <- Hz; discriminate].
  destruct (Qlog2_spec r Hpos) as [Hlo Hhi].
  assert (Hl : Qlog2 r < 0).
  { apply pow2_lt_inv. eapply Qle_lt_trans; [exact Hlo|]. exact Hr1. }
  destruct (Z.eq_dec (Qlog2 r) (-1)) as [E|E].
  - rewrite fl_round_at, ulp_exponent_pos, E in Hb by exact Hpos.
    change (Z.max (-1 - 52) (-1074)) with (-53) in Hb.
    unfold round_at in Hb.
    set (M := round_half_even (r / 2 ^ (-53))) in *.
    assert (HM : M < 2 ^ 53).
    { rewrite Zlt_Qlt.
      assert (Hc : (inject_Z M == r * inject_Z (2 ^ 53))%Q).
      { rewrite <- Hb. rewrite <- Qmult_assoc.
        assert (H1 : (2 ^ (-53) * inject_Z (2 ^ 53) == 1)%Q) by reflexivity.
        rewrite H1. ring. }
      rewrite Hc.
      rewrite <- (Qmult_1_l (inject_Z (2 ^ 53))) at 2.
      apply Qmult_lt_compat_r; [reflexivity | exact Hr1]. }
    rewrite <- Hb.
    apply Qle_trans with (inject_Z (2 ^ 53 - 1) * 2 ^ (-53))%Q.
    + apply Qmult_le_compat_r; [rewrite <- Zle_Qle; lia | discriminate].
    + apply Qle_lteq. right. reflexivity.
  - assert (Hh : (r < 2 ^ (-1))%Q).
    { eapply Qlt_le_trans; [exact Hhi|]. apply pow2_le. lia. }
    apply Qlt_le_weak. eapply Qlt_le_trans; [exact Hh|]. discriminate.
Qed.

(** [Math.floor(Math.random() * n)] is an index below [n]. *)
Lemma fl_draw_below (r : Q) (n : Z) :
  binary64 r -> (0 <= r)%Q -> (r < 1)%Q -> 0 < n < 2 ^ 53 ->
  (0 <= fl (r * inject_Z n))%Q /\ (fl (r * inject_Z n) < inject_Z n)%Q.
Proof.
  intros Hb Hr0 Hr1 Hn.
  assert (HnQ : (0 < inject_Z n)%Q)
    by (change 0%Q with (inject_Z 0); rewrite <- Zlt_Qlt; lia).
  assert (Hx : (0 <= r * inject_Z n)%Q)
    by (apply Qmult_le_0_compat; [exact Hr0 | lra]).
  split; [now apply fl_nonneg|].
  apply fl_below_integer; [exact Hn | exact Hx|].
  rewrite (Qmult_comm (inject_Z n)).
  apply Qmult_le_compat_r; [|lra].
  now apply binary64_below_one.
Qed.

(** The result of a rounding is a binary64 number. *)
Lemma fl_idem (x : Q) : (0 <= x)%Q -> binary64 (fl x).
Proof.
  intros Hx0. unfold binary64.
  destruct (Qle_lt_or_eq _ _ Hx0) as [Hx|Hz].
  2:{ assert (E : (fl x == 0)%Q) by (apply fl_zero; symmetry; exact Hz).
      rewrite E. now apply fl_zero. }
  assert (E := fl_round_at x). rewrite ulp_exponent_pos in E by exact Hx.
  destruct (Qlog2_spec x Hx) as [_ Hhi].
  set (l := Qlog2 x) in *. set (u := Z.max (l - 52) (-1074)) in *.
  unfold round_at in E. set (M := round_half_even (x / 2 ^ u)) in *.
  assert (Hu := pow2_pos u).
  assert (HM0 : 0 <= M).
  { unfold M. rewrite <- (round_half_even_Z 0). apply round_half_even_mono.
    apply Qle_shift_div_l; [exact Hu|].
    change (inject_Z 0) with 0%Q. rewrite Qmult_0_l. exact Hx0. }
  assert (HM : M <= 2 ^ 53).
  { unfold M. rewrite <- (round_half_even_Z (2 ^ 53)). apply round_half_even_mono.
    apply Qle_shift_div_r; [exact Hu|].
    rewrite <- pow2_Z, <- pow2_add by lia.
    apply Qlt_le_weak. eapply Qlt_le_trans; [exact Hhi|]. apply pow2_le. lia. }
  destruct (Z.eq_dec M 0) as [HMz|HMnz].
  { assert (E0 : (fl x == 0)%Q) by (rewrite E, HMz; ring).
    rewrite E0. now apply fl_zero. }
  assert (Hpos : (0 < fl x)%Q).
  { rewrite E. apply Qmult_lt_0_compat; [|exact Hu].
    change 0%Q with (inject_Z 0). rewrite <- Zlt_Qlt. lia. }
  destruct (Z.eq_dec M (2 ^ 53)) as [HMt|HMlt].
  - apply (fl_exact (fl x) 1 (53 + u)); [|lia | exact Hpos|].
    + rewrite E, HMt, <- pow2_Z, <- pow2_add by lia.
      change (inject_Z 1) with 1%Q. ring.
    + rewrite E, HMt, <- pow2_Z, <- pow2_add by lia. apply pow2_lt. lia.
  - apply (fl_exact (fl x) M u E); [lia | exact Hpos|].
    rewrite E, pow2_add, (pow2_Z 53) by lia.
    apply Qmult_lt_compat_r; [exact Hu|]. rewrite <- Zlt_Qlt. lia.
Qed.

(** The index that [Math.floor] takes from a rounded product. *)
Lemma floor_fl_preimage (x : Q) (k : Z) :
  0 <= k -> k + 1 < 2 ^ 53 ->
  (inject_Z k <= x)%Q -> (x <= inject_Z (k + 1) * (1 - 2 ^ (-53)))%Q ->
  Qfloor (fl x) = k.
Proof.
  intros Hk0 Hk Hlo Hhi.
  assert (Hx : (0 <= x)%Q).
  { eapply Qle_trans; [|exact Hlo].
    change 0%Q with (inject_Z 0). rewrite <- Zle_Qle. exact Hk0. }
  assert (H1 : (inject_Z k <= fl x)%Q).
  { rewrite <- (fl_Z k) by lia. apply fl_mono; [|exact Hlo].
    change 0%Q with (inject_Z 0). rewrite <- Zle_Qle. exact Hk0. }
  assert (H2 : (fl x < inject_Z (k + 1))%Q)
    by (apply fl_below_integer; [lia | exact Hx | exact Hhi]).
  assert (k <= Qfloor (fl x))
    by (rewrite <- (Qfloor_Z k); now apply Qfloor_resp_le).
  assert (Qfloor (fl x) < k + 1)
    by (rewrite Zlt_Qlt; eapply Qle_lt_trans; [apply Qfloor_le | exact H2]).
  lia.
Qed.

(** Two roundings, of a product and of its quotient by a power of two,
    move the quotient by at most [2 ^ -51] of it. *)
Lemma fl_quotient_error (y b : Q) :
  (1 <= y)%Q -> (1 <= b)%Q -> (b <= 2 ^ 1000)%Q ->
  (Qabs (fl (fl y / b) - y / b) <= y / b * 2 ^ (-51))%Q.
Proof.
  intros Hy Hb1 Hb2.
  assert (Hc : (0 < 2 ^ (-53))%Q) by apply pow2_pos.
  assert (Hc1 : (2 ^ (-53) <= 1 # 2)%Q) by discriminate.
  assert (Hc4 : (2 ^ (-51) == 4 * 2 ^ (-53))%Q) by reflexivity.
  assert (Hn : (2 ^ (-1022) <= y)%Q)
    by (eapply Qle_trans; [|exact Hy]; discriminate).
  assert (Ha := fl_error y Hn).
  set (c := (2 ^ (-53))%Q) in *.
  set (a := fl y) in *.
  apply Qabs_Qle_condition in Ha as [Ha1 Ha2].
  assert (Hyc : (0 <= y * c)%Q) by (apply Qmult_le_0_compat; lra).
  assert (Hyc' : (y * c <= y * (1 # 2))%Q).
  { rewrite !(Qmult_comm y). apply Qmult_le_compat_r; lra. }
  assert (Hb0 : (0 < b)%Q) by lra.
  assert (Hib : (0 < / b)%Q) by now apply Qinv_lt_0_compat.
  set (x := (y / b)%Q). set (z := (a / b)%Q).
  assert (Hzx1 : (z - x <= x * c)%Q).
  { unfold z, x, Qdiv.
    assert ((a - y) * / b <= y * c * / b)%Q
      by (apply Qmult_le_compat_r; lra).
    lra. }
  assert (Hzx2 : (x - z <= x * c)%Q).
  { unfold z, x, Qdiv.
    assert ((y - a) * / b <= y * c * / b)%Q
      by (apply Qmult_le_compat_r; lra).
    lra. }
  assert (Hx0 : (0 < x)%Q) by (unfold x, Qdiv; apply Qmult_lt_0_compat; lra).
  assert (Hxc : (0 <= x * c)%Q) by (apply Qmult_le_0_compat; lra).
  assert (Hxc' : (x * c <= x * (1 # 2))%Q).
  { rewrite !(Qmult_comm x). apply Qmult_le_compat_r; lra. }
  assert (Hzn : (2 ^ (-1022) <= z)%Q).
  { apply Qle_trans with ((1 # 2) / 2 ^ 1000)%Q; [discriminate|].
    unfold z. apply Qle_trans with ((1 # 2) / b)%Q.
    - unfold Qdiv. rewrite !(Qmult_comm (1 # 2)).
      apply Qmult_le_compat_r; [|discriminate].
      apply Qle_shift_inv_l; [exact Hb0|].
      assert (H1000 : (0 < 2 ^ 1000)%Q) by apply pow2_pos.
      assert (E : (/ 2 ^ 1000 * b == b / 2 ^ 1000)%Q) by (unfold Qdiv; ring).
      rewrite E. apply Qle_shift_div_r; [exact H1000 | lra].
    - unfold Qdiv. apply Qmult_le_compat_r; lra. }
  assert (Hz := fl_error z Hzn). fold c in Hz.
  apply Qabs_Qle_condition in Hz as [Hz1 Hz2].
  assert (Hzc : (z * c <= x * c + x * c * c)%Q).
  { assert (z * c <= (x + x * c) * c)%Q
      by (apply Qmult_le_compat_r; lra).
    lra. }
  assert (Hxcc : (x * c * c <= x * c)%Q).
  { assert (c * (x * c) <= 1 * (x * c))%Q
      by (apply Qmult_le_compat_r; lra).
    lra. }
  rewrite Hc4. fold c. fold z. fold x.
  set (q := fl z) in *.
  apply Qabs_Qle_condition. split; lra.
Qed.


(** ** The archive buffer *)

Lemma archiveAudio_normal event w :
  outcome (archiveAudio event) w = Normal tt.
Proof.
  unfold outcome, archiveAudio, bind, when, try_catch, updateLog, modify,
    gets, ret, new_Float32Array, Date_now; simpl.
  repeat (match goal with |- context [if ?b then _ else _] => destruct b end;
          simpl); reflexivity.
Qed.

(** The queue after one call: the new segment at the back, and the front
    dropped when that made the queue longer than its capacity. *)
Lemma archiveAudio_queue event w :
  ARCHIVE_QUEUE (exec (archiveAudio event) w) =
    let pushed := ARCHIVE_QUEUE w ++ [mkSegment (length (heap w)) (clock w)] in
    if (MAX_ARCHIVE_SEGMENTS <? length pushed)%nat then tail pushed else pushed.
Proof.
  unfold exec, archiveAudio, bind, when, try_catch, updateLog, modify,
    gets, ret, new_Float32Array, Date_now; simpl.
  repeat (match goal with |- context [if ?b then _ else _] => destruct b end;
          simpl); reflexivity.
Qed.

(** The store after one call: the copy of the block in fresh storage,
    everything else as it was. *)
Lemma archiveAudio_heap event w :
  heap (exec (archiveAudio event) w) = heap w ++ [inputBuffer event].
Proof.
  unfold exec, archiveAudio, bind, when, try_catch, updateLog, modify,
    gets, ret, new_Float32Array, Date_now; simpl.
  repeat (match goal with |- context [if ?b then _ else _] => destruct b end;
          simpl); reflexivity.
Qed.

Lemma capture_queue w timed :
  ARCHIVE_QUEUE (capture w timed) =
    let pushed := ARCHIVE_QUEUE w ++ [mkSegment (length (heap w)) (fst timed)] in
    if (MAX_ARCHIVE_SEGMENTS <? length pushed)%nat then tail pushed else pushed.
Proof. unfold capture, step; simpl. now rewrite archiveAudio_queue. Qed.

Lemma capture_heap w timed :
  heap (capture w timed) = heap w ++ [inputBuffer (snd timed)].
Proof. unfold capture, step; simpl. now rewrite archiveAudio_heap. Qed.

Lemma captures_heap blocks : forall w,
  heap (captures blocks w) = heap w ++ map (fun b => inputBuffer (snd b)) blocks.
Proof.
  induction blocks as [|b blocks IH]; intros w; simpl.
  - now rewrite app_nil_r.
  - unfold captures in *; simpl. rewrite IH, capture_heap.
    now rewrite <- app_assoc.
Qed.

Lemma appended_length next blocks : length (appended next blocks) = length blocks.
Proof.
  revert next; induction blocks as [|b blocks IH]; intros next; simpl; auto.
Qed.

Lemma appended_lookup blocks : forall next i seg,
  appended next blocks !! i = Some seg -> samples seg = (next + i)%nat.
Proof.
  induction blocks as [|b blocks IH]; intros next i seg; simpl.
  - discriminate.
  - destruct i as [|i]; simpl.
    + intros [= <-]; simpl; lia.
    + intros H. apply IH in H. lia.
Qed.

(** The archive after any sequence of captures is the [MAX_ARCHIVE_SEGMENTS]
    last elements of what it held followed by what was pushed. *)
Lemma captures_queue blocks : forall w,
  (length (ARCHIVE_QUEUE w) <= MAX_ARCHIVE_SEGMENTS)%nat ->
  let all := ARCHIVE_QUEUE w ++ appended (length (heap w)) blocks in
  ARCHIVE_QUEUE (captures blocks w) = drop (length all - MAX_ARCHIVE_SEGMENTS) all.
Proof.
  induction blocks as [|b blocks IH]; intros w Hlen; simpl.
  - rewrite app_nil_r. replace (_ - _)%nat with 0%nat by lia. reflexivity.
  - unfold captures; simpl. fold (captures blocks (capture w b)).
    assert (Hq := capture_queue w b). assert (Hh := capture_heap w b).
    simpl in Hq. rewrite length_app in Hq. simpl in Hq.
    set (s := mkSegment (length (heap w)) (fst b)) in *.
    assert (Hheap : length (heap (capture w b)) = S (length (heap w))).
    { rewrite Hh, length_app; simpl; lia. }
    destruct (Nat.ltb_spec MAX_ARCHIVE_SEGMENTS (length (ARCHIVE_QUEUE w) + 1)) as [Hov|Hfit].
    + destruct (ARCHIVE_QUEUE w) as [|old q] eqn:Eq.
      { simpl in Hov. unfold MAX_ARCHIVE_SEGMENTS in Hov. lia. }
      simpl in Hq, Hlen, Hov.
      rewrite IH by (rewrite Hq, length_app; simpl; lia).
      rewrite Hq, Hheap. simpl.
      rewrite <- app_assoc. simpl.
      rewrite !length_app. simpl. rewrite !appended_length.
      assert (length q = 299%nat) by (unfold MAX_ARCHIVE_SEGMENTS in *; lia).
      match goal with
      | |- drop ?a _ = drop ?b _ =>
          replace a with (length blocks) by lia;
          replace b with (S (length blocks)) by lia
      end.
      reflexivity.
    + rewrite IH by (rewrite Hq, length_app; simpl; lia).
      rewrite Hq, Hheap. rewrite <- app_assoc. reflexivity.
Qed.

Lemma captures_bounded blocks w :
  (length (ARCHIVE_QUEUE w) <= MAX_ARCHIVE_SEGMENTS)%nat ->
  (length (ARCHIVE_QUEUE (captures blocks w)) <= MAX_ARCHIVE_SEGMENTS)%nat.
Proof.
  intros Hlen. rewrite captures_queue by exact Hlen.
  rewrite length_drop. lia.
Qed.

(** What [appended] lists is what the calls created: the [i]-th segment
    carries the time stamp of the [i]-th call, and its storage holds the
    [i]-th block. *)
Lemma appended_spec blocks w i seg :
  appended (length (heap w)) blocks !! i = Some seg ->
  exists b, blocks !! i = Some b /\ t seg = fst b /\
    heap (captures blocks w) !! samples seg = Some (inputBuffer (snd b)).
Proof.
  intros H. rewrite captures_heap.
  assert (Hs := appended_lookup _ _ _ _ H).
  revert i seg H Hs. generalize (heap w) as h.
  induction blocks as [|b blocks IH]; intros h i seg H Hs; simpl in *.
  - discriminate.
  - destruct i as [|i]; simpl in *.
    + injection H as <-. exists b. repeat split.
      simpl. now apply list_lookup_middle.
    + specialize (IH (h ++ [inputBuffer (snd b)]) i seg).
      rewrite length_app in IH; simpl in IH.
      replace (length h + 1)%nat with (S (length h)) in IH by lia.
      destruct (IH H ltac:(lia)) as (b' & Hb & Ht & Hh).
      exists b'. repeat split; auto.
      now rewrite <- app_assoc in Hh.
Qed.

(** A segment that was pushed and has been shifted out is in the archive
    no more: the segments that remain own other storage. *)
Lemma evicted_gone blocks w i seg :
  ARCHIVE_QUEUE w = [] ->
  (i < length blocks - MAX_ARCHIVE_SEGMENTS)%nat ->
  appended (length (heap w)) blocks !! i = Some seg ->
  seg ∉ ARCHIVE_QUEUE (captures blocks w).
Proof.
  intros Hq Hi Hseg Hin.
  rewrite captures_queue in Hin by (rewrite Hq; simpl; lia).
  rewrite Hq in Hin; simpl in Hin. rewrite appended_length in Hin.
  apply list_elem_of_lookup in Hin as [j Hj].
  rewrite lookup_drop in Hj.
  apply appended_lookup in Hj. apply appended_lookup in Hseg. lia.
Qed.

(** C1. After every call of [archiveAudio] in any sequence of calls, the
    archive holds at most [MAX_ARCHIVE_SEGMENTS] segments, and they are the
    most recent ones of all those pushed so far, in the order in which
    they were pushed and without a gap; once more than the capacity was
    pushed there are exactly [MAX_ARCHIVE_SEGMENTS] of them. Each pushed
    segment carries the time of its call and owns a copy of its block. *)
Theorem archive_bounded_recent_in_order
    (blocks : list (Z * AudioProcessingEvent)) (w : World) (k : nat) :
  (length (ARCHIVE_QUEUE w) <= MAX_ARCHIVE_SEGMENTS)%nat ->
  let calls := take k blocks in
  let pushed := appended (length (heap w)) calls in
  let all := ARCHIVE_QUEUE w ++ pushed in
  let queue := ARCHIVE_QUEUE (captures calls w) in
  (length queue <= MAX_ARCHIVE_SEGMENTS)%nat /\
  queue = drop (length all - MAX_ARCHIVE_SEGMENTS) all /\
  ((MAX_ARCHIVE_SEGMENTS <= length all)%nat ->
     length queue = MAX_ARCHIVE_SEGMENTS) /\
  (forall i seg, pushed !! i = Some seg ->
     exists b, calls !! i = Some b /\ t seg = fst b /\
       heap (captures calls w) !! samples seg = Some (inputBuffer (snd b))).
Proof.
  intros Hlen calls pushed all queue.
  assert (Hq : queue = drop (length all - MAX_ARCHIVE_SEGMENTS) all)
    by (apply captures_queue; exact Hlen).
  repeat split.
  - apply captures_bounded; exact Hlen.
  - exact Hq.
  - intros Hall. rewrite Hq, length_drop. lia.
  - intros i seg H. eapply appended_spec; exact H.
Qed.

Lemma archive_bounded_recent_in_order_witness :
  let w := initial (fun _ => 0%Q) 0 in
  let calls := take 302 (tagged_blocks 305) in
  let queue := ARCHIVE_QUEUE (captures calls w) in
  (length queue <= MAX_ARCHIVE_SEGMENTS)%nat /\
  queue = drop (length (ARCHIVE_QUEUE w ++ appended (length (heap w)) calls)
                - MAX_ARCHIVE_SEGMENTS)
               (ARCHIVE_QUEUE w ++ appended (length (heap w)) calls).
Proof.
  intros w calls queue.
  destruct (archive_bounded_recent_in_order (tagged_blocks 305) w 302)
    as (H1 & H2 & _).
  - simpl. unfold MAX_ARCHIVE_SEGMENTS. lia.
  - split; [exact H1 | exact H2].
Defined.

(** C5. Starting from an empty archive, [MAX_ARCHIVE_SEGMENTS + 1] calls
    leave an archive that no longer contains the first segment pushed; and
    400 calls leave 300 segments, the oldest of which is the one pushed at
    position 100, the segments pushed at positions 0 to 99 being gone. *)
Theorem eviction_order (w : World) :
  ARCHIVE_QUEUE w = [] ->
  (forall blocks first,
     length blocks = S MAX_ARCHIVE_SEGMENTS ->
     appended (length (heap w)) blocks !! 0%nat = Some first ->
     first ∉ ARCHIVE_QUEUE (captures blocks w)) /\
  (forall blocks,
     length blocks = 400%nat ->
     let queue := ARCHIVE_QUEUE (captures blocks w) in
     let pushed := appended (length (heap w)) blocks in
     length queue = 300%nat /\
     queue = drop 100 pushed /\
     queue !! 0%nat = pushed !! 100%nat /\
     (forall i seg, (i < 100)%nat -> pushed !! i = Some seg -> seg ∉ queue)).
Proof.
  intros Hq. split.
  - intros blocks first Hlen Hfirst.
    apply (evicted_gone blocks w 0 first Hq); [rewrite Hlen; lia | exact Hfirst].
  - intros blocks Hlen queue pushed.
    assert (Hqueue : queue = drop 100 pushed).
    { unfold queue. rewrite captures_queue by (rewrite Hq; simpl; lia).
      rewrite Hq; simpl. rewrite appended_length, Hlen. reflexivity. }
    repeat split.
    + rewrite Hqueue, length_drop. unfold pushed.
      rewrite appended_length, Hlen. reflexivity.
    + exact Hqueue.
    + rewrite Hqueue, lookup_drop. reflexivity.
    + intros i seg Hi Hseg.
      apply (evicted_gone blocks w i seg Hq); [|exact Hseg].
      rewrite Hlen. unfold MAX_ARCHIVE_SEGMENTS. lia.
Qed.

Lemma eviction_order_witness :
  let w := initial (fun _ => 0%Q) 0 in
  (mkSegment 0%nat 0 ∉ ARCHIVE_QUEUE (captures (tagged_blocks 301) w)) /\
  length (ARCHIVE_QUEUE (captures (tagged_blocks 400) w)) = 300%nat /\
  ARCHIVE_QUEUE (captures (tagged_blocks 400) w) !! 0%nat =
    appended 0%nat (tagged_blocks 400) !! 100%nat.
Proof.
  intros w.
  destruct (eviction_order w eq_refl) as [Hfirst Hmore].
  split.
  - apply (Hfirst (tagged_blocks 301) (mkSegment 0%nat 0)); reflexivity.
  - destruct (Hmore (tagged_blocks 400) eq_refl) as (Hlen & _ & Hhead & _).
    split; [exact Hlen | exact Hhead].
Defined.

(** The oldest segment kept after 400 tagged blocks is block 100, stamped
    10000 ms, and its storage holds that block. *)
Example eviction_order_run :
  let w := captures (tagged_blocks 400) (initial (fun _ => 0%Q) 0) in
  length (ARCHIVE_QUEUE w) = 300%nat /\
  ARCHIVE_QUEUE w !! 0%nat = Some (mkSegment 100%nat 10000) /\
  heap w !! 100%nat = Some [inject_Z 100].
Proof. vm_compute. repeat split. Qed.

(** ** Numbers *)

Lemma Qltb_spec (a b : Q) : Qltb a b = true <-> (a < b)%Q.
Proof. unfold Qltb, Qlt. apply Z.ltb_lt. Qed.

Lemma Qfloor_range (x : Q) (n : Z) :
  (0 <= x)%Q -> (x < inject_Z n)%Q -> 0 <= Qfloor x < n.
Proof.
  intros Hlo Hhi. split.
  - change 0 with (Qfloor 0). now apply Qfloor_resp_le.
  - rewrite Zlt_Qlt. eapply Qle_lt_trans; [apply Qfloor_le | exact Hhi].
Qed.

(** A draw scaled by a positive count floors to an index below it. *)
Lemma floor_draw_range (r : Q) (n : Z) :
  unit_draw r -> 0 < n -> 0 <= Math_floor (r * inject_Z n) < n.
Proof.
  intros [Hlo Hhi] Hn. apply Qfloor_range.
  - apply Qmult_le_0_compat; [exact Hlo|].
    change 0%Q with (inject_Z 0). rewrite <- Zle_Qle. lia.
  - rewrite <- (Qmult_1_l (inject_Z n)) at 2.
    apply Qmult_lt_compat_r; [|exact Hhi].
    change 0%Q with (inject_Z 0). rewrite <- Zlt_Qlt. exact Hn.
Qed.

(** The same when the product is rounded before it is floored, as the
    code has it: a binary64 draw scaled by a count below [2 ^ 53] floors
    to an index below the count. *)
Lemma floor_fl_draw_range (r : Q) (n : Z) :
  unit_draw r -> binary64 r -> 0 < n < 2 ^ 53 ->
  0 <= Math_floor (fl (r * inject_Z n)) < n.
Proof.
  intros [Hlo Hhi] Hb Hn.
  destruct (fl_draw_below r n Hb Hlo Hhi Hn) as [H0 H1].
  now apply Qfloor_range.
Qed.

(** ** Selection *)

(** An index is a candidate exactly when its segment has a time stamp
    that is not zero and that is more than [EXCLUDE_RECENT_MS] old. *)
Lemma is_candidate_spec now q i :
  is_candidate now q i = true <->
  exists seg, q !! i = Some seg /\ t seg <> 0 /\ now - t seg > EXCLUDE_RECENT_MS.
Proof.
  unfold is_candidate. destruct (q !! i) as [seg|]; split.
  - destruct (Z.eqb_spec (t seg) 0); [discriminate|].
    intros H. exists seg. repeat split; auto.
    apply Z.gtb_lt in H. lia.
  - intros (seg' & [= <-] & Hnz & Hold).
    destruct (Z.eqb_spec (t seg) 0); [contradiction|].
    apply Z.gtb_lt. lia.
  - discriminate.
  - intros (seg' & H & _). discriminate.
Qed.

Lemma candidateIndices_In (now : Z) (q : list Segment) (i : nat) :
  i ∈ candidateIndices now q <-> is_candidate now q i = true.
Proof.
  unfold candidateIndices. rewrite list_elem_of_In, filter_In, in_seq.
  split; [intros [_ H]; exact H|]. intros H. split; [|exact H].
  apply is_candidate_spec in H as (seg & Hseg & _).
  apply lookup_lt_Some in Hseg. lia.
Qed.

(** C2 (amended). An index is in the candidate set if and only if its
    segment carries a time stamp other than zero and [now] minus that time
    stamp exceeds the exclusion window of 4000 ms: every segment captured
    within the last 4000 ms is excluded, and every older one is included
    unless its time stamp is zero, which the loop skips as missing. *)
Theorem candidateIndices_spec (now : Z) (q : list Segment) (i : nat) :
  i ∈ candidateIndices now q <->
  exists seg, q !! i = Some seg /\ t seg <> 0 /\ now - t seg > EXCLUDE_RECENT_MS.
Proof.
  rewrite candidateIndices_In. apply is_candidate_spec.
Qed.

(** With time stamps between [now - 5000] and [now], and [now] itself
    more than 5000 (as any reading of a present-day clock is), no time
    stamp is zero and an index is a candidate exactly when its segment
    is older than the exclusion window. *)
Lemma candidateIndices_span (now : Z) (q : list Segment) (i : nat) (seg : Segment) :
  5000 < now ->
  (forall s, s ∈ q -> now - 5000 <= t s <= now) ->
  q !! i = Some seg ->
  (i ∈ candidateIndices now q <-> now - t seg > EXCLUDE_RECENT_MS).
Proof.
  intros Hnow Hspan Hseg.
  assert (Hin : seg ∈ q) by (apply list_elem_of_lookup; eauto).
  destruct (decide (i ∈ candidateIndices now q)) as [H|H]; split; auto.
  - intros _. apply candidateIndices_In, is_candidate_spec in H
      as (s & Hs & _ & Hold). congruence.
  - contradiction.
  - intros Hold. apply candidateIndices_In, is_candidate_spec. exists seg.
    repeat split; auto. specialize (Hspan seg Hin). lia.
Qed.

(** At 4.5 s after the epoch, a segment stamped 0 lies in the span
    [now - 5000, now] and is older than the exclusion window, and yet its
    index is not a candidate: the claim as first stated does not hold. *)
Lemma candidateIndices_zero_stamp_skipped :
  ~ (forall (now : Z) (q : list Segment),
       (forall s, s ∈ q -> now - 5000 <= t s <= now) ->
       forall i seg, q !! i = Some seg ->
         (i ∈ candidateIndices now q <-> now - t seg > EXCLUDE_RECENT_MS)).
Proof.
  intros claim.
  pose (q := [mkSegment 0%nat 0; mkSegment 1%nat 4500]).
  assert (Hspan : forall s, s ∈ q -> 4500 - 5000 <= t s <= 4500).
  { intros s Hs. unfold q in Hs.
    repeat (apply elem_of_cons in Hs as [->|Hs]; [simpl; lia|]).
    inversion Hs. }
  destruct (claim 4500 q Hspan 0%nat (mkSegment 0%nat 0) eq_refl) as [_ Hincl].
  assert (Hin : 0%nat ∈ candidateIndices 4500 q)
    by (apply Hincl; unfold EXCLUDE_RECENT_MS; simpl; lia).
  vm_compute in Hin. inversion Hin.
Qed.

(** ** Fragment length *)

Lemma fl_nonpos (x : Q) : (x <= 0)%Q -> (fl x <= 0)%Q.
Proof.
  intros H. rewrite fl_round_at.
  rewrite <- (round_at_zero (ulp_exponent x) 0 (Qeq_refl 0)).
  now apply round_at_mono.
Qed.

(** A binary64 number below (above) a number is below (above) its
    rounding. *)
Lemma fl_lower (g x : Q) : binary64 g -> (0 <= g)%Q -> (g <= x)%Q -> (g <= fl x)%Q.
Proof.
  intros Hg H0 H. unfold binary64 in Hg.
  apply Qle_trans with (fl g); [rewrite Hg; apply Qle_refl | now apply fl_mono].
Qed.

Lemma fl_upper (g x : Q) : binary64 g -> (0 <= x)%Q -> (x <= g)%Q -> (fl x <= g)%Q.
Proof.
  intros Hg H0 H. unfold binary64 in Hg.
  apply Qle_trans with (fl g); [now apply fl_mono | rewrite Hg; apply Qle_refl].
Qed.

Lemma binary64_Z (n : Z) : 0 <= n < 2 ^ 53 -> binary64 (inject_Z n).
Proof. apply fl_Z. Qed.

(** Whole numbers and halves with at most 53 bits are binary64 numbers. *)
Lemma binary64_half (m : Z) : 0 <= m < 2 ^ 53 -> binary64 (inject_Z m * (1 # 2)).
Proof.
  intros [Hlo Hhi]. unfold binary64.
  destruct (Z.eq_dec m 0) as [->|Hm].
  { change (inject_Z 0 * (1 # 2))%Q with (0 # 2)%Q.
    rewrite (fl_zero (0 # 2)); reflexivity. }
  assert (Hpos : (0 < inject_Z m)%Q)
    by (change 0%Q with (inject_Z 0); rewrite <- Zlt_Qlt; lia).
  apply (fl_exact _ m (-1)).
  - reflexivity.
  - lia.
  - apply Qmult_lt_0_compat; [exact Hpos | reflexivity].
  - assert (E : (2 ^ (53 + -1) == inject_Z (2 ^ 53) * (1 # 2))%Q) by reflexivity.
    rewrite E. apply Qmult_lt_compat_r; [reflexivity|]. now rewrite <- Zlt_Qlt.
Qed.

(** The duration is between [SEGMENT_MIN_SEC] and [SEGMENT_MAX_SEC]; the
    upper end is reached (by the greatest draw, since the sum is rounded). *)
Lemma durationSecOf_range (r : Q) :
  unit_draw r -> (2 <= durationSecOf r)%Q /\ (durationSecOf r <= 5)%Q.
Proof.
  intros [Hlo Hhi]. unfold durationSecOf.
  assert (H3 : (fl (SEGMENT_MAX_SEC - SEGMENT_MIN_SEC) == 3)%Q)
    by (apply (fl_Z 3); lia).
  assert (Hp0 : (0 <= fl (r * fl (SEGMENT_MAX_SEC - SEGMENT_MIN_SEC)))%Q).
  { apply fl_nonneg. rewrite H3. lra. }
  assert (Hp3 : (fl (r * fl (SEGMENT_MAX_SEC - SEGMENT_MIN_SEC)) <= 3)%Q).
  { apply (fl_upper 3); [apply (binary64_Z 3); lia | rewrite H3; lra | rewrite H3; lra]. }
  set (p := fl (r * fl (SEGMENT_MAX_SEC - SEGMENT_MIN_SEC))) in *.
  unfold SEGMENT_MIN_SEC. split.
  - apply (fl_lower 2); [apply (binary64_Z 2); lia | discriminate | lra].
  - apply (fl_upper 5); [apply (binary64_Z 5); lia | lra | lra].
Qed.

(** The greatest binary64 number below 1 gives a duration of exactly 5 s. *)
Example durationSecOf_largest :
  let r := (1 - 2 ^ (-53))%Q in
  unit_draw r /\ binary64 r /\ (durationSecOf r == 5)%Q.
Proof. vm_compute. repeat split; discriminate. Qed.

(** Rounding to the nearest whole number moves a number by at most a
    half. *)
Lemma Math_round_near (x : Q) :
  (x - (1 # 2) < inject_Z (Math_round x))%Q /\
  (inject_Z (Math_round x) <= x + (1 # 2))%Q.
Proof.
  unfold Math_round. split.
  - assert (H := Qlt_floor (x + (1 # 2))).
    rewrite inject_Z_plus in H. change (inject_Z 1) with 1%Q in H. lra.
  - apply Qfloor_le.
Qed.

Lemma Math_round_mono (x y : Q) : (x <= y)%Q -> Math_round x <= Math_round y.
Proof. intros H. unfold Math_round. apply Qfloor_resp_le. lra. Qed.

(** [Math.round] of a half goes up. *)
Lemma Math_round_half (k : Z) : Math_round (inject_Z (2 * k + 1) * (1 # 2)) = k + 1.
Proof.
  unfold Math_round.
  assert (E : (inject_Z (2 * k + 1) * (1 # 2) + (1 # 2) == inject_Z (k + 1))%Q).
  { rewrite !inject_Z_plus, inject_Z_mult.
    change (inject_Z 2) with 2%Q. change (inject_Z 1) with 1%Q. ring. }
  rewrite (Qfloor_comp _ _ E). apply Qfloor_Z.
Qed.

Lemma div_BUFFER_SIZE (y : Q) : (y == y / inject_Z BUFFER_SIZE * 4096)%Q.
Proof. unfold BUFFER_SIZE. change (inject_Z 4096) with 4096%Q. field. Qed.

(** The quotient that [Math.round] receives, against the exact one: it
    is on the same side of every half with at most 40 bits. *)
Lemma quotient_above_half (y : Q) (m : Z) :
  0 <= m < 2 ^ 40 ->
  (inject_Z m * (1 # 2) <= y / inject_Z BUFFER_SIZE)%Q ->
  (inject_Z m * (1 # 2) <= fl (fl y / inject_Z BUFFER_SIZE))%Q.
Proof.
  intros Hm H.
  assert (Hm0 : (0 <= inject_Z m)%Q)
    by (change 0%Q with (inject_Z 0); rewrite <- Zle_Qle; lia).
  assert (Hy : (inject_Z (m * 2048) <= y)%Q).
  { rewrite inject_Z_mult, (div_BUFFER_SIZE y).
    change (inject_Z 2048) with 2048%Q. lra. }
  assert (Hfy : (inject_Z (m * 2048) <= fl y)%Q).
  { apply fl_lower; [apply binary64_Z; lia| |exact Hy].
    change 0%Q with (inject_Z 0). rewrite <- Zle_Qle. lia. }
  apply fl_lower; [apply binary64_half; lia | lra |].
  rewrite inject_Z_mult, (div_BUFFER_SIZE (fl y)) in Hfy.
  change (inject_Z 2048) with 2048%Q in Hfy. lra.
Qed.

Lemma quotient_below_half (y : Q) (m : Z) :
  0 <= m < 2 ^ 40 -> (0 <= y)%Q ->
  (y / inject_Z BUFFER_SIZE <= inject_Z m * (1 # 2))%Q ->
  (fl (fl y / inject_Z BUFFER_SIZE) <= inject_Z m * (1 # 2))%Q.
Proof.
  intros Hm Hy0 H.
  assert (Hy : (y <= inject_Z (m * 2048))%Q).
  { rewrite inject_Z_mult, (div_BUFFER_SIZE y).
    change (inject_Z 2048) with 2048%Q. lra. }
  assert (Hfy : (fl y <= inject_Z (m * 2048))%Q)
    by (apply fl_upper; [apply binary64_Z; lia | exact Hy0 | exact Hy]).
  assert (Hfy0 : (0 <= fl y)%Q) by now apply fl_nonneg.
  rewrite inject_Z_mult, (div_BUFFER_SIZE (fl y)) in Hfy.
  rewrite (div_BUFFER_SIZE (fl y)) in Hfy0.
  change (inject_Z 2048) with 2048%Q in Hfy.
  apply fl_upper; [apply binary64_half; lia | lra | lra].
Qed.

(** At a sample rate of 1024 Hz or more, a fragment of two seconds or more
    has at least one block. *)
Lemma segmentLength_pos (durationSec rate : Q) :
  (2 <= durationSec)%Q -> (1024 <= rate)%Q ->
  BUFFER_SIZE <= segmentLengthOf durationSec rate.
Proof.
  intros Hd Hr. unfold segmentLengthOf.
  assert (Hprod : (2 * rate <= durationSec * rate)%Q)
    by (apply Qmult_le_compat_r; [exact Hd | lra]).
  assert (Hq : (inject_Z 1 * (1 # 2) <=
                fl (fl (durationSec * rate) / inject_Z BUFFER_SIZE))%Q).
  { apply quotient_above_half; [lia|].
    rewrite (div_BUFFER_SIZE (durationSec * rate)) in Hprod.
    change (inject_Z 1) with 1%Q. lra. }
  apply Math_round_mono in Hq.
  change (inject_Z 1 * (1 # 2))%Q with (inject_Z (2 * 0 + 1) * (1 # 2))%Q in Hq.
  rewrite Math_round_half in Hq. unfold BUFFER_SIZE in *. lia.
Qed.

(** C7. For a duration between 2 and 5 seconds and a sample rate between
    1 Hz and [2 ^ 32] Hz, the fragment length is
    [round (durationSec * sampleRate / BUFFER_SIZE) * BUFFER_SIZE], the
    quotient being the one that binary64 arithmetic gives, which is
    within [2 ^ -51] (relatively) of the exact quotient. The length is a
    multiple of [BUFFER_SIZE] that differs from the exact product
    [durationSec * sampleRate] by less than one [BUFFER_SIZE]: by at most
    half of it and [2 ^ -51] of the product. It is the exact quotient,
    rounded to the nearest whole number, times [BUFFER_SIZE], or one
    block more than that; and it is the former unless the exact quotient
    lies within [2 ^ -51] (relatively) below a half. *)
Theorem segmentLength_quantized (durationSec rate : Q) :
  (2 <= durationSec)%Q -> (durationSec <= 5)%Q ->
  (1 <= rate)%Q -> (rate <= 2 ^ 32)%Q ->
  let segmentLength := segmentLengthOf durationSec rate in
  let exact := (durationSec * rate)%Q in
  let quotient := fl (fl exact / inject_Z BUFFER_SIZE) in
  let nearest := Math_round (exact / inject_Z BUFFER_SIZE) in
  segmentLength = Math_round quotient * BUFFER_SIZE /\
  (Qabs (quotient - exact / inject_Z BUFFER_SIZE)
     <= exact / inject_Z BUFFER_SIZE * 2 ^ (-51))%Q /\
  (BUFFER_SIZE | segmentLength) /\
  (Qabs (inject_Z segmentLength - exact) < inject_Z BUFFER_SIZE)%Q /\
  (Qabs (inject_Z segmentLength - exact)
     <= inject_Z (BUFFER_SIZE / 2) + exact * 2 ^ (-51))%Q /\
  (segmentLength = nearest * BUFFER_SIZE \/
   segmentLength = (nearest + 1) * BUFFER_SIZE) /\
  ((exact / inject_Z BUFFER_SIZE * (1 + 2 ^ (-51)) < inject_Z nearest + (1 # 2))%Q ->
   segmentLength = nearest * BUFFER_SIZE).
Proof.
  intros Hd2 Hd5 Hr1 Hr32 segmentLength exact quotient nearest.
  assert (Hy2 : (2 <= exact)%Q).
  { unfold exact. assert (2 * rate <= durationSec * rate)%Q
      by (apply Qmult_le_compat_r; lra). lra. }
  assert (Hy5 : (exact <= 5 * 2 ^ 32)%Q).
  { unfold exact. apply Qle_trans with (5 * rate)%Q.
    - apply Qmult_le_compat_r; lra.
    - rewrite !(Qmult_comm 5). apply Qmult_le_compat_r; [exact Hr32 | discriminate]. }
  change (2 ^ 32)%Q with 4294967296%Q in Hy5.
  assert (Herr : (Qabs (quotient - exact / inject_Z BUFFER_SIZE)
                    <= exact / inject_Z BUFFER_SIZE * 2 ^ (-51))%Q).
  { apply fl_quotient_error; [lra | discriminate | discriminate]. }
  assert (Hc : (2 ^ (-51) == 1 # 2251799813685248)%Q) by reflexivity.
  set (c := (2 ^ (-51))%Q) in *.
  set (x := (exact / inject_Z BUFFER_SIZE)%Q) in *.
  assert (Hx : (exact == x * 4096)%Q) by apply div_BUFFER_SIZE.
  destruct (Math_round_near quotient) as [Hqlo Hqhi].
  set (K := Math_round quotient) in *.
  assert (HL : segmentLength = K * BUFFER_SIZE) by reflexivity.
  assert (HLQ : (inject_Z segmentLength == inject_Z K * 4096)%Q)
    by (rewrite HL, inject_Z_mult; reflexivity).
  apply Qabs_Qle_condition in Herr as [He1 He2].
  assert (Hxc : (0 <= x * c)%Q) by (apply Qmult_le_0_compat; lra).
  assert (Hxc' : (x * c <= 1 # 4)%Q) by (rewrite Hc; lra).
  (* the nearest whole number to the exact quotient *)
  destruct (Math_round_near x) as [Hnlo Hnhi]. fold nearest in Hnlo, Hnhi.
  assert (Hn0 : 0 <= nearest).
  { unfold nearest. change 0 with (Math_round 0). apply Math_round_mono. lra. }
  assert (Hn40 : nearest < 2 ^ 30).
  { rewrite Zlt_Qlt. change (inject_Z (2 ^ 30)) with 1073741824%Q. lra. }
  assert (Hlow : nearest <= K).
  { destruct (Z.eq_dec nearest 0) as [E|E].
    - rewrite E. unfold K. change 0 with (Math_round 0). apply Math_round_mono.
      unfold quotient. apply fl_nonneg.
      apply Qle_shift_div_l; [reflexivity|]. apply fl_nonneg. lra.
    - assert (Hm : (inject_Z (2 * (nearest - 1) + 1) * (1 # 2) <= x)%Q).
      { rewrite inject_Z_plus, inject_Z_mult. unfold Z.sub.
        rewrite inject_Z_plus, inject_Z_opp.
        change (inject_Z 2) with 2%Q. change (inject_Z 1) with 1%Q. lra. }
      apply quotient_above_half in Hm; [|lia].
      apply Math_round_mono in Hm. rewrite Math_round_half in Hm.
      fold quotient in Hm. fold K in Hm. lia. }
  assert (Hup : K <= nearest + 1).
  { assert (Hm : (x <= inject_Z (2 * nearest + 1) * (1 # 2))%Q).
    { rewrite inject_Z_plus, inject_Z_mult.
      change (inject_Z 2) with 2%Q. change (inject_Z 1) with 1%Q. lra. }
    apply quotient_below_half in Hm; [|lia|lra].
    apply Math_round_mono in Hm. rewrite Math_round_half in Hm.
    fold quotient in Hm. fold K in Hm. exact Hm. }
  split; [exact HL|]. split; [apply Qabs_Qle_condition; split; assumption|].
  split; [exists K; exact HL|].
  change (inject_Z BUFFER_SIZE) with 4096%Q.
  change (inject_Z (BUFFER_SIZE / 2)) with 2048%Q.
  split; [|split; [|split]].
  - rewrite HLQ, Hx. apply Qabs_Qlt_condition. split; lra.
  - rewrite HLQ, Hx. apply Qabs_Qle_condition. split; lra.
  - rewrite HL. destruct (Z.eq_dec K nearest) as [->|]; [left; reflexivity|].
    right. f_equal. lia.
  - intros Hfar. rewrite HL. f_equal.
    assert (Hlt : (inject_Z K < inject_Z (nearest + 1))%Q).
    { rewrite inject_Z_plus. change (inject_Z 1) with 1%Q. lra. }
    rewrite <- Zlt_Qlt in Hlt. lia.
Qed.

Lemma segmentLength_quantized_witness :
  let segmentLength := segmentLengthOf (7 # 2) SAMPLE_RATE in
  (BUFFER_SIZE | segmentLength) /\
  (Qabs (inject_Z segmentLength - (7 # 2) * SAMPLE_RATE) < inject_Z BUFFER_SIZE)%Q.
Proof.
  intros segmentLength.
  destruct (segmentLength_quantized (7 # 2) SAMPLE_RATE)
    as (_ & _ & Hdiv & Hnear & _).
  - unfold Qle; simpl; lia.
  - unfold Qle; simpl; lia.
  - unfold SAMPLE_RATE, Qle; simpl; lia.
  - vm_compute. discriminate.
  - split; [exact Hdiv | exact Hnear].
Defined.

(** At 44100 Hz, 3.5 s become 38 blocks: 155648 samples for the 154350
    that were asked. *)
Example segmentLength_run : segmentLengthOf (7 # 2) SAMPLE_RATE = 155648.
Proof. vm_compute. reflexivity. Qed.

(** A draw of 0.09185185185185185 gives a duration of 2.2755555555555556 s.
    At 44100 Hz the exact quotient is a little below 24.5 and would be
    rounded to 24 blocks; the binary64 quotient is 24.5 and [Math.round]
    takes it up to 25 blocks, 102400 samples, which is more than half a
    block (and less than a block) away from the exact product. *)
Example segmentLength_at_a_tie :
  let r := (206831982886645 # 2251799813685248)%Q in
  let durationSec := durationSecOf r in
  let exact := (durationSec * SAMPLE_RATE)%Q in
  binary64 r /\
  durationSec = (5124095576030431 # 2251799813685248)%Q /\
  fl (fl exact / inject_Z BUFFER_SIZE) = (49 # 2)%Q /\
  segmentLengthOf durationSec SAMPLE_RATE = 102400 /\
  Math_round (exact / inject_Z BUFFER_SIZE) * BUFFER_SIZE = 98304 /\
  (inject_Z (BUFFER_SIZE / 2) < inject_Z 102400 - exact)%Q /\
  (inject_Z 102400 - exact < inject_Z BUFFER_SIZE)%Q.
Proof. vm_compute. repeat split. Qed.

(** A draw of 0.029931972789115635 at 44100 Hz: 23 blocks, where the
    duration [2 + 3 * r] without roundings would give 22. *)
Example segmentLength_rounded_duration :
  let r := (134801621499525 # 4503599627370496)%Q in
  binary64 r /\
  segmentLengthOf (durationSecOf r) SAMPLE_RATE = 94208 /\
  Math_round ((2 + r * 3) * SAMPLE_RATE / inject_Z BUFFER_SIZE) * BUFFER_SIZE
    = 90112.
Proof. vm_compute. repeat split. Qed.

(** ** The guarantee loop: delays *)

(** What the code computes: a delay of at least one second and of less
    than 31 s for the first fire, less than 61 s afterwards. *)
Lemma nextMsOf_bounds (isFirst : bool) (r : Q) :
  unit_draw r ->
  1000 <= nextMsOf isFirst r <= (if isFirst then 30999 else 60999).
Proof.
  intros Hr. unfold nextMsOf. destruct isFirst.
  - assert (H := floor_draw_range r 30000 Hr ltac:(lia)).
    change (inject_Z 30000) with 30000%Q in H. lia.
  - assert (H := floor_draw_range r 60000 Hr ltac:(lia)).
    change (inject_Z 60000) with 60000%Q in H. lia.
Qed.

(** Both upper bounds are reached. *)
Example nextMsOf_largest :
  unit_draw (29999 # 30000) /\ nextMsOf true (29999 # 30000) = 30999 /\
  unit_draw (59999 # 60000) /\ nextMsOf false (59999 # 60000) = 60999.
Proof. unfold unit_draw, Qle, Qlt; simpl. repeat split; lia. Qed.

(** A product that is rounded before it is floored gives the floor of
    the exact product, or one more. *)
Lemma floor_fl_near (x : Q) :
  (0 <= x)%Q -> (x < inject_Z (2 ^ 52))%Q ->
  Qfloor x <= Qfloor (fl x) <= Qfloor x + 1.
Proof.
  intros Hx Hhi.
  assert (H0 : 0 <= Qfloor x) by (change 0 with (Qfloor 0); now apply Qfloor_resp_le).
  assert (H1 : Qfloor x < 2 ^ 52)
    by (rewrite Zlt_Qlt; eapply Qle_lt_trans; [apply Qfloor_le | exact Hhi]).
  assert (Hlo : (inject_Z (Qfloor x) <= fl x)%Q).
  { apply fl_lower; [apply binary64_Z; lia | | apply Qfloor_le].
    change 0%Q with (inject_Z 0). now rewrite <- Zle_Qle. }
  assert (Hup : (fl x <= inject_Z (Qfloor x + 1))%Q).
  { apply fl_upper; [apply binary64_Z; lia | exact Hx|].
    apply Qlt_le_weak, Qlt_floor. }
  split.
  - rewrite <- (Qfloor_Z (Qfloor x)) at 1. now apply Qfloor_resp_le.
  - rewrite <- (Qfloor_Z (Qfloor x + 1)). now apply Qfloor_resp_le.
Qed.

(** [nextMsOf] floors the exact product. In binary64 the product is
    rounded before [Math.floor] sees it: for a binary64 draw the delay
    is then within the same bounds, and it is the delay of [nextMsOf] or
    one millisecond more. *)
Lemma nextMsOf_binary64 (isFirst : bool) (r : Q) :
  unit_draw r -> binary64 r ->
  let scale := if isFirst then 30000 else 60000 in
  let nextMs := Math_floor (fl (r * inject_Z scale)) + 1000 in
  1000 <= nextMs <= (if isFirst then 30999 else 60999) /\
  nextMsOf isFirst r <= nextMs <= nextMsOf isFirst r + 1.
Proof.
  intros Hr Hb scale nextMs.
  assert (Hs : 0 < scale < 2 ^ 53) by (unfold scale; destruct isFirst; lia).
  assert (Hrange := floor_fl_draw_range r scale Hr Hb Hs).
  fold nextMs in Hrange. destruct Hr as [Hr0 Hr1].
  assert (Hsq : (0 < inject_Z scale)%Q)
    by (change 0%Q with (inject_Z 0); rewrite <- Zlt_Qlt; lia).
  assert (Hnear := floor_fl_near (r * inject_Z scale)).
  destruct Hnear as [Hn1 Hn2].
  { apply Qmult_le_0_compat; lra. }
  { apply Qlt_le_trans with (1 * inject_Z scale)%Q.
    - apply Qmult_lt_compat_r; assumption.
    - rewrite Qmult_1_l, <- Zle_Qle. unfold scale. destruct isFirst; lia. }
  split.
  - unfold nextMs, Math_floor in *. unfold scale in *. destruct isFirst; lia.
  - unfold nextMsOf, nextMs, Math_floor in *. unfold scale in *.
    destruct isFirst.
    + change (inject_Z 30000) with 30000%Q in *. lia.
    + change (inject_Z 60000) with 60000%Q in *. lia.
Qed.

(** The draw 0.00016666666666666666 is a little below 5/30000; its
    product with 30000 is rounded to 5. The draw 63/64 has exact
    products. *)
Example nextMsOf_rounded_product :
  let r := (6148914691236517 # 36893488147419103232)%Q in
  binary64 r /\
  nextMsOf true r = 1004 /\
  Math_floor (fl (r * 30000)) + 1000 = 1005 /\
  binary64 (63 # 64) /\
  Math_floor (fl ((63 # 64) * 30000)) + 1000 = nextMsOf true (63 # 64) /\
  Math_floor (fl ((63 # 64) * 60000)) + 1000 = nextMsOf false (63 # 64).
Proof. vm_compute. repeat split. Qed.

(** The effect of [scheduleNextGuaranteedTrigger]: it never throws, the
    timer it held is cancelled, and a new timeout is pending under the
    handle stored in [guaranteeTimer]. *)
Lemma scheduleNextGuaranteedTrigger_spec (isFirst : bool) (w : World) :
  let nextMs := nextMsOf isFirst (rng w (drawn w)) in
  let w' := exec (scheduleNextGuaranteedTrigger isFirst) w in
  outcome (scheduleNextGuaranteedTrigger isFirst) w = Normal tt /\
  guaranteeTimer w' = Some (nextHandle w) /\
  timers w' =
    match guaranteeTimer w with
    | Some h => filter (fun tm => timerId tm <> h) (timers w)
    | None => timers w
    end ++ [mkTimer (nextHandle w) Timeout nextMs] /\
  ARCHIVE_QUEUE w' = ARCHIVE_QUEUE w /\
  heap w' = heap w /\
  chains w' = chains w /\
  log w' = log w ++ [LogNextGuaranteed nextMs] /\
  nextHandle w' = S (nextHandle w) /\
  rng w' = rng w.
Proof.
  unfold exec, outcome, scheduleNextGuaranteedTrigger, bind, gets, modify,
    clear_timer, set_timer, Math_random, updateLog, ret; simpl.
  destruct (guaranteeTimer w); simpl; repeat split.
Qed.

(** C3 (the code at a draw of 63/64). The first delay after the start of
    the session is 30531 ms and the delay scheduled by the fire that
    follows is 60062 ms: the delays go past the 30000 ms and 60000 ms that
    the comments of [scheduleNextGuaranteedTrigger] announce, since
    [floor (random * 30000) + 1000] ranges up to 30999 and
    [floor (random * 60000) + 1000] up to 60999. *)
Theorem guarantee_delay_overshoot :
  let started :=
    run [(0, StartClicked (mkAudioContext running SAMPLE_RATE));
         (10, MicrophoneGranted)]
        (initial (fun _ => 63 # 64) 3) in
  let fired := run [(30541, TimerFired 2%nat)] started in
  unit_draw (63 # 64) /\
  timers started = [mkTimer 1%nat Interval 10000; mkTimer 2%nat Timeout 30531] /\
  guaranteeTimer started = Some 2%nat /\
  timers fired = [mkTimer 1%nat Interval 10000; mkTimer 3%nat Timeout 60062] /\
  guaranteeTimer fired = Some 3%nat /\
  nextMsOf true (63 # 64) = 30531 /\ 30000 < 30531 /\
  nextMsOf false (63 # 64) = 60062 /\ 60000 < 60062.
Proof.
  vm_compute. repeat split; try reflexivity; discriminate.
Qed.

(** ** The store under the copy loop *)

Lemma world_ext (w1 w2 : World) :
  heap w1 = heap w2 ->
  ARCHIVE_QUEUE w1 = ARCHIVE_QUEUE w2 ->
  audioContext w1 = audioContext w2 ->
  mediaStreamSource w1 = mediaStreamSource w2 ->
  monitoringGain w1 = monitoringGain w2 ->
  monitoringConnected w1 = monitoringConnected w2 ->
  randomTriggerInterval w1 = randomTriggerInterval w2 ->
  guaranteeTimer w1 = guaranteeTimer w2 ->
  TRIGGER_CHECK_INTERVAL w1 = TRIGGER_CHECK_INTERVAL w2 ->
  TRIGGER_PROBABILITY w1 = TRIGGER_PROBABILITY w2 ->
  timers w1 = timers w2 ->
  nextHandle w1 = nextHandle w2 ->
  clock w1 = clock w2 ->
  rng w1 = rng w2 ->
  drawn w1 = drawn w2 ->
  platformBudget w1 = platformBudget w2 ->
  chains w1 = chains w2 ->
  log w1 = log w2 ->
  w1 = w2.
Proof.
  destruct w1, w2; simpl; intros; subst; reflexivity.
Qed.

Lemma with_heap_same (w : World) : with_heap (heap w) w = w.
Proof. destruct w; reflexivity. Qed.

Lemma insert_last {A} (h : list A) (x y : A) :
  <[length h := y]> (h ++ [x]) = h ++ [y].
Proof.
  rewrite insert_app_r_alt by lia.
  now replace (length h - length h)%nat with 0%nat by lia.
Qed.

Lemma heap_get_insert (h : list (list sample)) (l : loc) (xs : list sample) :
  length (heap_get (<[l := xs]> h) l) =
    if decide (l < length h)%nat then length xs else 0%nat.
Proof.
  unfold heap_get. destruct (decide (l < length h)%nat) as [Hl|Hl].
  - now rewrite list_lookup_insert_eq.
  - rewrite list_insert_ge by lia. now rewrite lookup_ge_None_2 by lia.
Qed.

Lemma insert_heap_get (h : list (list sample)) (l : loc) :
  <[l := heap_get h l]> h = h.
Proof.
  unfold heap_get. destruct (h !! l) as [xs|] eqn:E; simpl.
  - now apply list_insert_id.
  - apply list_insert_ge. now apply lookup_ge_None.
Qed.

Lemma splice_length (xs src : list sample) (off : nat) :
  (off + length src <= length xs)%nat ->
  length (splice xs src off) = length xs.
Proof.
  intros H. unfold splice. rewrite !length_app, length_take, length_drop. lia.
Qed.

Lemma read_view_subarray_length (h : list (list sample)) (arr : loc) (n : nat) :
  length (read_view h (subarray h arr n)) = Nat.min n (length (heap_get h arr)).
Proof.
  unfold read_view, subarray; simpl. rewrite length_take, drop_0. lia.
Qed.

(** The copy loop writes to [outputData] and to nothing else: whatever its
    outcome, the world it leaves differs from the one it found in the
    contents of that one array at most, whose length stays as it was. When
    the array has [segmentLength] elements and [offset] is within it, the
    loop ends normally with an offset that is still within it. *)
Lemma copyLoop_spec remaining startIndex segmentCount segmentLength outputData :
  forall offset w,
  exists o data,
    copyLoop remaining startIndex segmentCount segmentLength outputData offset w
      = (o, with_heap (<[outputData := data]> (heap w)) w) /\
    length data = length (heap_get (heap w) outputData) /\
    (0 <= offset <= segmentLength ->
     length (heap_get (heap w) outputData) = Z.to_nat segmentLength ->
     exists offset', o = Normal offset' /\ offset <= offset' <= segmentLength).
Proof.
  induction remaining as [|remaining IH]; intros offset w.
  - exists (Normal offset), (heap_get (heap w) outputData). simpl.
    rewrite insert_heap_get, with_heap_same. repeat split.
    intros Hoff _. exists offset. split; [reflexivity | lia].
  - simpl copyLoop. destruct (Z.ltb_spec offset segmentLength) as [Hlt|Hge].
    2:{ exists (Normal offset), (heap_get (heap w) outputData). unfold ret.
        rewrite insert_heap_get, with_heap_same. repeat split.
        intros Hoff _. exists offset. split; [reflexivity | lia]. }
    unfold bind at 1, gets at 1.
    match goal with
    | |- context [match ?s with Some _ => _ | None => _ end] =>
        destruct s as [segObj|] eqn:Eseg
    end.
    2:{ apply IH. }
    unfold bind at 1, gets at 1.
    set (copyLength := Z.min BUFFER_SIZE
           (Z.min (segmentLength - offset)
                  (Z.of_nat (length (heap_get (heap w) (samples segObj)))))).
    assert (Hcl : 0 <= copyLength <= segmentLength - offset)
      by (unfold copyLength, BUFFER_SIZE; lia).
    assert (Hsrc : length (read_view (heap w)
                     (subarray (heap w) (samples segObj) (Z.to_nat copyLength)))
                   = Z.to_nat copyLength).
    { rewrite read_view_subarray_length. unfold copyLength. lia. }
    unfold bind at 1, TypedArray_set. rewrite Hsrc.
    destruct (Nat.leb_spec (Z.to_nat offset + Z.to_nat copyLength)
                (length (heap_get (heap w) outputData))) as [Hfit|Hout].
    + set (dst := splice _ _ _).
      assert (Hdst : length dst = length (heap_get (heap w) outputData)).
      { unfold dst. apply splice_length. rewrite Hsrc. exact Hfit. }
      destruct (IH (offset + copyLength)
                  (with_heap (<[outputData := dst]> (heap w)) w))
        as (o & data & Hrun & Hlen & Hok).
      simpl in Hrun, Hlen, Hok.
      exists o, data. rewrite Hrun.
      rewrite list_insert_insert_eq. split; [reflexivity|].
      rewrite heap_get_insert in Hlen, Hok.
      assert (Hsame : length (heap_get (heap w) outputData) =
                      if decide (outputData < length (heap w))%nat
                      then length dst else 0%nat).
      { destruct (decide _) as [|Hl]; [auto|].
        unfold heap_get. now rewrite lookup_ge_None_2 by lia. }
      rewrite <- Hsame in Hlen, Hok. split; [exact Hlen|].
      intros Hoff Harr.
      destruct (Hok ltac:(lia) Harr) as (offset' & -> & Hoff').
      exists offset'. split; [reflexivity | lia].
    + exists (Thrown RangeError), (heap_get (heap w) outputData).
      rewrite insert_heap_get, with_heap_same. repeat split.
      intros Hoff Harr. lia.
Qed.

(** ** What a replay touches *)

Ltac run_replay :=
  repeat (simpl;
    match goal with
    | |- context [copyLoop ?r ?s ?n ?L ?out ?off ?w] =>
        let o := fresh "o" in
        let data := fresh "data" in
        let Hrun := fresh "Hrun" in
        destruct (copyLoop_spec r s n L out off w) as (o & data & Hrun & _ & _);
        rewrite Hrun; clear Hrun; destruct o
    | |- context [match ?n with O => _ | S _ => _ end] => destruct n eqn:?
    | |- context [match candidateIndices ?n ?q with [] => _ | _ :: _ => _ end] =>
        destruct (candidateIndices n q)
    | |- context [if ?b then _ else _] => destruct b
    end).

Ltac frame_leaf :=
  simpl; rewrite ?insert_last, <- ?app_assoc; simpl;
  repeat match goal with
  | |- _ /\ _ => split
  | |- ?x = ?x => reflexivity
  | |- (_ <= _)%nat => lia
  | |- exists extra, ?h = ?h ++ extra => exists []; symmetry; apply app_nil_r
  | |- exists extra, ?h ++ ?e = ?h ++ extra => exists e; reflexivity
  | |- exists n rest, ?l ++ ?a :: ?r = ?l ++ n :: rest => exists a, r; reflexivity
  | |- ?c = ?c \/ _ => left; reflexivity
  | |- _ \/ _ => right; eexists _, _; repeat split; reflexivity
  end.

Lemma ensureMonitoring_spec w :
  exists g c, ensureMonitoring w = (Normal tt, with_monitoring g c w).
Proof.
  unfold ensureMonitoring, try_catch, modify.
  destruct (monitoringGain w) eqn:E.
  - destruct (negb (monitoringConnected w) && mediaStreamSource w);
      eexists _, _; reflexivity.
  - exists None, (monitoringConnected w). rewrite <- E.
    destruct w; reflexivity.
Qed.

Lemma playSelected_frame ctx w : replayed w (exec (playSelected ctx) w).
Proof.
  unfold exec, playSelected. unfold bind at 1.
  destruct (ensureMonitoring_spec w) as (g & c & ->).
  unfold replayed, createBuffer,
    platform_create, bind, gets, modify, throw, updateLog, ret,
    Date_now, Math_random.
  run_replay.
  all: frame_leaf.
Qed.

(** The early return of [playRandomSoraMimi]. *)
Lemma playRandomSoraMimi_skip w :
  audio_ready w = false ->
  playRandomSoraMimi w = (Normal tt, with_log (log w ++ [LogSkip]) w).
Proof.
  unfold audio_ready, playRandomSoraMimi, bind, gets, try_catch, updateLog,
    modify, ret.
  destruct (audioContext w) as [ctx|]; [|reflexivity].
  destruct (is_running (state ctx)); simpl; [|reflexivity].
  destruct (length (ARCHIVE_QUEUE w) =? 0)%nat; simpl; [reflexivity|discriminate].
Qed.

(** Past its guard, [playRandomSoraMimi] is [playSelected] on the running
    context. *)
Lemma playRandomSoraMimi_play w ctx :
  audioContext w = Some ctx -> audio_ready w = true ->
  playRandomSoraMimi w = playSelected ctx w.
Proof.
  unfold audio_ready, playRandomSoraMimi, bind, gets. intros ->.
  destruct (is_running (state ctx)); simpl; [|discriminate].
  destruct (length (ARCHIVE_QUEUE w) =? 0)%nat; simpl; [discriminate|reflexivity].
Qed.

Lemma audio_ready_false w :
  audio_ready w = false <->
  audioContext w = None \/
  (exists ctx, audioContext w = Some ctx /\ state ctx <> running) \/
  ARCHIVE_QUEUE w = [].
Proof.
  unfold audio_ready. destruct (audioContext w) as [ctx|]; [|tauto].
  destruct (state ctx) eqn:Es; simpl;
    destruct (ARCHIVE_QUEUE w) as [|seg q]; simpl; split;
    try tauto; try discriminate; eauto;
    try (intros _; right; left; exists ctx; split; congruence).
  intros [H|[(c & [= <-] & H)|H]]; congruence.
Qed.

Lemma playRandomSoraMimi_frame w : replayed w (exec playRandomSoraMimi w).
Proof.
  destruct (audio_ready w) eqn:E.
  - unfold audio_ready in E.
    destruct (audioContext w) as [ctx|] eqn:Ec; [|discriminate].
    unfold exec. rewrite (playRandomSoraMimi_play w ctx Ec)
      by (unfold audio_ready; now rewrite Ec).
    apply (playSelected_frame ctx w).
  - unfold exec. rewrite playRandomSoraMimi_skip by exact E.
    unfold replayed. frame_leaf.
Qed.

(** A call of [playRandomSoraMimi] always shows: it logs. *)
Lemma playRandomSoraMimi_logs w : playRandomSoraMimi w <> (Normal tt, w).
Proof.
  intros H. assert (F := playRandomSoraMimi_frame w).
  unfold exec in F. rewrite H in F. simpl in F.
  destruct F as (_ & _ & _ & (n & rest & Hlog) & _).
  apply (f_equal length) in Hlog. rewrite length_app in Hlog. simpl in Hlog. lia.
Qed.

(** C10. Called without an audio context, with a context that is not
    running, or with an empty archive, [playRandomSoraMimi] returns at once:
    it selects nothing (no draw is made), builds no buffer and no node,
    starts no chain, and leaves the archive and its storage as they were;
    its only trace is the notification that the replay was skipped. *)
Theorem playRandomSoraMimi_noop_when_not_ready (w : World) :
  audioContext w = None \/
  (exists ctx, audioContext w = Some ctx /\ state ctx <> running) \/
  ARCHIVE_QUEUE w = [] ->
  let w' := exec playRandomSoraMimi w in
  outcome playRandomSoraMimi w = Normal tt /\
  w' = with_log (log w ++ [LogSkip]) w /\
  ARCHIVE_QUEUE w' = ARCHIVE_QUEUE w /\
  heap w' = heap w /\
  chains w' = chains w /\
  platformBudget w' = platformBudget w /\
  drawn w' = drawn w /\
  timers w' = timers w /\
  guaranteeTimer w' = guaranteeTimer w /\
  randomTriggerInterval w' = randomTriggerInterval w.
Proof.
  intros H. apply audio_ready_false in H.
  unfold exec, outcome. rewrite (playRandomSoraMimi_skip w H). simpl.
  repeat split.
Qed.

Lemma playRandomSoraMimi_noop_when_not_ready_witness :
  let w := initial (fun _ => 1 # 2) 8 in
  outcome playRandomSoraMimi w = Normal tt /\
  exec playRandomSoraMimi w = with_log (log w ++ [LogSkip]) w.
Proof.
  intros w.
  destruct (playRandomSoraMimi_noop_when_not_ready w) as (H1 & H2 & _).
  - left. reflexivity.
  - split; [exact H1 | exact H2].
Defined.

(** ** The probabilistic loop *)

(** C4. On a fire of the probabilistic loop one value is drawn, and the
    replay routine [playRandomSoraMimi] (selection and playback chain) is
    called if and only if that value is below [TRIGGER_PROBABILITY] and
    the archive holds more than 10 segments; otherwise the tick does
    nothing beyond the draw. A call is always visible in the log, so the
    log grows on exactly those ticks. *)
Theorem intervalCallback_triggers_iff (w : World) :
  let randomValue := rng w (drawn w) in
  let after_draw := with_drawn (S (drawn w)) w in
  let condition :=
    (randomValue < TRIGGER_PROBABILITY w)%Q /\
    (10 < length (ARCHIVE_QUEUE w))%nat in
  (condition <-> intervalCallback w = playRandomSoraMimi after_draw) /\
  (~ condition <-> intervalCallback w = (Normal tt, after_draw)) /\
  (condition <-> log (exec intervalCallback w) <> log w).
Proof.
  intros randomValue after_draw condition.
  assert (Hdec : condition \/ ~ condition).
  { unfold condition.
    destruct (Qlt_le_dec randomValue (TRIGGER_PROBABILITY w)) as [Hp|Hp];
      [|right; intros [H _]; apply (Qlt_not_le _ _ H Hp)].
    destruct (Nat.ltb_spec 10 (length (ARCHIVE_QUEUE w))); [left|right]; intuition lia. }
  assert (Hyes : condition -> intervalCallback w = playRandomSoraMimi after_draw).
  { intros [Hp Hn]. unfold intervalCallback, bind, gets, Math_random, when. simpl.
    fold randomValue. apply Qltb_spec in Hp. rewrite Hp.
    apply Nat.ltb_lt in Hn. rewrite Hn. reflexivity. }
  assert (Hno : ~ condition -> intervalCallback w = (Normal tt, after_draw)).
  { intros Hc. unfold intervalCallback, bind, gets, Math_random, when. simpl.
    fold randomValue.
    destruct (Qltb randomValue (TRIGGER_PROBABILITY w)) eqn:Ep; [|reflexivity].
    destruct (Nat.ltb_spec 10 (length (ARCHIVE_QUEUE w))); [|reflexivity].
    exfalso. apply Hc. split; [now apply Qltb_spec | assumption]. }
  assert (Hcall := playRandomSoraMimi_logs after_draw).
  assert (Hlog : log (exec playRandomSoraMimi after_draw) <> log w).
  { destruct (playRandomSoraMimi_frame after_draw)
      as (_ & _ & _ & (n & rest & Hl) & _).
    rewrite Hl. simpl. intros E. apply (f_equal length) in E.
    rewrite length_app in E. simpl in E. lia. }
  split; [split | split; split].
  - exact Hyes.
  - intros E. destruct Hdec as [Hc|Hc]; [exact Hc|].
    rewrite (Hno Hc) in E. symmetry in E. contradiction.
  - exact Hno.
  - intros E Hc. rewrite (Hyes Hc) in E. contradiction.
  - intros Hc. unfold exec. rewrite (Hyes Hc). exact Hlog.
  - intros Hl. destruct Hdec as [Hc|Hc]; [exact Hc|].
    exfalso. apply Hl. unfold exec. rewrite (Hno Hc). reflexivity.
Qed.

(** ** Replay and the archive's storage *)

(** Captures allocate and never write to storage that exists. *)
Lemma captures_keep_storage blocks w l :
  (l < length (heap w))%nat ->
  heap (captures blocks w) !! l = heap w !! l.
Proof.
  intros Hl. rewrite captures_heap. now apply lookup_app_l.
Qed.

(** C9. A call of [playRandomSoraMimi] leaves the archive as it was: the
    same segments in the same order, and every array that existed before
    the call, the samples of each segment among them, with the contents
    it had. A chain started by the call plays from an array allocated
    during the call, past every array that existed before, which is the
    storage of no segment of the archive; and no later capture or eviction
    changes the contents of an array that exists, that of a fragment
    handed to playback included. *)
Theorem replay_never_mutates_archive (w : World) :
  archive_allocated w ->
  let w' := exec playRandomSoraMimi w in
  ARCHIVE_QUEUE w' = ARCHIVE_QUEUE w /\
  length (ARCHIVE_QUEUE w') = length (ARCHIVE_QUEUE w) /\
  (forall l, (l < length (heap w))%nat -> heap w' !! l = heap w !! l) /\
  (forall seg, seg ∈ ARCHIVE_QUEUE w ->
     is_Some (heap w !! samples seg) /\
     heap w' !! samples seg = heap w !! samples seg) /\
  (forall c, c ∈ chains w' ->
     c ∈ chains w \/
     ((length (heap w) <= buffer c)%nat /\
      is_Some (heap w' !! buffer c) /\
      forall seg, seg ∈ ARCHIVE_QUEUE w' -> samples seg <> buffer c)) /\
  (forall blocks l, (l < length (heap w'))%nat ->
     heap (captures blocks w') !! l = heap w' !! l).
Proof.
  intros Halloc w'.
  destruct (playRandomSoraMimi_frame w)
    as (Hq & (extra & Hheap) & Hchains & _).
  fold w' in Hq, Hheap, Hchains.
  assert (Hkeep : forall l, (l < length (heap w))%nat ->
                            heap w' !! l = heap w !! l).
  { intros l Hl. rewrite Hheap. now apply lookup_app_l. }
  assert (Hseg : forall seg, seg ∈ ARCHIVE_QUEUE w ->
                             (samples seg < length (heap w))%nat).
  { intros seg Hin. unfold archive_allocated in Halloc.
    rewrite Forall_forall in Halloc. auto. }
  split; [exact Hq|]. split; [now rewrite Hq|]. split; [exact Hkeep|].
  split; [|split].
  - intros seg Hin. specialize (Hseg seg Hin). split.
    + now apply lookup_lt_is_Some.
    + now apply Hkeep.
  - intros c Hc. destruct Hchains as [Hsame|(c0 & data & Hnew & Hbuf & Hh)].
    + left. now rewrite <- Hsame.
    + rewrite Hnew in Hc. apply elem_of_app in Hc as [Hold|Hlast]; [now left|].
      apply list_elem_of_singleton in Hlast as ->. right.
      split; [lia|]. split.
      * rewrite Hh, Hbuf. apply lookup_lt_is_Some.
        rewrite length_app; simpl; lia.
      * intros seg Hin. rewrite Hq in Hin. specialize (Hseg seg Hin). lia.
  - intros blocks l Hl. now apply captures_keep_storage.
Qed.

Lemma replay_never_mutates_archive_witness :
  let w := session (fun _ => 1 # 2) 5 in
  ARCHIVE_QUEUE (exec playRandomSoraMimi w) = ARCHIVE_QUEUE w /\
  (forall l, (l < length (heap w))%nat ->
     heap (exec playRandomSoraMimi w) !! l = heap w !! l).
Proof.
  intros w.
  destruct (replay_never_mutates_archive w) as (Hq & _ & Hkeep & _).
  - unfold archive_allocated. vm_compute. repeat constructor.
  - split; [exact Hq | exact Hkeep].
Defined.

(** ** The guarantee loop: rescheduling *)

Lemma try_finally_exec (body fin : M unit) (w : World) :
  exec (try_finally body fin) w = exec fin (exec body w).
Proof.
  unfold exec, try_finally. destruct (body w) as [[a|e] w1]; simpl.
  - reflexivity.
  - destruct (fin w1) as [[a|e'] w2]; reflexivity.
Qed.

(** An exception of the attempt is not swallowed: it is still thrown
    once the next fire has been scheduled. *)
Lemma guaranteeCallback_outcome (w : World) :
  outcome guaranteeCallback w =
  outcome (let* ready := gets audio_ready in when ready playRandomSoraMimi) w.
Proof.
  unfold outcome, guaranteeCallback, try_finally.
  destruct (bind (gets audio_ready) _ w) as [[a|e] w1]; simpl.
  - destruct (scheduleNextGuaranteedTrigger_spec false w1) as (Hn & _).
    unfold outcome in Hn. destruct (scheduleNextGuaranteedTrigger false w1).
    simpl in Hn. subst. now destruct a.
  - destruct (scheduleNextGuaranteedTrigger_spec false w1) as (Hn & _).
    unfold outcome in Hn. destruct (scheduleNextGuaranteedTrigger false w1).
    simpl in Hn. subst. reflexivity.
Qed.

Lemma find_fresh (ts : list Timer) (tm : Timer) :
  Forall (fun x => (timerId x < timerId tm)%nat) ts ->
  List.find (fun x => (timerId x =? timerId tm)%nat) (ts ++ [tm]) = Some tm.
Proof.
  induction 1 as [|x ts Hx _ IH]; simpl.
  - now rewrite Nat.eqb_refl.
  - destruct (Nat.eqb_spec (timerId x) (timerId tm)); [lia | exact IH].
Qed.

Lemma Forall_filter_keep (P : Timer -> Prop) (h : handle) (ts : list Timer) :
  Forall P ts -> Forall P (filter (fun tm => timerId tm <> h) ts).
Proof.
  intros H. apply Forall_forall. intros x Hx.
  apply list_elem_of_filter in Hx as [_ Hx].
  rewrite Forall_forall in H. auto.
Qed.

(** The attempt made when the guarantee timer fires neither sets nor
    clears a timer, whatever it does otherwise. *)
Lemma attempt_keeps_timers (w : World) :
  let w' := exec (let* ready := gets audio_ready in when ready playRandomSoraMimi) w in
  timers w' = timers w /\ nextHandle w' = nextHandle w /\ rng w' = rng w /\
  ARCHIVE_QUEUE w' = ARCHIVE_QUEUE w.
Proof.
  unfold exec, bind, gets, when. destruct (audio_ready w).
  - destruct (playRandomSoraMimi_frame w)
      as (Hq & _ & _ & _ & Ht & Hn & _ & _ & _ & Hr & _).
    unfold exec in *. auto.
  - simpl. auto.
Qed.

(** C8. When the pending guarantee timer fires, a new guarantee timeout
    is pending afterwards under the handle stored in [guaranteeTimer],
    whatever happened in between: whether the guard let the replay be
    attempted or not, and whether the attempt returned or threw. The new
    handle is a fresh one, so the same holds again at the next fire. *)
Theorem guarantee_fire_reschedules (w : World) (h : handle) (tm : Timer) :
  List.find (fun x => (timerId x =? h)%nat) (timers w) = Some tm ->
  kind tm = Timeout ->
  timers_fresh w ->
  let w' := exec (fire h) w in
  exists h' nextMs,
    guaranteeTimer w' = Some h' /\
    h' <> h /\
    List.find (fun x => (timerId x =? h')%nat) (timers w')
      = Some (mkTimer h' Timeout nextMs) /\
    timers_fresh w' /\
    (rng_ok w -> 1000 <= nextMs <= 60999) /\
    outcome (fire h) w =
      outcome (let* ready := gets audio_ready in when ready playRandomSoraMimi)
              (exec (clear_timer h) w).
Proof.
  intros Hfind Hkind Hfresh w'.
  assert (Hh : (h < nextHandle w)%nat).
  { apply find_some in Hfind as [Hin Heq].
    apply Nat.eqb_eq in Heq. subst h.
    unfold timers_fresh in Hfresh. rewrite Forall_forall in Hfresh.
    apply Hfresh. now apply list_elem_of_In. }
  set (w1 := exec (clear_timer h) w).
  assert (Hfire : fire h w = guaranteeCallback w1).
  { unfold fire, bind at 1, gets at 1. rewrite Hfind, Hkind. reflexivity. }
  assert (Hfresh1 : timers_fresh w1).
  { unfold timers_fresh, w1, exec, clear_timer, modify; simpl.
    now apply Forall_filter_keep. }
  set (attempt := bind (gets audio_ready) (fun ready => when ready playRandomSoraMimi)).
  set (w2 := exec attempt w1).
  destruct (attempt_keeps_timers w1) as (Ht2 & Hn2 & Hr2 & _).
  fold attempt in Ht2, Hn2, Hr2. fold w2 in Ht2, Hn2, Hr2.
  assert (Hw' : w' = exec (scheduleNextGuaranteedTrigger false) w2).
  { unfold w'. unfold exec at 1. rewrite Hfire.
    apply (try_finally_exec attempt _ w1). }
  destruct (scheduleNextGuaranteedTrigger_spec false w2)
    as (_ & Hg & Ht & _ & _ & _ & _ & Hn & _).
  rewrite <- Hw' in Hg, Ht, Hn.
  assert (Hn1 : nextHandle w1 = nextHandle w) by reflexivity.
  assert (Hfront : Forall (fun x => (timerId x < nextHandle w2)%nat)
            match guaranteeTimer w2 with
            | Some g => filter (fun x => timerId x <> g) (timers w2)
            | None => timers w2
            end).
  { rewrite Hn2, Ht2. destruct (guaranteeTimer w2);
      [apply Forall_filter_keep|]; exact Hfresh1. }
  exists (nextHandle w2), (nextMsOf false (rng w2 (drawn w2))).
  split; [exact Hg|]. split; [rewrite Hn2, Hn1; lia|].
  split; [|split; [|split]].
  - rewrite Ht.
    apply (find_fresh _ (mkTimer (nextHandle w2) Timeout _)). exact Hfront.
  - unfold timers_fresh. rewrite Ht, Hn. apply Forall_app. split.
    + eapply Forall_impl; [exact Hfront|]. simpl. intros; lia.
    + repeat constructor.
  - intros Hrng. apply (nextMsOf_bounds false). rewrite Hr2. apply Hrng.
  - unfold outcome at 1. rewrite Hfire. apply guaranteeCallback_outcome.
Qed.

Lemma guarantee_fire_reschedules_witness :
  let w := session (fun _ => 1 # 2) 0 in
  outcome (fire 2%nat) w = Thrown PlatformError /\
  exists h' nextMs,
    guaranteeTimer (exec (fire 2%nat) w) = Some h' /\
    List.find (fun x => (timerId x =? h')%nat) (timers (exec (fire 2%nat) w))
      = Some (mkTimer h' Timeout nextMs).
Proof.
  intros w. split; [vm_compute; reflexivity|].
  destruct (guarantee_fire_reschedules w 2%nat (mkTimer 2%nat Timeout 16000))
    as (h' & nextMs & Hg & _ & Hfind & _).
  - vm_compute. reflexivity.
  - reflexivity.
  - unfold timers_fresh. vm_compute. repeat constructor.
  - exists h', nextMs. split; [exact Hg | exact Hfind].
Defined.

(** The same fire on three worlds: the platform out of resources (the
    attempt throws), the context suspended (no attempt), and all well
    (the replay starts); each time a timeout of 31000 ms is pending
    afterwards under a new handle. *)
Example guarantee_fire_runs :
  let exhausted := session (fun _ => 1 # 2) 0 in
  let suspended_ctx :=
    with_audioContext (Some (mkAudioContext suspended SAMPLE_RATE))
      (session (fun _ => 1 # 2) 5) in
  let healthy :=
    with_audioContext (Some (mkAudioContext running (2048 # 1)))
      (session (fun _ => 1 # 2) 5) in
  outcome (fire 2%nat) exhausted = Thrown PlatformError /\
  timers (exec (fire 2%nat) exhausted) =
    [mkTimer 1%nat Interval 10000; mkTimer 3%nat Timeout 31000] /\
  outcome (fire 2%nat) suspended_ctx = Normal tt /\
  chains (exec (fire 2%nat) suspended_ctx) = [] /\
  timers (exec (fire 2%nat) suspended_ctx) =
    [mkTimer 1%nat Interval 10000; mkTimer 3%nat Timeout 31000] /\
  outcome (fire 2%nat) healthy = Normal tt /\
  length (chains (exec (fire 2%nat) healthy)) = 1%nat /\
  timers (exec (fire 2%nat) healthy) =
    [mkTimer 1%nat Interval 10000; mkTimer 3%nat Timeout 31000].
Proof. vm_compute. repeat split. Qed.

(** ** What the copy loop writes *)

Lemma take_min_length {A} (n : nat) (l : list A) :
  take (Nat.min n (length l)) l = take n l.
Proof.
  destruct (Nat.le_ge_cases n (length l)) as [H|H].
  - now rewrite Nat.min_l.
  - rewrite Nat.min_r by exact H. now rewrite !take_ge by lia.
Qed.

Lemma read_view_subarray (h : list (list sample)) (arr : loc) (n : nat) :
  read_view h (subarray h arr n) = take n (heap_get h arr).
Proof.
  unfold read_view, subarray; simpl.
  rewrite Nat.sub_0_r, drop_0. apply take_min_length.
Qed.

Lemma heap_get_insert_ne (h : list (list sample)) (l l' : loc) (xs : list sample) :
  l <> l' -> heap_get (<[l := xs]> h) l' = heap_get h l'.
Proof. intros H. unfold heap_get. now rewrite list_lookup_insert_ne. Qed.

Lemma heap_get_insert_eq (h : list (list sample)) (l : loc) (xs : list sample) :
  (l < length h)%nat -> heap_get (<[l := xs]> h) l = xs.
Proof. intros H. unfold heap_get. now rewrite list_lookup_insert_eq. Qed.

Lemma js_index_elem {A} (l : list A) (i : Z) (x : A) :
  js_index l i = Some x -> x ∈ l.
Proof.
  unfold js_index. destruct (i <? 0); [discriminate|].
  intros H. apply list_elem_of_lookup. eauto.
Qed.

(** Writing to an array that is no segment's storage changes no block. *)
Lemma blockAt_insert (queue : list Segment) (h : list (list sample))
    (out : loc) (xs : list sample) (s : Z) (i : nat) :
  (forall seg, seg ∈ queue -> samples seg <> out) ->
  blockAt queue (<[out := xs]> h) s i = blockAt queue h s i.
Proof.
  intros Hne. unfold blockAt.
  destruct (js_index queue _) as [seg|] eqn:E; [|reflexivity].
  unfold blockOf. rewrite heap_get_insert_ne; [reflexivity|].
  intros Heq. apply (Hne seg); [eapply js_index_elem; exact E | congruence].
Qed.

(** The copy loop, run on an output array of [segmentLength] elements that
    is the storage of no segment: it ends normally, and it has written,
    from [offset] on, the blocks of the iterations left, one after the
    other, cut where the array ends. *)
Lemma copyLoop_content remaining (s : Z) (segmentLength : Z) (out : loc) :
  forall offset w,
  (remaining <= length (ARCHIVE_QUEUE w))%nat ->
  0 <= offset <= segmentLength ->
  (out < length (heap w))%nat ->
  length (heap_get (heap w) out) = Z.to_nat segmentLength ->
  (forall seg, seg ∈ ARCHIVE_QUEUE w -> samples seg <> out) ->
  let n := length (ARCHIVE_QUEUE w) in
  let dst := heap_get (heap w) out in
  let rest := concat (map (blockAt (ARCHIVE_QUEUE w) (heap w) s)
                          (seq (n - remaining) remaining)) in
  let written := take (Z.to_nat (segmentLength - offset)) rest in
  copyLoop remaining (Some s) n segmentLength out offset w =
    (Normal (offset + Z.of_nat (length written)),
     with_heap (<[out := take (Z.to_nat offset) dst ++ written ++
                         drop (Z.to_nat offset + length written) dst]> (heap w)) w).
Proof.
  induction remaining as [|remaining IH];
    intros offset w Hrem Hoff Hout Hlen Hne n dst rest written.
  - simpl. unfold ret. unfold written, rest. simpl. rewrite take_nil. simpl.
    rewrite Nat.add_0_r, take_drop. unfold dst.
    rewrite insert_heap_get, with_heap_same. do 2 f_equal. lia.
  - simpl copyLoop.
    assert (Hseq : seq (n - S remaining) (S remaining) =
                   (n - S remaining)%nat :: seq (n - remaining) remaining).
    { simpl. f_equal. f_equal. unfold n. lia. }
    destruct (Z.ltb_spec offset segmentLength) as [Hlt|Hge].
    2:{ unfold ret. assert (offset = segmentLength) by lia. subst offset.
        unfold written. rewrite Z.sub_diag. simpl.
        rewrite Nat.add_0_r, take_drop. unfold dst.
        rewrite insert_heap_get, with_heap_same. do 2 f_equal. lia. }
    unfold bind at 1, gets at 1.
    fold n.
    set (m := Z.to_nat (segmentLength - offset)).
    set (p := blockAt (ARCHIVE_QUEUE w) (heap w) s (n - S remaining)).
    set (rest' := concat (map (blockAt (ARCHIVE_QUEUE w) (heap w) s)
                              (seq (n - remaining) remaining))).
    assert (Hrest : rest = p ++ rest').
    { unfold rest. rewrite Hseq. reflexivity. }
    assert (IHw : forall xs,
      length xs = Z.to_nat segmentLength ->
      forall offset1, 0 <= offset1 <= segmentLength ->
      copyLoop remaining (Some s) n segmentLength out offset1
               (with_heap (<[out := xs]> (heap w)) w) =
      (Normal (offset1 + Z.of_nat (length (take (Z.to_nat (segmentLength - offset1)) rest'))),
       with_heap (<[out := take (Z.to_nat offset1) xs ++
                     take (Z.to_nat (segmentLength - offset1)) rest' ++
                     drop (Z.to_nat offset1 +
                           length (take (Z.to_nat (segmentLength - offset1)) rest')) xs]>
                    (heap w)) w)).
    { intros xs Hxs offset1 Hoff1.
      specialize (IH offset1 (with_heap (<[out := xs]> (heap w)) w)).
      simpl in IH. rewrite length_insert in IH.
      rewrite heap_get_insert_eq in IH by exact Hout.
      rewrite list_insert_insert_eq in IH.
      fold n in IH.
      rewrite (map_ext_in _ (blockAt (ARCHIVE_QUEUE w) (heap w) s)) in IH
        by (intros; now apply blockAt_insert).
      apply IH; auto. unfold n in *. lia. }
    unfold blockAt in p. fold n in p.
    destruct (js_index (ARCHIVE_QUEUE w) _) as [segObj|] eqn:Eseg.
    + unfold bind at 1, gets at 1. unfold bind at 1, TypedArray_set.
      rewrite read_view_subarray.
      set (segdata := heap_get (heap w) (samples segObj)) in *.
      set (copyLength := Z.min BUFFER_SIZE
             (Z.min (segmentLength - offset) (Z.of_nat (length segdata)))).
      assert (Hsrc : take (Z.to_nat copyLength) segdata = take m p).
      { unfold p, blockOf. fold segdata. rewrite take_take.
        rewrite <- (take_min_length (Z.to_nat copyLength)).
        rewrite <- (take_min_length (Nat.min m (Z.to_nat BUFFER_SIZE))).
        f_equal. unfold copyLength, m, BUFFER_SIZE. lia. }
      rewrite Hsrc. fold dst.
      assert (Hsrclen : (Z.to_nat offset + length (take m p) <= length dst)%nat).
      { unfold dst. rewrite Hlen, length_take. unfold m. lia. }
      destruct (Nat.leb_spec (Z.to_nat offset + length (take m p)) (length dst));
        [|lia].
      assert (Hcl : Z.to_nat copyLength = length (take m p)).
      { rewrite <- Hsrc, length_take. unfold copyLength. lia. }
      assert (Hcl0 : 0 <= copyLength) by (unfold copyLength, BUFFER_SIZE; lia).
      unfold splice.
      set (dst1 := take (Z.to_nat offset) dst ++ take m p ++
                   drop (Z.to_nat offset + length (take m p)) dst).
      assert (Hdst1 : length dst1 = Z.to_nat segmentLength).
      { unfold dst1. rewrite !length_app, length_take, length_drop.
        unfold dst in *. lia. }
      rewrite (IHw dst1 Hdst1 (offset + copyLength))
        by (rewrite length_take in Hsrclen; unfold dst, m in *; lia).
      set (o := Z.to_nat offset) in *.
      set (k := length (take m p)) in *.
      assert (Ho1 : Z.to_nat (offset + copyLength) = (o + k)%nat) by (unfold o; lia).
      assert (Hm1 : Z.to_nat (segmentLength - (offset + copyLength)) = (m - k)%nat)
        by (unfold m; lia).
      rewrite Ho1, Hm1.
      assert (Hw : written = take m p ++ take (m - k) rest').
      { unfold written. fold m. rewrite Hrest, take_app. f_equal. f_equal.
        unfold k. rewrite length_take. lia. }
      set (w2 := take (m - k) rest') in *.
      assert (Hwlen : length written = (k + length w2)%nat)
        by (rewrite Hw, length_app; reflexivity).
      assert (Hotake : length (take o dst) = o)
        by (rewrite length_take; unfold o, dst in *; lia).
      assert (Htake1 : take (o + k) dst1 = take o dst ++ take m p).
      { unfold dst1. rewrite app_assoc. apply take_app_length'.
        rewrite length_app, Hotake. reflexivity. }
      assert (Hdrop1 : drop (o + k + length w2) dst1 = drop (o + k + length w2) dst).
      { unfold dst1. rewrite app_assoc.
        rewrite drop_app_add' by (rewrite length_app, Hotake; reflexivity).
        rewrite drop_drop. reflexivity. }
      rewrite Htake1, Hdrop1, Hwlen, Hw. f_equal.
      * f_equal. lia.
      * f_equal. f_equal. rewrite <- !app_assoc, Nat.add_assoc. reflexivity.
    + assert (Hp : p = []) by reflexivity.
      specialize (IHw dst ltac:(unfold dst; exact Hlen) offset Hoff).
      unfold dst in IHw at 1. rewrite insert_heap_get, with_heap_same in IHw.
      rewrite IHw. fold m. unfold written. fold m. rewrite Hrest, Hp. reflexivity.
Qed.

(** Reading the archive circularly from [s] is reading its rotation. *)
Lemma blockAt_rotate (queue : list Segment) (h : list (list sample)) (s : Z) :
  0 <= s ->
  map (blockAt queue h s) (seq 0 (length queue)) =
  map (blockOf h) (rotate (Z.to_nat s) queue).
Proof.
  intros Hs. apply list_eq. intros i.
  rewrite !list_lookup_fmap.
  destruct (decide (i < length queue)%nat) as [Hi|Hi].
  - rewrite lookup_seq_lt by exact Hi. simpl.
    rewrite lookup_rotate_r by exact Hi.
    unfold blockAt, js_index, rotate_nat_add.
    rewrite Z.rem_mod_nonneg by lia.
    assert (Hmod := Z.mod_pos_bound (s + Z.of_nat i) (Z.of_nat (length queue))
                      ltac:(lia)).
    destruct (Z.ltb_spec ((s + Z.of_nat i) `mod` Z.of_nat (length queue)) 0); [lia|].
    rewrite Z2Nat.id by lia.
    destruct (queue !! _) as [seg|] eqn:E; [reflexivity|].
    apply lookup_ge_None in E. lia.
  - rewrite lookup_seq_ge by lia.
    rewrite lookup_ge_None_2 by (rewrite length_rotate; lia). reflexivity.
Qed.

Lemma blockAt_app (queue : list Segment) (h extra : list (list sample))
    (s : Z) (i : nat) :
  Forall (fun seg => (samples seg < length h)%nat) queue ->
  blockAt queue (h ++ extra) s i = blockAt queue h s i.
Proof.
  intros Halloc. unfold blockAt.
  destruct (js_index queue _) as [seg|] eqn:E; [|reflexivity].
  apply js_index_elem in E. rewrite Forall_forall in Halloc.
  specialize (Halloc seg E). unfold blockOf, heap_get.
  now rewrite lookup_app_l.
Qed.

(** The copy loop on a fresh, silent output buffer: the buffer ends up with
    the first [segmentLength] samples of the archive read circularly from
    [s], each segment giving its first [BUFFER_SIZE] samples, and silence
    after them; the returned offset is the number of samples copied. *)
Lemma copyLoop_fresh (w : World) (h : list (list sample)) (s segmentLength : Z) :
  heap w = h ++ [replicate (Z.to_nat segmentLength) 0%Q] ->
  0 <= segmentLength -> 0 <= s ->
  Forall (fun seg => (samples seg < length h)%nat) (ARCHIVE_QUEUE w) ->
  let queue := ARCHIVE_QUEUE w in
  let blocks := concat (map (blockOf h) (rotate (Z.to_nat s) queue)) in
  let copied := take (Z.to_nat segmentLength) blocks in
  copyLoop (length queue) (Some s) (length queue) segmentLength (length h) 0 w =
    (Normal (Z.of_nat (length copied)),
     with_heap (h ++ [copied ++
                      replicate (Z.to_nat segmentLength - length copied) 0%Q]) w).
Proof.
  intros Hheap HL Hs Halloc queue blocks copied.
  assert (Hget : heap_get (heap w) (length h) = replicate (Z.to_nat segmentLength) 0%Q).
  { unfold heap_get. rewrite Hheap. now rewrite list_lookup_middle. }
  assert (Hne : forall seg, seg ∈ ARCHIVE_QUEUE w -> samples seg <> length h).
  { intros seg Hin. rewrite Forall_forall in Halloc.
    specialize (Halloc seg Hin). lia. }
  subst copied blocks queue.
  rewrite (copyLoop_content (length (ARCHIVE_QUEUE w)) s segmentLength (length h) 0 w);
    try lia; try exact Hne.
  2:{ rewrite Hheap, length_app. simpl. lia. }
  2:{ rewrite Hget. apply length_replicate. }
  rewrite Hget, Nat.sub_diag, Z.sub_0_r. simpl.
  rewrite (map_ext_in _ (blockAt (ARCHIVE_QUEUE w) h s))
    by (intros; rewrite Hheap; now apply blockAt_app).
  rewrite blockAt_rotate by exact Hs.
  rewrite drop_replicate, Hheap, insert_last. reflexivity.
Qed.

(** ** Which segment a replay starts from *)

Lemma candidateIndices_bound (now : Z) (q : list Segment) (i : nat) :
  i ∈ candidateIndices now q -> (i < length q)%nat.
Proof.
  intros H. apply candidateIndices_In, is_candidate_spec in H as (seg & Hseg & _).
  now apply lookup_lt_Some in Hseg.
Qed.

(** The start index is defined and within the archive; when there are
    candidates it is one of them. *)
Lemma candidateIndices_length (now : Z) (q : list Segment) :
  (length (candidateIndices now q) <= length q)%nat.
Proof.
  unfold candidateIndices.
  etransitivity; [apply List.filter_length_le|]. now rewrite length_seq.
Qed.

Lemma pick_startIndex_spec (now : Z) (q : list Segment) (r : Q) :
  unit_draw r -> binary64 r -> q <> [] -> Z.of_nat (length q) < 2 ^ 53 ->
  exists i : nat,
    pick_startIndex (candidateIndices now q) (length q) r = Some (Z.of_nat i) /\
    (i < length q)%nat /\
    (candidateIndices now q <> [] -> i ∈ candidateIndices now q).
Proof.
  intros Hr Hb Hq Hlen. unfold pick_startIndex.
  assert (Hcl := candidateIndices_length now q).
  destruct (candidateIndices now q) as [|c cs] eqn:E.
  - assert (Hn : 0 < Z.of_nat (length q) < 2 ^ 53)
      by (destruct q; [contradiction|simpl in *; lia]).
    destruct (floor_fl_draw_range r _ Hr Hb Hn) as [Hlo Hhi].
    exists (Z.to_nat (Math_floor (fl (r * inject_Z (Z.of_nat (length q)))))).
    rewrite Z2Nat.id by exact Hlo. split; [reflexivity|]. split; [lia|].
    intros H; contradiction.
  - set (cands := c :: cs) in *.
    assert (Hn : 0 < Z.of_nat (length cands) < 2 ^ 53) by (simpl in *; lia).
    destruct (floor_fl_draw_range r _ Hr Hb Hn) as [Hlo Hhi].
    set (k := Math_floor (fl (r * inject_Z (Z.of_nat (length cands))))) in *.
    unfold js_index. destruct (Z.ltb_spec k 0); [lia|].
    destruct (cands !! Z.to_nat k) as [i|] eqn:Ei.
    2:{ apply lookup_ge_None in Ei. lia. }
    exists i. simpl. split; [reflexivity|].
    assert (Hin : i ∈ cands) by (apply list_elem_of_lookup; eauto).
    split; [|intros _; exact Hin].
    apply (candidateIndices_bound now). rewrite E. exact Hin.
Qed.

(** ** A replay that goes through *)

(** The run of [playSelected] on a non-empty archive within its capacity,
    with proper draws, a usable sample rate and a platform with resources
    for one buffer and four nodes: the state it leaves, field by field. *)
Lemma playSelected_run (w : World) (ctx : AudioContext) :
  ARCHIVE_QUEUE w <> [] ->
  (length (ARCHIVE_QUEUE w) <= MAX_ARCHIVE_SEGMENTS)%nat ->
  archive_allocated w ->
  unit_draw (rng w (drawn w)) ->
  binary64 (rng w (drawn w)) ->
  unit_draw (rng w (S (drawn w))) ->
  (1024 <= sampleRate ctx)%Q ->
  (5 <= platformBudget w)%nat ->
  let queue := ARCHIVE_QUEUE w in
  let candidates := candidateIndices (clock w) queue in
  let durationSec := durationSecOf (rng w (S (drawn w))) in
  let segmentLength := segmentLengthOf durationSec (sampleRate ctx) in
  let side := rng w (S (S (drawn w))) in
  let magnitude := rng w (S (S (S (drawn w)))) in
  let pan := if Qgtb side (1 # 2)
             then fl (fl (magnitude * fl (6 # 10)) + fl (2 # 10))
             else (- fl (fl (magnitude * fl (6 # 10)) + fl (2 # 10)))%Q in
  let cutoff := fl (3000 + fl (rng w (S (S (S (S (drawn w))))) * 1000)) in
  exists (i : nat) g c,
    pick_startIndex candidates (length queue) (rng w (drawn w)) = Some (Z.of_nat i) /\
    (i < length queue)%nat /\
    (candidates <> [] -> i ∈ candidates) /\
    let copied := take (Z.to_nat segmentLength)
                       (concat (map (blockOf (heap w)) (rotate i queue))) in
    let note :=
      match candidates with
      | [] => LogNoCandidates (Some (Z.of_nat i)) (length queue)
      | _ => LogSelected (Some (Z.of_nat i)) (length candidates) (length queue)
      end in
    playSelected ctx w =
      (Normal tt,
       with_log (log w ++ [note;
                           LogDuration durationSec segmentLength;
                           LogBufferBuilt segmentLength (Z.of_nat (length copied));
                           LogReplayBegin])
         (with_chains (chains w ++
             [mkPlayback (length (heap w)) (sampleRate ctx) cutoff pan
                         (fl (9 # 10)) false])
           (with_platformBudget (platformBudget w - 5)
             (with_drawn (5 + drawn w)
               (with_heap (heap w ++
                   [copied ++ replicate (Z.to_nat segmentLength - length copied) 0%Q])
                 (with_monitoring g c w)))))).
Proof.
  intros Hne Hcap Halloc Hr0 Hb0 Hr1 Hrate Hbudget
    queue candidates durationSec segmentLength side magnitude pan0 cutoff0.
  assert (Hlen53 : Z.of_nat (length queue) < 2 ^ 53)
    by (unfold queue, MAX_ARCHIVE_SEGMENTS in *; lia).
  destruct (pick_startIndex_spec (clock w) queue _ Hr0 Hb0 Hne Hlen53)
    as (i & Hpick & Hi & Hcand).
  fold candidates in Hpick, Hcand.
  assert (HL : BUFFER_SIZE <= segmentLength).
  { apply segmentLength_pos; [|exact Hrate]. now apply durationSecOf_range. }
  unfold BUFFER_SIZE in HL.
  destruct (ensureMonitoring_spec w) as (g & c & Hmon).
  exists i, g, c. split; [exact Hpick|]. split; [exact Hi|]. split; [exact Hcand|].
  intros copied note.
  unfold playSelected. unfold bind at 1. rewrite Hmon.
  destruct (platformBudget w) as [|[|[|[|[|b]]]]] eqn:Hb; try lia.
  unfold createBuffer, platform_create, bind, gets, modify, throw, updateLog,
    ret, Date_now, Math_random.
  simpl. fold queue. fold candidates. rewrite Hpick.
  assert (Hnote :
    forall w0 : World,
      match candidates with
      | [] => fun w1 : World =>
          (Normal tt, with_log (log w1 ++
             [LogNoCandidates (Some (Z.of_nat i)) (length queue)]) w1)
      | _ :: _ => fun w1 : World =>
          (Normal tt, with_log (log w1 ++
             [LogSelected (Some (Z.of_nat i)) (length candidates) (length queue)]) w1)
      end w0 = (Normal tt, with_log (log w0 ++ [note]) w0)).
  { intros w0. unfold note. destruct candidates; reflexivity. }
  rewrite Hnote. clear Hnote. simpl.
  fold durationSec. fold segmentLength.
  destruct (Z.leb_spec segmentLength 0) as [|_]; [lia|].
  simpl. rewrite Hb. simpl.
  match goal with
  | |- context [copyLoop _ _ _ _ _ _ ?w0] =>
      pose proof (copyLoop_fresh w0 (heap w) (Z.of_nat i) segmentLength
                    eq_refl ltac:(lia) ltac:(lia) Halloc) as Hcopy
  end.
  simpl in Hcopy. rewrite Nat2Z.id in Hcopy. fold queue in Hcopy. fold copied in Hcopy.
  rewrite Hcopy. clear Hcopy. simpl.
  unfold modify. f_equal. apply world_ext; simpl;
    rewrite <- ?app_assoc, ?Nat.sub_0_r; reflexivity.
Qed.

Lemma audio_ready_true (w : World) (ctx : AudioContext) :
  audioContext w = Some ctx -> state ctx = running -> ARCHIVE_QUEUE w <> [] ->
  audio_ready w = true.
Proof.
  intros Hctx Hrun Hne. unfold audio_ready. rewrite Hctx, Hrun. simpl.
  destruct (ARCHIVE_QUEUE w); [contradiction | reflexivity].
Qed.

Lemma rotate_lookup_head {A} (l : list A) (i : nat) (x : A) :
  l !! i = Some x -> exists rest, rotate i l = x :: rest.
Proof.
  intros H. assert (Hi := lookup_lt_Some _ _ _ H).
  unfold rotate. rewrite Nat.mod_small by exact Hi.
  rewrite (drop_S _ _ _ H). eexists. reflexivity.
Qed.

(** ** Selection when every segment is recent *)

Lemma candidateIndices_all_recent (now : Z) (q : list Segment) :
  (forall seg, seg ∈ q -> t seg = 0 \/ now - t seg <= EXCLUDE_RECENT_MS) ->
  candidateIndices now q = [].
Proof.
  intros Hrecent.
  destruct (candidateIndices now q) as [|i l] eqn:E; [reflexivity|].
  assert (Hi : i ∈ candidateIndices now q) by (rewrite E; left).
  apply candidateIndices_In, is_candidate_spec in Hi as (seg & Hseg & Hnz & Hold).
  destruct (Hrecent seg) as [H|H]; [apply list_elem_of_lookup; eauto | lia | lia].
Qed.

(** Every index is the floor of the rounded product for some binary64
    draw: the draw nearest to the middle of its range. *)
Lemma every_index_has_a_draw (n k : Z) :
  0 <= k < n -> n <= 2 ^ 50 ->
  exists r, unit_draw r /\ binary64 r /\ Math_floor (fl (r * inject_Z n)) = k.
Proof.
  intros [Hk0 Hkn] Hn.
  set (t := (inject_Z (2 * k + 1) / inject_Z (2 * n))%Q).
  assert (Hn0 : (0 < inject_Z n)%Q)
    by (change 0%Q with (inject_Z 0); rewrite <- Zlt_Qlt; lia).
  assert (H2n : (0 < inject_Z (2 * n))%Q)
    by (change 0%Q with (inject_Z 0); rewrite <- Zlt_Qlt; lia).
  assert (Hk : (0 <= inject_Z k)%Q)
    by (change 0%Q with (inject_Z 0); rewrite <- Zle_Qle; lia).
  assert (Hk50 : (inject_Z k <= inject_Z (2 ^ 50))%Q) by (rewrite <- Zle_Qle; lia).
  assert (Hn50 : (inject_Z n <= inject_Z (2 ^ 50))%Q) by (rewrite <- Zle_Qle; lia).
  assert (Hkn' : (inject_Z k + 1 <= inject_Z n)%Q).
  { change 1%Q with (inject_Z 1). rewrite <- inject_Z_plus, <- Zle_Qle. lia. }
  change (inject_Z (2 ^ 50)) with 1125899906842624%Q in Hk50, Hn50.
  assert (Htn : (t * inject_Z n == inject_Z k + (1 # 2))%Q).
  { unfold t. rewrite !inject_Z_plus, !inject_Z_mult.
    change (inject_Z 2) with 2%Q. change (inject_Z 1) with 1%Q.
    field. intros E. rewrite E in Hn0. discriminate. }
  assert (Ht0 : (0 < t)%Q).
  { unfold t. apply Qlt_shift_div_l; [exact H2n|]. rewrite Qmult_0_l.
    change 0%Q with (inject_Z 0). rewrite <- Zlt_Qlt. lia. }
  assert (Hc : (2 ^ (-53) == 1 # 9007199254740992)%Q) by reflexivity.
  (* the middle of the range is far from both ends *)
  assert (Htlo : (2 ^ (-1022) <= t)%Q).
  { apply Qle_trans with (1 # 2251799813685248)%Q; [discriminate|].
    unfold t. apply Qle_shift_div_l; [exact H2n|].
    rewrite !inject_Z_plus, !inject_Z_mult.
    change (inject_Z 2) with 2%Q. change (inject_Z 1) with 1%Q. lra. }
  assert (Hthi : (t <= 1 - 2 ^ (-53))%Q).
  { rewrite Hc. unfold t. apply Qle_shift_div_r; [exact H2n|].
    rewrite !inject_Z_plus, !inject_Z_mult.
    change (inject_Z 2) with 2%Q. change (inject_Z 1) with 1%Q. lra. }
  assert (Herr := fl_error t Htlo). rewrite Hc in Herr.
  apply Qabs_Qle_condition in Herr as [He1 He2].
  exists (fl t).
  assert (Hr0 : (0 <= fl t)%Q) by (apply fl_nonneg; lra).
  assert (Hg : binary64 (1 - 2 ^ (-53))).
  { apply (fl_exact _ (2 ^ 53 - 1) (-53)); [reflexivity | lia | reflexivity | reflexivity]. }
  assert (Hr1 : (fl t < 1)%Q).
  { apply Qle_lt_trans with (1 - 2 ^ (-53))%Q; [|reflexivity].
    apply fl_upper; [exact Hg | lra | exact Hthi]. }
  split; [split; assumption|]. split; [apply fl_idem; lra|].
  set (r := fl t) in *.
  assert (Hd1 : ((r - t) * inject_Z n <=
                 t * (1 # 9007199254740992) * inject_Z n)%Q)
    by (apply Qmult_le_compat_r; lra).
  assert (Hd2 : ((t - r) * inject_Z n <=
                 t * (1 # 9007199254740992) * inject_Z n)%Q)
    by (apply Qmult_le_compat_r; lra).
  apply floor_fl_preimage; [lia | lia | lra |].
  rewrite Hc, inject_Z_plus. change (inject_Z 1) with 1%Q.
  assert (Hkc : (inject_Z k * (1 # 9007199254740992) <= 1 # 8)%Q) by lra.
  lra.
Qed.

(** C6. When every segment of a non-empty archive lies within the
    exclusion window, the candidate set is empty and the replay goes on
    all the same. The start index is [floor (random * size)], a position
    of the archive: it is [k] for every draw from [k / size] up to
    [(k + 1) / size], less [2 ^ -53] of it for the rounding of the
    product, and every position is drawn by some binary64 draw. The
    fall-back is reported by a notification and the call returns
    normally. The fragment handed to playback has the computed length
    and holds the samples of the archive, read circularly from the
    segment at the start index (each segment giving its first
    [BUFFER_SIZE] samples), and silence after them; it begins with the
    samples of that segment. This is on a running context with a sample
    rate of at least 1024 Hz, an archive within its capacity whose
    segments own their storage, a binary64 draw and a platform that can
    still build one buffer and four nodes. *)
Theorem degraded_selection_still_plays (w : World) (ctx : AudioContext) :
  audioContext w = Some ctx ->
  state ctx = running ->
  ARCHIVE_QUEUE w <> [] ->
  (length (ARCHIVE_QUEUE w) <= MAX_ARCHIVE_SEGMENTS)%nat ->
  archive_allocated w ->
  (forall seg, seg ∈ ARCHIVE_QUEUE w ->
     t seg = 0 \/ clock w - t seg <= EXCLUDE_RECENT_MS) ->
  rng_ok w ->
  binary64 (rng w (drawn w)) ->
  (1024 <= sampleRate ctx)%Q ->
  (5 <= platformBudget w)%nat ->
  let queue := ARCHIVE_QUEUE w in
  let segmentCount := length queue in
  let r := rng w (drawn w) in
  let startIndex := Math_floor (fl (r * inject_Z (Z.of_nat segmentCount))) in
  let durationSec := durationSecOf (rng w (S (drawn w))) in
  let segmentLength := segmentLengthOf durationSec (sampleRate ctx) in
  let copied :=
    take (Z.to_nat segmentLength)
         (concat (map (blockOf (heap w)) (rotate (Z.to_nat startIndex) queue))) in
  let data := copied ++ replicate (Z.to_nat segmentLength - length copied) 0%Q in
  let w' := exec playRandomSoraMimi w in
  candidateIndices (clock w) queue = [] /\
  outcome playRandomSoraMimi w = Normal tt /\
  pick_startIndex [] segmentCount r = Some startIndex /\
  0 <= startIndex < Z.of_nat segmentCount /\
  (forall k, 0 <= k ->
     (inject_Z k <= r * inject_Z (Z.of_nat segmentCount))%Q ->
     (r * inject_Z (Z.of_nat segmentCount)
        <= inject_Z (k + 1) * (1 - 2 ^ (-53)))%Q ->
     startIndex = k) /\
  (forall k, 0 <= k < Z.of_nat segmentCount ->
     exists r', unit_draw r' /\ binary64 r' /\
                pick_startIndex [] segmentCount r' = Some k) /\
  BUFFER_SIZE <= segmentLength /\
  ARCHIVE_QUEUE w' = queue /\
  heap w' = heap w ++ [data] /\
  length data = Z.to_nat segmentLength /\
  (exists seg, queue !! Z.to_nat startIndex = Some seg /\
     take (length (blockOf (heap w) seg)) data = blockOf (heap w) seg) /\
  (exists c, chains w' = chains w ++ [c] /\
             buffer c = length (heap w) /\ ended c = false) /\
  log w' = log w ++ [LogNoCandidates (Some startIndex) segmentCount;
                     LogDuration durationSec segmentLength;
                     LogBufferBuilt segmentLength (Z.of_nat (length copied));
                     LogReplayBegin].
Proof.
  intros Hctx Hrun Hne Hcap Halloc Hrecent Hrng Hb Hrate Hbudget
    queue segmentCount r startIndex durationSec segmentLength copied data w'.
  assert (Hcand := candidateIndices_all_recent _ _ Hrecent).
  assert (Hready := audio_ready_true w ctx Hctx Hrun Hne).
  assert (Hcount : 0 < Z.of_nat segmentCount < 2 ^ 53).
  { unfold segmentCount, queue, MAX_ARCHIVE_SEGMENTS in *.
    destruct (ARCHIVE_QUEUE w); [contradiction | simpl in *; lia]. }
  assert (Hstart : 0 <= startIndex < Z.of_nat segmentCount)
    by (apply floor_fl_draw_range; [apply Hrng | exact Hb | exact Hcount]).
  assert (HL : BUFFER_SIZE <= segmentLength).
  { apply segmentLength_pos; [|exact Hrate]. apply durationSecOf_range, Hrng. }
  destruct (playSelected_run w ctx Hne Hcap Halloc (Hrng _) Hb (Hrng _) Hrate Hbudget)
    as (i & g & c & Hpick & Hi & _ & Hplay).
  simpl in Hplay. rewrite Hcand in Hpick, Hplay.
  assert (Hi' : i = Z.to_nat startIndex).
  { unfold pick_startIndex in Hpick. injection Hpick as Hpick.
    apply Nat2Z.inj. rewrite Z2Nat.id by lia. symmetry. exact Hpick. }
  assert (HiZ : Z.of_nat i = startIndex) by lia.
  rewrite HiZ, Hi' in Hplay.
  fold queue segmentCount durationSec segmentLength in Hplay.
  fold copied in Hplay. fold data in Hplay.
  assert (Hcl : (length copied <= Z.to_nat segmentLength)%nat)
    by (unfold copied; rewrite length_take; lia).
  destruct (queue !! Z.to_nat startIndex) as [seg|] eqn:Hseg.
  2:{ apply lookup_ge_None in Hseg. fold segmentCount in Hseg. lia. }
  destruct (rotate_lookup_head _ _ _ Hseg) as (rest & Hrot).
  unfold w', exec, outcome.
  rewrite (playRandomSoraMimi_play w ctx Hctx Hready), Hplay. simpl.
  split; [exact Hcand|]. split; [reflexivity|].
  split; [reflexivity|]. split; [exact Hstart|].
  split.
  { intros k Hk0 Hlo Hhi. apply floor_fl_preimage; [exact Hk0 | | exact Hlo | exact Hhi].
    destruct (Z.lt_ge_cases k (Z.of_nat segmentCount)) as [Hlt|Hge]; [lia|].
    exfalso.
    assert (Hx : (r * inject_Z (Z.of_nat segmentCount) < inject_Z (Z.of_nat segmentCount))%Q).
    { rewrite <- (Qmult_1_l (inject_Z (Z.of_nat segmentCount))) at 2.
      apply Qmult_lt_compat_r; [|apply Hrng].
      change 0%Q with (inject_Z 0). rewrite <- Zlt_Qlt. lia. }
    assert (Hkq : (inject_Z (Z.of_nat segmentCount) <= inject_Z k)%Q)
      by (rewrite <- Zle_Qle; lia).
    lra. }
  split.
  { intros k Hk.
    destruct (every_index_has_a_draw (Z.of_nat segmentCount) k Hk) as (r' & Hu & Hb' & Hf).
    - unfold segmentCount, queue, MAX_ARCHIVE_SEGMENTS in *. lia.
    - exists r'. unfold pick_startIndex. rewrite Hf. auto. }
  split; [exact HL|]. split; [reflexivity|]. split; [reflexivity|].
  split.
  { unfold data. rewrite length_app, length_replicate. lia. }
  split.
  { exists seg. split; [reflexivity|].
    unfold data, copied. rewrite Hrot. cbn [map concat].
    assert (Hbl : (length (blockOf (heap w) seg) <= Z.to_nat segmentLength)%nat).
    { unfold blockOf. rewrite length_take. unfold BUFFER_SIZE in *. lia. }
    set (B := blockOf (heap w) seg) in *.
    set (R := concat (map (blockOf (heap w)) rest)).
    assert (E : take (Z.to_nat segmentLength) (B ++ R) =
                B ++ take (Z.to_nat segmentLength - length B) R)
      by (rewrite take_app, (take_ge B) by exact Hbl; reflexivity).
    rewrite E, <- app_assoc. apply take_app_length. }
  split; [eexists; repeat split; reflexivity|].
  reflexivity.
Qed.

Lemma degraded_selection_still_plays_witness :
  let w := session (fun _ => 1 # 2) 5 in
  let w' := exec playRandomSoraMimi w in
  candidateIndices (clock w) (ARCHIVE_QUEUE w) = [] /\
  outcome playRandomSoraMimi w = Normal tt /\
  exists seg data,
    ARCHIVE_QUEUE w !! 1%nat = Some seg /\
    heap w' = heap w ++ [data] /\
    take (length (blockOf (heap w) seg)) data = blockOf (heap w) seg.
Proof.
  intros w w'.
  destruct (degraded_selection_still_plays w (mkAudioContext running SAMPLE_RATE))
    as (Hcand & Hout & _ & _ & _ & _ & _ & _ & Hheap & _ & (seg & Hseg & Hdata) & _).
  - reflexivity.
  - reflexivity.
  - vm_compute. discriminate.
  - vm_compute. lia.
  - unfold archive_allocated. vm_compute. repeat constructor.
  - intros seg Hseg. right. vm_compute in Hseg.
    repeat (apply elem_of_cons in Hseg as [->|Hseg];
            [vm_compute; discriminate|]).
    inversion Hseg.
  - intros n. vm_compute. split; [discriminate | reflexivity].
  - unfold binary64. vm_compute. reflexivity.
  - vm_compute. discriminate.
  - vm_compute. lia.
  - split; [exact Hcand|]. split; [exact Hout|].
    eexists seg, _. split; [exact Hseg|]. split; [exact Hheap | exact Hdata].
Defined.

(** The draw 0.6666666666666666 on an archive of three: the product is
    rounded to 2, so the start index is 2, where the floor of the exact
    product is 1. *)
Example start_index_rounded_product :
  let r := (6004799503160661 # 9007199254740992)%Q in
  unit_draw r /\ binary64 r /\
  pick_startIndex [] 3 r = Some 2 /\
  Math_floor (r * 3) = 1.
Proof. vm_compute. repeat split; discriminate. Qed.

(** A run on a context of 2048 Hz: three segments of two samples, all
    recent; a draw of 1/2 picks index 1 and 3.5 s, that is 8192 samples,
    of which the six archived ones are copied in circular order from
    segment 1 and the rest stays silent; the archive is as before. *)
Example degraded_selection_run :
  let w := with_audioContext (Some (mkAudioContext running (2048 # 1)))
             (session (fun _ => 1 # 2) 5) in
  let w' := exec playRandomSoraMimi w in
  outcome playRandomSoraMimi w = Normal tt /\
  ARCHIVE_QUEUE w' = ARCHIVE_QUEUE w /\
  ARCHIVE_QUEUE w' =
    [mkSegment 0%nat 100; mkSegment 1%nat 200; mkSegment 2%nat 300] /\
  take 3 (heap w') = heap w /\
  (take 7 <$> heap w' !! 3%nat) =
    Some [1 # 8; 1 # 16; 1 # 32; 1 # 64; 1 # 2; 1 # 4; 0]%Q /\
  ((fun data => Z.of_nat (length data)) <$> heap w' !! 3%nat) = Some 8192 /\
  (buffer <$> chains w') = [3%nat] /\
  log w' = log w ++ [LogNoCandidates (Some 1) 3; LogDuration (7 # 2) 8192;
                     LogBufferBuilt 8192 6; LogReplayBegin].
Proof. vm_compute. repeat split. Qed.

(** ** Reachable states *)

Lemma invariant_initial random budget : invariant (initial random budget).
Proof.
  unfold invariant, archive_allocated, timers_fresh, MAX_ARCHIVE_SEGMENTS; simpl.
  repeat split; auto with arith.
Qed.

(** A change that keeps the archive and the timers and lets the store
    grow keeps the invariant. *)
Lemma invariant_frame (w w' : World) :
  ARCHIVE_QUEUE w' = ARCHIVE_QUEUE w ->
  (exists extra, heap w' = heap w ++ extra) ->
  timers w' = timers w ->
  nextHandle w' = nextHandle w ->
  invariant w -> invariant w'.
Proof.
  intros Hq (extra & Hh) Ht Hn (Hlen & Halloc & Hfresh).
  unfold invariant, archive_allocated, timers_fresh in *.
  rewrite Hq, Hh, Ht, Hn. repeat split; auto.
  eapply Forall_impl; [exact Halloc|]. simpl. intros seg Hseg.
  rewrite length_app. lia.
Qed.

(** Cancelling timers and setting one under the next handle keeps the
    invariant. *)
Lemma invariant_timers (w w' : World) (kept : list Timer) (added : list Timer) :
  ARCHIVE_QUEUE w' = ARCHIVE_QUEUE w ->
  heap w' = heap w ->
  timers w' = kept ++ added ->
  kept ⊆ timers w ->
  Forall (fun tm => (timerId tm < nextHandle w')%nat) added ->
  (nextHandle w <= nextHandle w')%nat ->
  invariant w -> invariant w'.
Proof.
  intros Hq Hh Ht Hkept Hadded Hn (Hlen & Halloc & Hfresh).
  unfold invariant, archive_allocated, timers_fresh in *.
  rewrite Hq, Hh, Ht. repeat split; auto.
  apply Forall_app. split; [|exact Hadded].
  apply Forall_forall. intros tm Htm. apply Hkept in Htm.
  rewrite Forall_forall in Hfresh. specialize (Hfresh tm Htm). lia.
Qed.

Lemma filter_subseteq_timers (h : handle) (ts : list Timer) :
  filter (fun tm => timerId tm <> h) ts ⊆ ts.
Proof. intros tm Htm. now apply list_elem_of_filter in Htm as [_ ?]. Qed.

Lemma archiveAudio_timers event w :
  timers (exec (archiveAudio event) w) = timers w /\
  nextHandle (exec (archiveAudio event) w) = nextHandle w.
Proof.
  unfold exec, archiveAudio, bind, when, try_catch, updateLog, modify,
    gets, ret, new_Float32Array, Date_now; simpl.
  repeat (match goal with |- context [if ?b then _ else _] => destruct b end;
          simpl); split; reflexivity.
Qed.

Lemma invariant_archiveAudio event w :
  invariant w -> invariant (exec (archiveAudio event) w).
Proof.
  intros (Hlen & Halloc & Hfresh).
  destruct (archiveAudio_timers event w) as [Ht Hn].
  assert (Hq := archiveAudio_queue event w).
  assert (Hh := archiveAudio_heap event w).
  unfold invariant, archive_allocated, timers_fresh in *.
  rewrite Ht, Hn, Hh, Hq. simpl. split; [|split; [|exact Hfresh]].
  - rewrite length_app. simpl.
    destruct (Nat.ltb_spec MAX_ARCHIVE_SEGMENTS (length (ARCHIVE_QUEUE w) + 1)).
    + destruct (ARCHIVE_QUEUE w); simpl in *; [lia|].
      rewrite length_app; simpl. lia.
    + rewrite length_app; simpl. lia.
  - assert (Hall : Forall (fun seg => (samples seg < length (heap w ++ [inputBuffer event]))%nat)
                     (ARCHIVE_QUEUE w ++ [mkSegment (length (heap w)) (clock w)])).
    { apply Forall_app. split.
      - eapply Forall_impl; [exact Halloc|]. simpl. intros seg Hseg.
        rewrite length_app. lia.
      - repeat constructor. simpl. rewrite length_app. simpl. lia. }
    destruct (_ <? _)%nat; [|exact Hall].
    destruct (ARCHIVE_QUEUE w ++ _); [constructor|].
    simpl. now inversion Hall.
Qed.

Lemma invariant_replay w :
  invariant w -> invariant (exec playRandomSoraMimi w).
Proof.
  destruct (playRandomSoraMimi_frame w)
    as (Hq & Hh & _ & _ & Ht & Hn & _).
  now apply invariant_frame.
Qed.

Lemma invariant_schedule isFirst w :
  invariant w -> invariant (exec (scheduleNextGuaranteedTrigger isFirst) w).
Proof.
  destruct (scheduleNextGuaranteedTrigger_spec isFirst w)
    as (_ & _ & Ht & Hq & Hh & _ & _ & Hn & _).
  eapply invariant_timers; eauto.
  - destruct (guaranteeTimer w); [apply filter_subseteq_timers | done].
  - rewrite Hn. repeat constructor.
  - rewrite Hn. lia.
Qed.

Lemma invariant_startRandomTrigger w :
  invariant w -> invariant (exec startRandomTrigger w).
Proof.
  eapply (invariant_timers w _
            match randomTriggerInterval w with
            | Some h => filter (fun tm => timerId tm <> h) (timers w)
            | None => timers w
            end
            [mkTimer (nextHandle w) Interval (TRIGGER_CHECK_INTERVAL w)]);
    unfold exec, startRandomTrigger, bind, gets, modify, clear_timer,
      set_timer, updateLog, ret;
    destruct (randomTriggerInterval w); simpl; try reflexivity;
    try apply filter_subseteq_timers; try done;
    try (repeat constructor); lia.
Qed.

Lemma invariant_cancel (w w' : World) :
  ARCHIVE_QUEUE w' = ARCHIVE_QUEUE w ->
  heap w' = heap w ->
  timers w' ⊆ timers w ->
  nextHandle w' = nextHandle w ->
  invariant w -> invariant w'.
Proof.
  intros Hq Hh Ht Hn. apply (invariant_timers w w' (timers w') []); auto.
  - now rewrite app_nil_r.
  - lia.
Qed.

Lemma invariant_stopSoramimi w :
  invariant w -> invariant (exec stopSoramimi w).
Proof.
  unfold exec, stopSoramimi, clear_timer, bind, gets, modify, ret.
  destruct (randomTriggerInterval w); simpl;
    destruct (guaranteeTimer w); simpl;
    apply invariant_cancel; simpl; try reflexivity;
    intros tm Htm; repeat (apply list_elem_of_filter in Htm as [_ Htm]);
    exact Htm.
Qed.

Lemma invariant_fire h w : invariant w -> invariant (exec (fire h) w).
Proof.
  intros Hinv. unfold exec, fire, bind at 1, gets at 1.
  destruct (List.find _ (timers w)) as [tm|]; [|exact Hinv].
  destruct (kind tm).
  - change (invariant (exec guaranteeCallback (exec (clear_timer h) w))).
    unfold guaranteeCallback. rewrite try_finally_exec.
    apply invariant_schedule.
    assert (Hclear : invariant (exec (clear_timer h) w)).
    { revert Hinv. apply invariant_cancel; try reflexivity.
      apply filter_subseteq_timers. }
    revert Hclear. generalize (exec (clear_timer h) w) as w1. intros w1 H1.
    unfold exec, bind, gets, when. destruct (audio_ready w1); [|exact H1].
    now apply invariant_replay.
  - unfold intervalCallback, bind, gets, Math_random, when. simpl.
    assert (Hdraw : invariant (with_drawn (S (drawn w)) w)) by exact Hinv.
    destruct (_ && _); [|exact Hdraw].
    now apply invariant_replay.
Qed.

Section Preservation.
Variable I : World -> Prop.

Lemma preserves_ret {A} (a : A) : preserves I (ret a).
Proof. intros w H. exact H. Qed.

Lemma preserves_gets {A} (f : World -> A) : preserves I (gets f).
Proof. intros w H. exact H. Qed.

Lemma preserves_bind {A B} (m : M A) (k : A -> M B) :
  preserves I m -> (forall a, preserves I (k a)) -> preserves I (bind m k).
Proof.
  intros Hm Hk w H. specialize (Hm w H). unfold exec, bind in *.
  destruct (m w) as [[a|e] w1]; simpl in *; [now apply Hk | exact Hm].
Qed.

Lemma preserves_when (b : bool) (m : M unit) :
  preserves I m -> preserves I (when b m).
Proof. intros Hm. destruct b; [exact Hm | apply preserves_ret]. Qed.

Lemma preserves_try_catch (body handler : M unit) :
  preserves I body -> preserves I handler ->
  preserves I (try_catch body handler).
Proof.
  intros Hb Hh w H. specialize (Hb w H). unfold exec, try_catch in *.
  destruct (body w) as [[a|e] w1]; simpl in *; [exact Hb | now apply Hh].
Qed.

Lemma preserves_try_finally (body fin : M unit) :
  preserves I body -> preserves I fin -> preserves I (try_finally body fin).
Proof.
  intros Hb Hf w H. rewrite try_finally_exec. apply Hf, Hb, H.
Qed.

Lemma preserves_modify (f : World -> World) :
  (forall w, I w -> I (f w)) -> preserves I (modify f).
Proof. intros Hf w H. now apply Hf. Qed.
End Preservation.

Lemma invariant_platform_create : preserves invariant platform_create.
Proof.
  intros w H. unfold exec, platform_create.
  destruct (platformBudget w); exact H.
Qed.

Lemma invariant_updateLog n : preserves invariant (updateLog n).
Proof. intros w H. exact H. Qed.

Lemma invariant_startSoramimi_granted : preserves invariant startSoramimi_granted.
Proof.
  unfold startSoramimi_granted.
  apply preserves_try_catch; [|exact invariant_stopSoramimi].
  repeat first
    [ exact invariant_startRandomTrigger
    | exact (invariant_schedule true)
    | exact invariant_platform_create
    | apply invariant_updateLog
    | apply preserves_bind; [|intros ?]
    | apply preserves_try_catch
    | apply preserves_when
    | apply preserves_ret
    | apply preserves_gets
    | apply preserves_modify; intros w H; exact H ].
Qed.

Lemma invariant_handler (e : Event) : preserves invariant (handler e).
Proof.
  destruct e; simpl.
  - intros w. apply invariant_archiveAudio.
  - intros w. apply invariant_fire.
  - unfold onended. apply preserves_bind; [|intros ?; apply invariant_updateLog].
    apply preserves_modify. intros w H. destruct (chains w !! n); exact H.
  - unfold startSoramimi. apply preserves_bind; [apply preserves_gets|].
    intros [c|]; [destruct (is_running (state c))|];
      try apply preserves_ret; apply preserves_modify; intros w H; exact H.
  - exact invariant_startSoramimi_granted.
  - exact invariant_stopSoramimi.
  - unfold stopSoramimi_closed.
    repeat (apply preserves_bind; [|intros ?]);
      try apply invariant_updateLog;
      apply preserves_modify; intros w H; try exact H.
    destruct H as (_ & _ & Hfresh). repeat split; [simpl; lia | constructor | exact Hfresh].
  - unfold onKeyT. apply preserves_bind; [apply preserves_gets|].
    intros [c|]; [destruct (is_running (state c))|];
      try apply invariant_updateLog.
    apply preserves_bind; [apply invariant_updateLog|]. intros _.
    apply preserves_try_catch; [|apply preserves_ret].
    intros w. apply invariant_replay.
  - unfold onProbabilityInput.
    apply preserves_bind; [|intros ?; apply invariant_updateLog].
    apply preserves_modify. intros w H. exact H.
  - unfold onIntervalChange.
    apply preserves_bind; [apply preserves_modify; intros w H; exact H|].
    intros _. apply preserves_bind; [apply preserves_gets|].
    intros ctx. apply preserves_bind; [|intros ?; apply invariant_updateLog].
    destruct ctx as [c|]; [|apply preserves_ret].
    apply preserves_when. exact invariant_startRandomTrigger.
Qed.

Lemma invariant_step (w : World) (timed : Z * Event) :
  invariant w -> invariant (step w timed).
Proof.
  intros H. unfold step. apply invariant_handler. exact H.
Qed.

(** Whatever the browser runs and in whatever order, from the loading of
    the page on: the archive stays within its capacity, its segments own
    allocated storage, and timer handles stay fresh. *)
Lemma invariant_run (events : list (Z * Event)) (random : nat -> Q) (budget : nat) :
  invariant (run events (initial random budget)).
Proof.
  unfold run. generalize (invariant_initial random budget).
  generalize (initial random budget) as w.
  induction events as [|e events IH]; intros w H; simpl; [exact H|].
  apply IH, invariant_step, H.
Qed.

(** * Further properties *)

(** ** The content of a fragment *)

(** X1. A replay that goes through (on an archive within its capacity,
    with a binary64 draw) hands to playback a buffer of
    [segmentLength] samples: the first [segmentLength] samples of the
    archive read circularly from the start index, each segment giving its
    first [BUFFER_SIZE] samples, and silence after them when the archive
    holds fewer. The number reported as copied is the number of archived
    samples in it. *)
Theorem replay_fragment_content (w : World) (ctx : AudioContext) :
  audioContext w = Some ctx ->
  state ctx = running ->
  ARCHIVE_QUEUE w <> [] ->
  (length (ARCHIVE_QUEUE w) <= MAX_ARCHIVE_SEGMENTS)%nat ->
  archive_allocated w ->
  rng_ok w ->
  binary64 (rng w (drawn w)) ->
  (1024 <= sampleRate ctx)%Q ->
  (5 <= platformBudget w)%nat ->
  let queue := ARCHIVE_QUEUE w in
  let segmentLength :=
    segmentLengthOf (durationSecOf (rng w (S (drawn w)))) (sampleRate ctx) in
  let w' := exec playRandomSoraMimi w in
  exists (i : nat) (c : Playback),
    pick_startIndex (candidateIndices (clock w) queue) (length queue)
                    (rng w (drawn w)) = Some (Z.of_nat i) /\
    (i < length queue)%nat /\
    let copied := take (Z.to_nat segmentLength)
                       (concat (map (blockOf (heap w)) (rotate i queue))) in
    outcome playRandomSoraMimi w = Normal tt /\
    chains w' = chains w ++ [c] /\
    heap w' !! buffer c =
      Some (copied ++ replicate (Z.to_nat segmentLength - length copied) 0%Q) /\
    length (copied ++ replicate (Z.to_nat segmentLength - length copied) 0%Q)
      = Z.to_nat segmentLength /\
    LogBufferBuilt segmentLength (Z.of_nat (length copied)) ∈ log w'.
Proof.
  intros Hctx Hrun Hne Hcap Halloc Hrng Hb Hrate Hbudget queue segmentLength w'.
  destruct (playSelected_run w ctx Hne Hcap Halloc (Hrng _) Hb (Hrng _) Hrate Hbudget)
    as (i & g & c & Hpick & Hi & _ & Hplay).
  simpl in Hplay.
  eexists i, _. split; [exact Hpick|]. split; [exact Hi|].
  intros copied.
  unfold w', exec, outcome.
  rewrite (playRandomSoraMimi_play w ctx Hctx (audio_ready_true w ctx Hctx Hrun Hne)).
  rewrite Hplay. simpl.
  split; [reflexivity|]. split; [reflexivity|]. split; [|split].
  - now apply list_lookup_middle.
  - rewrite length_app, length_replicate.
    assert (length copied <= Z.to_nat segmentLength)%nat
      by (unfold copied; rewrite length_take; lia).
    lia.
  - apply elem_of_app. right. do 2 right. left.
Qed.

Lemma replay_fragment_content_witness :
  let w := session (fun _ => 1 # 2) 5 in
  exists (i : nat) (c : Playback),
    (i < length (ARCHIVE_QUEUE w))%nat /\
    chains (exec playRandomSoraMimi w) = chains w ++ [c].
Proof.
  intros w.
  destruct (replay_fragment_content w (mkAudioContext running SAMPLE_RATE))
    as (i & c & _ & Hi & _ & Hchains & _).
  - reflexivity.
  - reflexivity.
  - vm_compute. discriminate.
  - vm_compute. lia.
  - unfold archive_allocated. vm_compute. repeat constructor.
  - intros n. vm_compute. split; [discriminate | reflexivity].
  - unfold binary64. vm_compute. reflexivity.
  - vm_compute. discriminate.
  - vm_compute. lia.
  - exists i, c. split; [exact Hi | exact Hchains].
Defined.

(** X2. When some segment is older than the exclusion window, a replay
    that goes through starts at such a segment: the start index is one of
    the candidates, its segment carries a time stamp more than
    [EXCLUDE_RECENT_MS] before the time of the call, the choice is
    reported with the number of candidates, and the fragment begins with
    the samples of that segment. *)
Theorem replay_starts_at_a_candidate (w : World) (ctx : AudioContext) :
  audioContext w = Some ctx ->
  state ctx = running ->
  candidateIndices (clock w) (ARCHIVE_QUEUE w) <> [] ->
  (length (ARCHIVE_QUEUE w) <= MAX_ARCHIVE_SEGMENTS)%nat ->
  archive_allocated w ->
  rng_ok w ->
  binary64 (rng w (drawn w)) ->
  (1024 <= sampleRate ctx)%Q ->
  (5 <= platformBudget w)%nat ->
  let queue := ARCHIVE_QUEUE w in
  let candidates := candidateIndices (clock w) queue in
  let w' := exec playRandomSoraMimi w in
  exists (i : nat) (seg : Segment) (c : Playback) (data tail : list sample),
    i ∈ candidates /\
    queue !! i = Some seg /\
    t seg <> 0 /\
    clock w - t seg > EXCLUDE_RECENT_MS /\
    LogSelected (Some (Z.of_nat i)) (length candidates) (length queue) ∈ log w' /\
    chains w' = chains w ++ [c] /\
    heap w' !! buffer c = Some data /\
    data = blockOf (heap w) seg ++ tail.
Proof.
  intros Hctx Hrun Hcands Hcap Halloc Hrng Hb Hrate Hbudget queue candidates w'.
  subst queue candidates.
  assert (Hne : ARCHIVE_QUEUE w <> []).
  { intros E. apply Hcands. rewrite E. reflexivity. }
  destruct (playSelected_run w ctx Hne Hcap Halloc (Hrng _) Hb (Hrng _) Hrate Hbudget)
    as (i & g & c & Hpick & Hi & Hin & Hplay).
  simpl in Hplay. specialize (Hin Hcands).
  assert (Hcand := Hin).
  apply candidateIndices_In, is_candidate_spec in Hcand as (seg & Hseg & Hnz & Hold).
  destruct (rotate_lookup_head _ _ _ Hseg) as (rest & Hrot).
  set (L := segmentLengthOf (durationSecOf (rng w (S (drawn w)))) (sampleRate ctx)) in *.
  assert (HL : BUFFER_SIZE <= L).
  { apply segmentLength_pos; [|exact Hrate]. apply durationSecOf_range, Hrng. }
  eexists i, seg, _, _, _.
  split; [exact Hin|]. split; [exact Hseg|]. split; [exact Hnz|].
  split; [exact Hold|].
  unfold w', exec.
  rewrite (playRandomSoraMimi_play w ctx Hctx (audio_ready_true w ctx Hctx Hrun Hne)).
  rewrite Hplay. simpl.
  split.
  { apply elem_of_app. right.
    destruct (candidateIndices (clock w) (ARCHIVE_QUEUE w)); [contradiction|left]. }
  split; [reflexivity|]. simpl.
  split; [apply list_lookup_middle; reflexivity|].
  - rewrite Hrot. simpl. rewrite take_app.
    rewrite (take_ge (blockOf (heap w) seg)).
    2:{ unfold blockOf. rewrite length_take. lia. }
    rewrite <- app_assoc. reflexivity.
Qed.

Lemma replay_starts_at_a_candidate_witness :
  let w := with_clock 5000 (session (fun _ => 1 # 2) 5) in
  exists (i : nat) (seg : Segment),
    i ∈ candidateIndices (clock w) (ARCHIVE_QUEUE w) /\
    ARCHIVE_QUEUE w !! i = Some seg /\
    clock w - t seg > EXCLUDE_RECENT_MS.
Proof.
  intros w.
  destruct (replay_starts_at_a_candidate w (mkAudioContext running SAMPLE_RATE))
    as (i & seg & _ & _ & _ & Hin & Hseg & _ & Hold & _).
  - reflexivity.
  - reflexivity.
  - vm_compute. discriminate.
  - vm_compute. lia.
  - unfold archive_allocated. vm_compute. repeat constructor.
  - intros n. vm_compute. split; [discriminate | reflexivity].
  - unfold binary64. vm_compute. reflexivity.
  - vm_compute. discriminate.
  - vm_compute. lia.
  - exists i, seg. split; [exact Hin|]. split; [exact Hseg | exact Hold].
Defined.

(** A replay at 5 s on a context of 2048 Hz: all three segments are
    candidates, a draw of 1/2 picks index 1, and the fragment is segments
    1, 2, 0 followed by silence. *)
Example replay_starts_at_a_candidate_run :
  let w := with_clock 5000
             (with_audioContext (Some (mkAudioContext running (2048 # 1)))
                (session (fun _ => 1 # 2) 5)) in
  let w' := exec playRandomSoraMimi w in
  candidateIndices (clock w) (ARCHIVE_QUEUE w) = [0; 1; 2]%nat /\
  (take 7 <$> heap w' !! 3%nat) =
    Some [1 # 8; 1 # 16; 1 # 32; 1 # 64; 1 # 2; 1 # 4; 0]%Q /\
  log w' = log w ++ [LogSelected (Some 1) 3 3; LogDuration (7 # 2) 8192;
                     LogBufferBuilt 8192 6; LogReplayBegin].
Proof. vm_compute. repeat split. Qed.

(** ** The bookkeeping of the timers *)

Lemma NoDup_fmap_filter {A B} (f : A -> B) (P : A -> Prop)
    `{forall x, Decision (P x)} (l : list A) :
  NoDup (f <$> l) -> NoDup (f <$> filter P l).
Proof.
  induction l as [|x l IH]; simpl; [auto|].
  rewrite NoDup_cons. intros [Hx Hl]. rewrite filter_cons.
  destruct (decide (P x)); [|auto].
  simpl. apply NoDup_cons. split; [|auto].
  intros Hin. apply Hx. apply list_elem_of_fmap in Hin as (y & -> & Hy).
  apply list_elem_of_filter in Hy as [_ Hy]. apply list_elem_of_fmap. eauto.
Qed.

Lemma filter_ext_elem {A} (P Q : A -> Prop)
    `{forall x, Decision (P x)} `{forall x, Decision (Q x)} (l : list A) :
  (forall x, x ∈ l -> (P x <-> Q x)) -> filter P l = filter Q l.
Proof.
  induction l as [|x l IH]; intros Hpq; [reflexivity|].
  rewrite !filter_cons.
  assert (Hx := Hpq x ltac:(left)).
  rewrite IH by (intros y Hy; apply Hpq; now right).
  destruct (decide (P x)), (decide (Q x)); tauto.
Qed.

Lemma filter_none {A} (P : A -> Prop) `{forall x, Decision (P x)} (l : list A) :
  (forall x, x ∈ l -> ~ P x) -> filter P l = [].
Proof.
  intros Hnone. destruct (filter P l) as [|x k] eqn:E; [reflexivity|].
  assert (Hx : x ∈ filter P l) by (rewrite E; left).
  apply list_elem_of_filter in Hx as [HP Hin]. now apply Hnone in Hin.
Qed.


Lemma scheduler_ok_initial random budget : scheduler_ok (initial random budget).
Proof.
  unfold scheduler_ok, timers_fresh; simpl.
  split; [constructor|]. split; [constructor|].
  split; [intros tm H; inversion H|].
  split; [intros [] h; discriminate|]. discriminate.
Qed.

(** A change that keeps the timers, the next handle and both kept handles
    keeps the bookkeeping. *)
Lemma scheduler_ok_frame (w w' : World) :
  timers w' = timers w ->
  nextHandle w' = nextHandle w ->
  randomTriggerInterval w' = randomTriggerInterval w ->
  guaranteeTimer w' = guaranteeTimer w ->
  scheduler_ok w -> scheduler_ok w'.
Proof.
  intros Ht Hn Hi Hg (H1 & H2 & H3 & H4 & H5).
  assert (Hh : forall k, handle_of k w' = handle_of k w) by (intros []; auto).
  unfold scheduler_ok, timers_fresh.
  rewrite Ht, Hn, Hi, Hg.
  split; [exact H1|]. split; [exact H2|].
  split; [intros tm Htm; rewrite Hh; auto|].
  split; [intros k h; rewrite Hh; apply H4 | exact H5].
Qed.

Lemma scheduler_ok_clear (h : handle) : preserves scheduler_ok (clear_timer h).
Proof.
  intros w (H1 & H2 & H3 & H4 & H5).
  unfold scheduler_ok, timers_fresh, exec, clear_timer, modify in *; simpl.
  split; [now apply Forall_filter_keep|].
  split; [now apply NoDup_fmap_filter|].
  split; [|split; [intros k h0 Hh; apply (H4 k); destruct k; exact Hh | exact H5]].
  intros tm Htm. apply list_elem_of_filter in Htm as [_ Htm].
  specialize (H3 tm Htm). destruct (kind tm); exact H3.
Qed.

(** The effect of restarting the loop of kind [k]: the timer it kept is
    cancelled, a new one is set under the next handle, which the loop
    keeps; the other loop is not touched. *)
Lemma scheduler_ok_reschedule (k : TimerKind) (delay : Z) (w w' : World) :
  scheduler_ok w ->
  timers w' =
    match handle_of k w with
    | Some h => filter (fun tm => timerId tm <> h) (timers w)
    | None => timers w
    end ++ [mkTimer (nextHandle w) k delay] ->
  nextHandle w' = S (nextHandle w) ->
  handle_of k w' = Some (nextHandle w) ->
  (forall k', k' <> k -> handle_of k' w' = handle_of k' w) ->
  scheduler_ok w' /\
  pending k w' = [mkTimer (nextHandle w) k delay] /\
  (forall k', k' <> k -> pending k' w' = pending k' w).
Proof.
  intros (H1 & H2 & H3 & H4 & H5) Ht Hn Hk Hother.
  set (front := match handle_of k w with
                | Some h => filter (fun tm => timerId tm <> h) (timers w)
                | None => timers w
                end) in *.
  assert (Hsub : forall tm, tm ∈ front -> tm ∈ timers w).
  { intros tm. unfold front. destruct (handle_of k w); [|auto].
    intros Htm. now apply list_elem_of_filter in Htm as [_ ?]. }
  assert (Hkind : forall tm, tm ∈ front -> kind tm <> k).
  { intros tm Htm Hk'. assert (Hin := Hsub tm Htm).
    specialize (H3 tm Hin). rewrite Hk' in H3.
    unfold front in Htm. rewrite H3 in Htm.
    apply list_elem_of_filter in Htm as [Hne _]. now apply Hne. }
  assert (Hfront_fresh : Forall (fun tm => (timerId tm < nextHandle w)%nat) front).
  { apply Forall_forall. intros tm Htm.
    unfold timers_fresh in H1. rewrite Forall_forall in H1. auto. }
  assert (Hfront_nd : NoDup (timerId <$> front)).
  { unfold front. destruct (handle_of k w); [now apply NoDup_fmap_filter | exact H2]. }
  assert (Hvars : forall k1 h, handle_of k1 w' = Some h -> (h < S (nextHandle w))%nat).
  { intros k1 h Hh. destruct (decide (k1 = k)) as [->|Hne].
    - rewrite Hk in Hh. injection Hh as <-. lia.
    - rewrite (Hother k1 Hne) in Hh. apply H4 in Hh. lia. }
  split; [|split].
  - unfold scheduler_ok, timers_fresh. rewrite Ht, Hn.
    split; [|split; [|split; [|split]]].
    + apply Forall_app. split.
      * eapply Forall_impl; [exact Hfront_fresh|]. simpl. intros; lia.
      * repeat constructor.
    + rewrite fmap_app. apply NoDup_app. split; [exact Hfront_nd|].
      split; [|apply NoDup_singleton].
      intros x Hx. simpl. rewrite list_elem_of_singleton. intros ->.
      apply list_elem_of_fmap in Hx as (tm & Hid & Htm).
      rewrite Forall_forall in Hfront_fresh. specialize (Hfront_fresh tm Htm). lia.
    + intros tm Htm. apply elem_of_app in Htm as [Htm|Htm].
      * rewrite (Hother _ (Hkind tm Htm)). apply H3. auto.
      * apply list_elem_of_singleton in Htm as ->. exact Hk.
    + exact Hvars.
    + intros h h' Hi Hg Heq. subst h'.
      destruct k; simpl in Hk.
      * rewrite Hk in Hg. injection Hg as <-.
        pose proof (Hother Interval ltac:(discriminate)) as Ho. simpl in Ho.
        rewrite Ho in Hi. apply (H4 Interval) in Hi. lia.
      * rewrite Hk in Hi. injection Hi as <-.
        pose proof (Hother Timeout ltac:(discriminate)) as Ho. simpl in Ho.
        rewrite Ho in Hg. apply (H4 Timeout) in Hg. lia.
  - unfold pending. rewrite Ht, filter_app.
    rewrite (filter_none _ front) by (intros tm Htm; now apply Hkind).
    rewrite filter_cons, filter_nil. simpl.
    destruct (decide (k = k)); [reflexivity | contradiction].
  - intros k' Hne. unfold pending. rewrite Ht, filter_app.
    rewrite filter_cons, filter_nil. simpl.
    destruct (decide (k = k')) as [E|_]; [symmetry in E; contradiction|].
    rewrite app_nil_r. unfold front.
    destruct (handle_of k w) as [h|] eqn:Eh; [|reflexivity].
    rewrite list_filter_filter. apply filter_ext_elem. intros tm Hin. split.
    + intros [? _]. assumption.
    + intros Hk'. split; [exact Hk'|]. intros Hid.
      specialize (H3 tm Hin). rewrite Hk', Hid in H3.
      destruct k, k'; simpl in *; try contradiction;
        [apply (H5 _ _ H3 Eh) | apply (H5 _ _ Eh H3)]; reflexivity.
Qed.

Lemma startRandomTrigger_spec (w : World) :
  let w' := exec startRandomTrigger w in
  outcome startRandomTrigger w = Normal tt /\
  randomTriggerInterval w' = Some (nextHandle w) /\
  timers w' =
    match randomTriggerInterval w with
    | Some h => filter (fun tm => timerId tm <> h) (timers w)
    | None => timers w
    end ++ [mkTimer (nextHandle w) Interval (TRIGGER_CHECK_INTERVAL w)] /\
  nextHandle w' = S (nextHandle w) /\
  guaranteeTimer w' = guaranteeTimer w /\
  TRIGGER_CHECK_INTERVAL w' = TRIGGER_CHECK_INTERVAL w /\
  rng w' = rng w /\
  ARCHIVE_QUEUE w' = ARCHIVE_QUEUE w /\
  heap w' = heap w /\
  log w' = log w ++ [LogTriggerStart (TRIGGER_CHECK_INTERVAL w) (TRIGGER_PROBABILITY w)] /\
  drawn w' = drawn w.
Proof.
  unfold exec, outcome, startRandomTrigger, bind, gets, modify, clear_timer,
    set_timer, updateLog, ret; simpl.
  destruct (randomTriggerInterval w); simpl; repeat split.
Qed.

Lemma scheduleNextGuaranteedTrigger_keeps (isFirst : bool) (w : World) :
  let w' := exec (scheduleNextGuaranteedTrigger isFirst) w in
  randomTriggerInterval w' = randomTriggerInterval w /\
  TRIGGER_CHECK_INTERVAL w' = TRIGGER_CHECK_INTERVAL w.
Proof.
  unfold exec, scheduleNextGuaranteedTrigger, bind, gets, modify,
    clear_timer, set_timer, Math_random, updateLog, ret; simpl.
  destruct (guaranteeTimer w); simpl; split; reflexivity.
Qed.

Lemma startRandomTrigger_reschedules (w : World) :
  scheduler_ok w ->
  let w' := exec startRandomTrigger w in
  scheduler_ok w' /\
  pending Interval w' = [mkTimer (nextHandle w) Interval (TRIGGER_CHECK_INTERVAL w)] /\
  pending Timeout w' = pending Timeout w.
Proof.
  intros Hok w'.
  destruct (startRandomTrigger_spec w) as (_ & Hi & Ht & Hn & Hg & _).
  assert (Hother : forall k', k' <> Interval -> handle_of k' w' = handle_of k' w)
    by (intros [] Hne; [exact Hg | contradiction]).
  destruct (scheduler_ok_reschedule Interval (TRIGGER_CHECK_INTERVAL w) w w'
              Hok Ht Hn Hi Hother) as (H1 & H2 & H3).
  split; [exact H1|]. split; [exact H2|]. apply H3. discriminate.
Qed.

Lemma scheduleNextGuaranteedTrigger_reschedules (isFirst : bool) (w : World) :
  scheduler_ok w ->
  let w' := exec (scheduleNextGuaranteedTrigger isFirst) w in
  scheduler_ok w' /\
  pending Timeout w' =
    [mkTimer (nextHandle w) Timeout (nextMsOf isFirst (rng w (drawn w)))] /\
  pending Interval w' = pending Interval w.
Proof.
  intros Hok w'.
  destruct (scheduleNextGuaranteedTrigger_spec isFirst w)
    as (_ & Hg & Ht & _ & _ & _ & _ & Hn & _).
  destruct (scheduleNextGuaranteedTrigger_keeps isFirst w) as (Hi & _).
  assert (Hother : forall k', k' <> Timeout -> handle_of k' w' = handle_of k' w)
    by (intros [] Hne; [contradiction | exact Hi]).
  destruct (scheduler_ok_reschedule Timeout
              (nextMsOf isFirst (rng w (drawn w))) w w' Hok Ht Hn Hg Hother)
    as (H1 & H2 & H3).
  split; [exact H1|]. split; [exact H2|]. apply H3. discriminate.
Qed.

(** [stopSoramimi] under the bookkeeping: nothing is left pending. *)
Lemma stopSoramimi_clears (w : World) :
  scheduler_ok w ->
  let w' := exec stopSoramimi w in
  outcome stopSoramimi w = Normal tt /\
  timers w' = [] /\
  randomTriggerInterval w' = None /\
  guaranteeTimer w' = None /\
  nextHandle w' = nextHandle w /\
  ARCHIVE_QUEUE w' = ARCHIVE_QUEUE w /\
  heap w' = heap w /\
  chains w' = chains w /\
  log w' = log w.
Proof.
  intros (_ & _ & H3 & _) w'.
  assert (Hgone : forall tm, tm ∈ timers w' -> False).
  { unfold w', exec, stopSoramimi, clear_timer, bind, gets, modify, ret.
    intros tm. destruct (randomTriggerInterval w) as [i|] eqn:Ei; simpl;
      destruct (guaranteeTimer w) as [g|] eqn:Eg; simpl;
      intros Htm;
      repeat match type of Htm with
             | _ ∈ filter _ _ =>
                 let Hne := fresh "Hne" in
                 apply list_elem_of_filter in Htm as [Hne Htm]
             end;
      specialize (H3 tm Htm); destruct (kind tm); simpl in H3; congruence. }
  assert (Hnil : timers w' = []).
  { destruct (timers w') as [|tm ts]; [reflexivity|].
    exfalso. apply (Hgone tm). left. }
  split; [|split; [exact Hnil|]];
    unfold w', exec, outcome, stopSoramimi, clear_timer, bind, gets, modify, ret;
    destruct (randomTriggerInterval w) eqn:Ei; simpl;
    destruct (guaranteeTimer w) eqn:Eg; simpl; repeat split; assumption.
Qed.

Lemma scheduler_ok_stopSoramimi : preserves scheduler_ok stopSoramimi.
Proof.
  intros w Hok.
  destruct (stopSoramimi_clears w Hok) as (_ & Ht & Hi & Hg & Hn & _).
  destruct Hok as (_ & _ & _ & H4 & _).
  unfold scheduler_ok, timers_fresh. rewrite Ht, Hi, Hg. simpl.
  split; [constructor|]. split; [constructor|].
  split; [intros tm H; inversion H|].
  split; [|discriminate].
  intros [] h; simpl; rewrite ?Hi, ?Hg; discriminate.
Qed.

Lemma scheduler_ok_replay : preserves scheduler_ok playRandomSoraMimi.
Proof.
  intros w. destruct (playRandomSoraMimi_frame w)
    as (_ & _ & _ & _ & Ht & Hn & Hg & Hi & _).
  now apply scheduler_ok_frame.
Qed.

Lemma scheduler_ok_platform_create : preserves scheduler_ok platform_create.
Proof.
  intros w H. unfold exec, platform_create. destruct (platformBudget w); exact H.
Qed.

(** What the steps of a handler are made of. *)
Ltac preserve_with leaf :=
  repeat first
    [ leaf
    | match goal with
      | |- preserves _ (ret _) => apply preserves_ret
      | |- preserves _ (gets _) => apply preserves_gets
      | |- preserves _ Date_now => apply preserves_gets
      | |- preserves _ (when _ _) => apply preserves_when
      | |- preserves _ (try_catch _ _) => apply preserves_try_catch
      | |- preserves _ (try_finally _ _) => apply preserves_try_finally
      | |- preserves _ (bind _ _) => apply preserves_bind; [|intros ?]
      | |- preserves _ (match ?x with Some _ => _ | None => _ end) => destruct x
      | |- preserves _ (if ?x then _ else _) => destruct x
      end ].

Ltac scheduler_leaf :=
  idtac;
  match goal with
  | |- preserves _ playRandomSoraMimi => exact scheduler_ok_replay
  | |- preserves _ stopSoramimi => exact scheduler_ok_stopSoramimi
  | |- preserves _ platform_create => exact scheduler_ok_platform_create
  | |- preserves _ (clear_timer _) => apply scheduler_ok_clear
  | |- preserves _ startRandomTrigger =>
      intros ?w ?H; apply (startRandomTrigger_reschedules _ H)
  | |- preserves _ (scheduleNextGuaranteedTrigger _) =>
      intros ?w ?H; apply (scheduleNextGuaranteedTrigger_reschedules _ _ H)
  | |- preserves _ (updateLog _) => intros ?w ?H; exact H
  | |- preserves _ (modify _) => intros ?w ?H; exact H
  | |- preserves _ Math_random => intros ?w ?H; exact H
  | |- preserves _ (new_Float32Array _) => intros ?w ?H; exact H
  end.

Lemma scheduler_ok_handler (e : Event) : preserves scheduler_ok (handler e).
Proof.
  destruct e; simpl.
  - unfold archiveAudio. preserve_with scheduler_leaf.
  - unfold fire. apply preserves_bind; [apply preserves_gets|]. intros ts.
    destruct (List.find _ ts) as [tm|]; [|apply preserves_ret].
    destruct (kind tm); unfold guaranteeCallback, intervalCallback;
      preserve_with scheduler_leaf.
  - unfold onended. preserve_with scheduler_leaf.
    intros w H. unfold exec, modify; simpl. destruct (chains w !! n); exact H.
  - unfold startSoramimi. preserve_with scheduler_leaf.
  - unfold startSoramimi_granted. preserve_with scheduler_leaf.
  - exact scheduler_ok_stopSoramimi.
  - unfold stopSoramimi_closed. preserve_with scheduler_leaf.
  - unfold onKeyT. preserve_with scheduler_leaf.
  - unfold onProbabilityInput. preserve_with scheduler_leaf.
  - unfold onIntervalChange. preserve_with scheduler_leaf.
Qed.

Lemma scheduler_ok_run (events : list (Z * Event)) (w : World) :
  scheduler_ok w -> scheduler_ok (run events w).
Proof.
  unfold run. revert w.
  induction events as [|e events IH]; intros w H; simpl; [exact H|].
  apply IH. unfold step. apply scheduler_ok_handler. exact H.
Qed.



Lemma scheduler_ok_session random budget : scheduler_ok (session random budget).
Proof. unfold session. apply scheduler_ok_run, scheduler_ok_initial. Qed.

(** X4. Starting the probabilistic loop cancels the timer it had and
    leaves exactly one interval timer, of period [TRIGGER_CHECK_INTERVAL],
    under a new handle; starting it twice in a row leaves exactly one as
    well. The guarantee timer is not touched. *)
Theorem startRandomTrigger_idempotent (w : World) :
  scheduler_ok w ->
  let once := exec startRandomTrigger w in
  let twice := exec startRandomTrigger once in
  pending Interval once =
    [mkTimer (nextHandle w) Interval (TRIGGER_CHECK_INTERVAL w)] /\
  randomTriggerInterval once = Some (nextHandle w) /\
  pending Interval twice =
    [mkTimer (S (nextHandle w)) Interval (TRIGGER_CHECK_INTERVAL w)] /\
  randomTriggerInterval twice = Some (S (nextHandle w)) /\
  pending Timeout once = pending Timeout w /\
  pending Timeout twice = pending Timeout w.
Proof.
  intros Hok once twice.
  destruct (startRandomTrigger_reschedules w Hok) as (Hok1 & Hp1 & Hq1).
  destruct (startRandomTrigger_reschedules once Hok1) as (_ & Hp2 & Hq2).
  destruct (startRandomTrigger_spec w) as (_ & Hi1 & _ & Hn1 & _ & Hc1 & _).
  destruct (startRandomTrigger_spec once) as (_ & Hi2 & _).
  fold once in Hp1, Hq1, Hi1, Hn1, Hc1. fold twice in Hp2, Hq2, Hi2.
  rewrite Hn1, Hc1 in Hp2. rewrite Hn1 in Hi2.
  split; [exact Hp1|]. split; [exact Hi1|]. split; [exact Hp2|].
  split; [exact Hi2|]. split; [exact Hq1|]. now rewrite Hq2.
Qed.

Lemma startRandomTrigger_idempotent_witness :
  let w := session (fun _ => 1 # 2) 5 in
  pending Interval (exec startRandomTrigger (exec startRandomTrigger w)) =
    [mkTimer (S (nextHandle w)) Interval (TRIGGER_CHECK_INTERVAL w)] /\
  pending Timeout (exec startRandomTrigger (exec startRandomTrigger w)) =
    pending Timeout w.
Proof.
  intros w.
  destruct (startRandomTrigger_idempotent w) as (_ & _ & H3 & _ & _ & H6).
  - apply scheduler_ok_session.
  - split; [exact H3 | exact H6].
Defined.

(** ** Stopping *)





(** ** Starting *)

Arguments startRandomTrigger : simpl never.
Arguments scheduleNextGuaranteedTrigger : simpl never.
Arguments stopSoramimi : simpl never.
Arguments playRandomSoraMimi : simpl never.





(** The grant of the microphone on a platform that cannot build the three
    input nodes: the handler ends as [stopSoramimi] does, from a state with
    the timers and the archive of the state before. *)
Lemma startSoramimi_granted_fails (w : World) :
  (platformBudget w < 3)%nat ->
  exists w0,
    startSoramimi_granted w = stopSoramimi w0 /\
    timers w0 = timers w /\ nextHandle w0 = nextHandle w /\
    randomTriggerInterval w0 = randomTriggerInterval w /\
    guaranteeTimer w0 = guaranteeTimer w /\
    ARCHIVE_QUEUE w0 = ARCHIVE_QUEUE w.
Proof.
  intros Hb.
  unfold startSoramimi_granted, try_catch at 1, bind, platform_create, modify,
    gets, when, updateLog, ret.
  destruct (platformBudget w) as [|[|[|b]]] eqn:Eb; try lia; simpl;
    rewrite ?Eb; simpl.
  all: try (destruct (monitoringConnected w); simpl).
  all: eexists; split; [reflexivity|]; repeat split.
Qed.

(** X7. When the microphone is granted but the platform cannot build the
    three input nodes, the failure is caught and the session is stopped:
    the handler returns normally and, in a state reached by the event
    loop, no timer is pending afterwards and neither loop keeps a handle;
    the archive is as it was. *)
Theorem startSoramimi_granted_failure_stops (w : World) :
  scheduler_ok w ->
  (platformBudget w < 3)%nat ->
  let w' := exec startSoramimi_granted w in
  outcome startSoramimi_granted w = Normal tt /\
  timers w' = [] /\
  randomTriggerInterval w' = None /\
  guaranteeTimer w' = None /\
  ARCHIVE_QUEUE w' = ARCHIVE_QUEUE w.
Proof.
  intros Hok Hb w'.
  destruct (startSoramimi_granted_fails w Hb)
    as (w0 & Hrun & Ht & Hn & Hi & Hg & Hq).
  assert (Hok0 : scheduler_ok w0) by (now apply (scheduler_ok_frame w w0)).
  destruct (stopSoramimi_clears w0 Hok0)
    as (Ho & Ht' & Hi' & Hg' & _ & Hq' & _).
  unfold w', outcome, exec in *. rewrite Hrun.
  repeat split; try assumption. now rewrite Hq'.
Qed.

Lemma startSoramimi_granted_failure_stops_witness :
  let w := exec (startSoramimi (mkAudioContext running SAMPLE_RATE))
                (initial (fun _ => 1 # 2) 2) in
  outcome startSoramimi_granted w = Normal tt /\
  timers (exec startSoramimi_granted w) = [].
Proof.
  intros w.
  destruct (startSoramimi_granted_failure_stops w) as (H1 & H2 & _).
  - apply scheduler_ok_initial.
  - vm_compute. lia.
  - split; [exact H1 | exact H2].
Defined.

(** ** Changing the configuration *)




(** The probability set by the slider, against a draw. *)
Lemma probability_never (percent r : Q) :
  (percent <= 0)%Q -> unit_draw r -> Qltb r (fl (percent / 100)) = false.
Proof.
  intros Hp [Hlo _]. destruct (Qltb r (fl (percent / 100))) eqn:E; [|reflexivity].
  apply Qltb_spec in E.
  assert (percent / 100 <= 0)%Q.
  { unfold Qdiv. rewrite <- (Qmult_0_l (/ 100)).
    apply Qmult_le_compat_r; [exact Hp | discriminate]. }
  assert (fl (percent / 100) <= 0)%Q by now apply fl_nonpos.
  exfalso. apply (Qlt_irrefl r). eapply Qlt_le_trans; [exact E|].
  eapply Qle_trans; eassumption.
Qed.

Lemma probability_always (percent r : Q) :
  (100 <= percent)%Q -> unit_draw r -> Qltb r (fl (percent / 100)) = true.
Proof.
  intros Hp [_ Hhi]. apply Qltb_spec.
  eapply Qlt_le_trans; [exact Hhi|].
  apply (fl_lower 1); [apply (binary64_Z 1); lia | discriminate|].
  assert (H1 : (1 == 100 / 100)%Q) by reflexivity. rewrite H1.
  unfold Qdiv. apply Qmult_le_compat_r; [exact Hp | discriminate].
Qed.

(** X9. The probability takes effect at the next tick: with the slider
    at 0 (or below) a tick of the probabilistic loop never calls
    [playRandomSoraMimi], whatever the archive holds; with the slider at
    100 (or above) it calls it at every tick at which the archive holds
    more than 10 segments. *)
Theorem probability_slider_extremes (percent : Q) (w : World) :
  let w1 := exec (onProbabilityInput percent) w in
  let after_draw := with_drawn (S (drawn w1)) w1 in
  unit_draw (rng w (drawn w)) ->
  TRIGGER_PROBABILITY w1 = fl (percent / 100) /\
  timers w1 = timers w /\
  ((percent <= 0)%Q -> intervalCallback w1 = (Normal tt, after_draw)) /\
  ((100 <= percent)%Q -> (10 < length (ARCHIVE_QUEUE w))%nat ->
     intervalCallback w1 = playRandomSoraMimi after_draw).
Proof.
  intros w1 after_draw Hr.
  split; [reflexivity|]. split; [reflexivity|]. split.
  - intros Hp. unfold intervalCallback, bind, gets, Math_random, when. simpl.
    now rewrite (probability_never percent _ Hp Hr).
  - intros Hp Hn. unfold intervalCallback, bind, gets, Math_random, when. simpl.
    rewrite (probability_always percent _ Hp Hr).
    apply Nat.ltb_lt in Hn. rewrite Hn. reflexivity.
Qed.

Lemma probability_slider_extremes_witness :
  let w := initial (fun _ => 1 # 2) 5 in
  let w1 := exec (onProbabilityInput 0) w in
  intervalCallback w1 = (Normal tt, with_drawn (S (drawn w1)) w1).
Proof.
  intros w w1.
  destruct (probability_slider_extremes 0 w) as (_ & _ & H & _).
  - split; [discriminate | reflexivity].
  - apply H. discriminate.
Defined.


(** ** The pace of the timers *)

Lemma preserves_run (I : World -> Prop) :
  (forall now w, I w -> I (with_clock now w)) ->
  (forall e, preserves I (handler e)) ->
  forall events w, I w -> I (run events w).
Proof.
  intros Hclock Hh events. unfold run.
  induction events as [|e events IH]; intros w H; simpl; [exact H|].
  apply IH. unfold step. apply Hh, Hclock, H.
Qed.











(** ** What writes to the archive *)

Ltac queue_leaf :=
  idtac;
  match goal with
  | |- preserves _ playRandomSoraMimi =>
      let w := fresh "w" in let H := fresh "H" in
      intros w H;
      destruct (playRandomSoraMimi_frame w) as (-> & _); exact H
  | |- preserves _ (clear_timer _) => intros ?w ?H; exact H
  | |- preserves _ (set_timer _ _) => intros ?w ?H; exact H
  | |- preserves _ platform_create =>
      intros ?w ?H; unfold exec, platform_create;
      destruct (platformBudget _); exact H
  | |- preserves _ (updateLog _) => intros ?w ?H; exact H
  | |- preserves _ (modify _) => intros ?w ?H; exact H
  | |- preserves _ Math_random => intros ?w ?H; exact H
  end.

Lemma archive_kept_by_handler (e : Event) (q : list Segment) :
  writes_archive e = false ->
  preserves (fun w => ARCHIVE_QUEUE w = q) (handler e).
Proof.
  destruct e; simpl; try discriminate; intros _.
  - unfold fire. apply preserves_bind; [apply preserves_gets|]. intros ts.
    destruct (List.find _ ts) as [tm|]; [|apply preserves_ret].
    destruct (kind tm);
      unfold guaranteeCallback, intervalCallback, scheduleNextGuaranteedTrigger;
      preserve_with queue_leaf.
  - unfold onended. preserve_with queue_leaf.
    intros w H. unfold exec, modify; simpl. destruct (chains w !! n); exact H.
  - unfold startSoramimi. preserve_with queue_leaf.
  - unfold startSoramimi_granted, stopSoramimi, startRandomTrigger,
      scheduleNextGuaranteedTrigger.
    preserve_with queue_leaf.
  - unfold stopSoramimi. preserve_with queue_leaf.
  - unfold onKeyT. preserve_with queue_leaf.
  - unfold onProbabilityInput. preserve_with queue_leaf.
  - unfold onIntervalChange, startRandomTrigger. preserve_with queue_leaf.
Qed.

(** X12. The archive is written by two handlers only: the capture
    callback and the end of [audioContext.close()]. Every other event of
    the loop (a timer that fires, with the replay it may start, the end
    of a replay, start and stop, the key [t], a change of the
    configuration) leaves it with the same segments in the same order,
    and so does any sequence of such events; the closing empties it. *)
Theorem archive_written_only_by_capture_and_close
    (events : list (Z * Event)) (w : World) :
  Forall (fun timed => writes_archive (snd timed) = false) events ->
  ARCHIVE_QUEUE (run events w) = ARCHIVE_QUEUE w /\
  forall now, ARCHIVE_QUEUE (step (run events w) (now, ContextClosed)) = [].
Proof.
  intros Hev. split; [|reflexivity].
  unfold run. revert w.
  induction Hev as [|[now e] events He _ IH]; intros w; [reflexivity|].
  simpl. rewrite IH. unfold step. simpl.
  apply (archive_kept_by_handler e (ARCHIVE_QUEUE w) He). reflexivity.
Qed.

Lemma archive_written_only_by_capture_and_close_witness :
  let w := session (fun _ => 1 # 2) 5 in
  ARCHIVE_QUEUE (run [(400, KeyT); (500, TimerFired 2%nat); (600, StopClicked)] w)
    = ARCHIVE_QUEUE w.
Proof.
  intros w.
  destruct (archive_written_only_by_capture_and_close
              [(400, KeyT); (500, TimerFired 2%nat); (600, StopClicked)] w)
    as [H _].
  - repeat constructor.
  - exact H.
Defined.

(** ** The store over a whole session *)

Ltac store_leaf :=
  idtac;
  match goal with
  | |- preserves _ playRandomSoraMimi =>
      let w := fresh "w" in let H := fresh "H" in
      let extra := fresh "extra" in let E := fresh "E" in
      intros w [extra H];
      destruct (playRandomSoraMimi_frame w) as (_ & (? & E) & _);
      rewrite E, H, <- app_assoc; eexists; reflexivity
  | |- preserves _ (new_Float32Array _) =>
      let w := fresh "w" in let H := fresh "H" in
      let extra := fresh "extra" in
      intros w [extra H]; unfold exec, new_Float32Array; simpl;
      rewrite H, <- app_assoc; eexists; reflexivity
  | |- preserves _ (clear_timer _) => intros ?w ?H; exact H
  | |- preserves _ (set_timer _ _) => intros ?w ?H; exact H
  | |- preserves _ platform_create =>
      intros ?w ?H; unfold exec, platform_create;
      destruct (platformBudget _); exact H
  | |- preserves _ (updateLog _) => intros ?w ?H; exact H
  | |- preserves _ (modify _) => intros ?w ?H; exact H
  | |- preserves _ Math_random => intros ?w ?H; exact H
  end.

Lemma store_grows_by_handler (e : Event) (h : list (list sample)) :
  preserves (fun w => exists extra, heap w = h ++ extra) (handler e).
Proof.
  destruct e; simpl.
  - unfold archiveAudio. preserve_with store_leaf.
  - unfold fire. apply preserves_bind; [apply preserves_gets|]. intros ts.
    destruct (List.find _ ts) as [tm|]; [|apply preserves_ret].
    destruct (kind tm);
      unfold guaranteeCallback, intervalCallback, scheduleNextGuaranteedTrigger;
      preserve_with store_leaf.
  - unfold onended. preserve_with store_leaf.
    intros w H. unfold exec, modify; simpl. destruct (chains w !! n); exact H.
  - unfold startSoramimi. preserve_with store_leaf.
  - unfold startSoramimi_granted, stopSoramimi, startRandomTrigger,
      scheduleNextGuaranteedTrigger.
    preserve_with store_leaf.
  - unfold stopSoramimi. preserve_with store_leaf.
  - unfold stopSoramimi_closed. preserve_with store_leaf.
  - unfold onKeyT. preserve_with store_leaf.
  - unfold onProbabilityInput. preserve_with store_leaf.
  - unfold onIntervalChange, startRandomTrigger. preserve_with store_leaf.
Qed.

(** X13. No event of the loop ever changes an array that exists: over
    any sequence of events the store only grows at its end, so that the
    samples of a captured block and the samples of a fragment handed to
    playback stay what they were when the array was filled, also after
    the segment has been evicted or the archive emptied. *)
Theorem storage_never_rewritten (events : list (Z * Event)) (w : World) :
  (exists extra, heap (run events w) = heap w ++ extra) /\
  forall l data, heap w !! l = Some data -> heap (run events w) !! l = Some data.
Proof.
  assert (H : exists extra, heap (run events w) = heap w ++ extra).
  { apply (preserves_run (fun w' => exists extra, heap w' = heap w ++ extra)).
    - intros now w0 H0. exact H0.
    - intros e. apply store_grows_by_handler.
    - exists []. now rewrite app_nil_r. }
  split; [exact H|].
  destruct H as [extra ->]. intros l data Hl. now apply lookup_app_l_Some.
Qed.

(** ** The notifications of the capture callback *)

Lemma archiveAudio_log event w :
  let len := length (ARCHIVE_QUEUE (exec (archiveAudio event) w)) in
  log (exec (archiveAudio event) w) = log w ++
    (if (len mod 10 =? 0)%nat then [LogArchiveUpdate len] else []) ++
    (if (len mod 50 =? 0)%nat then [LogInputLevel] else []).
Proof.
  intros len. unfold len. rewrite archiveAudio_queue.
  unfold exec, archiveAudio, bind, when, try_catch, updateLog, modify,
    gets, ret, new_Float32Array, Date_now; simpl.
  repeat (match goal with |- context [if ?b then _ else _] => destruct b end;
          simpl); rewrite <- ?app_assoc, ?app_nil_r; reflexivity.
Qed.

(** X14. The capture callback reports the size of the archive whenever
    that size, after the call, is a multiple of 10, and the input level
    whenever it is a multiple of 50. While the archive is below its
    capacity this is one call in 10 and one in 50. Once the archive is
    full its size is 300 after every call, so that every captured block
    is followed by both notifications. *)
Theorem archiveAudio_notifies (event : AudioProcessingEvent) (w : World) :
  let n := length (ARCHIVE_QUEUE w) in
  let w' := exec (archiveAudio event) w in
  ((n < MAX_ARCHIVE_SEGMENTS)%nat ->
     log w' = log w ++
       (if (S n mod 10 =? 0)%nat then [LogArchiveUpdate (S n)] else []) ++
       (if (S n mod 50 =? 0)%nat then [LogInputLevel] else [])) /\
  (n = MAX_ARCHIVE_SEGMENTS ->
     length (ARCHIVE_QUEUE w') = MAX_ARCHIVE_SEGMENTS /\
     log w' = log w ++ [LogArchiveUpdate MAX_ARCHIVE_SEGMENTS; LogInputLevel]).
Proof.
  intros n w'.
  assert (Hq := archiveAudio_queue event w). fold w' in Hq. simpl in Hq.
  assert (Hlog := archiveAudio_log event w). fold w' in Hlog. simpl in Hlog.
  assert (Hpushed : length (ARCHIVE_QUEUE w ++ [mkSegment (length (heap w)) (clock w)])
                    = S n) by (rewrite length_app; simpl; unfold n; lia).
  split.
  - intros Hn. rewrite Hpushed in Hq.
    destruct (Nat.ltb_spec MAX_ARCHIVE_SEGMENTS (S n)) as [|_]; [lia|].
    rewrite Hlog, Hq, Hpushed. reflexivity.
  - intros Hn. rewrite Hpushed in Hq.
    destruct (Nat.ltb_spec MAX_ARCHIVE_SEGMENTS (S n)) as [_|]; [|lia].
    assert (Hlen : length (ARCHIVE_QUEUE w') = MAX_ARCHIVE_SEGMENTS).
    { rewrite Hq. unfold n in Hn. clear -Hn.
      destruct (ARCHIVE_QUEUE w) as [|s q]; [discriminate|].
      simpl in *. rewrite length_app. simpl. lia. }
    split; [exact Hlen|]. rewrite Hlog, Hlen. reflexivity.
Qed.

Lemma archiveAudio_notifies_witness :
  let w := captures (tagged_blocks 300) (initial (fun _ => 1 # 2) 0) in
  let w' := exec (archiveAudio (mkEvent [1 # 2])) w in
  length (ARCHIVE_QUEUE w') = MAX_ARCHIVE_SEGMENTS /\
  log w' = log w ++ [LogArchiveUpdate MAX_ARCHIVE_SEGMENTS; LogInputLevel].
Proof.
  intros w w'.
  destruct (archiveAudio_notifies (mkEvent [1 # 2]) w) as [_ H].
  apply H. vm_compute. reflexivity.
Defined.

(** ** The log pane *)

Lemma removelast_take {A} (l : list A) : removelast l = take (length l - 1) l.
Proof.
  induction l as [|x [|y l] IH]; [reflexivity | reflexivity|].
  change (removelast (x :: y :: l)) with (x :: removelast (y :: l)).
  rewrite IH. simpl. now rewrite Nat.sub_0_r.
Qed.

(** The loop that removes last children ends with the first 200. *)
Lemma trimLog_take {A} (fuel : nat) (children : list A) :
  (length children <= 200 + fuel)%nat -> trimLog fuel children = take 200 children.
Proof.
  revert children. induction fuel as [|fuel IH]; intros children Hlen.
  - simpl. now rewrite take_ge by lia.
  - cbn [trimLog]. destruct (Nat.ltb_spec 200 (length children)) as [Hlt|Hge].
    + rewrite IH by (rewrite removelast_take, length_take; lia).
      rewrite removelast_take, take_take. f_equal. lia.
    + now rewrite take_ge by lia.
Qed.

Lemma take_app_take {A} (n : nat) (a b : list A) :
  take n (a ++ take n b) = take n (a ++ b).
Proof. rewrite !take_app, take_take. do 2 f_equal. lia. Qed.

(** X15. The log pane shows the newest messages first and never more
    than 200 of them: after any sequence of calls of [updateLog] on a
    pane that held at most 200 entries, the pane holds the first 200 of
    the messages in reverse order of the calls followed by what it held.
    Without a log element the calls do nothing. *)
Theorem updateLog_keeps_newest_200 {A} (messages children : list A) :
  (length children <= 200)%nat ->
  fold_left updateLog_element messages (Some children) =
    Some (take 200 (rev messages ++ children)) /\
  (length (take 200 (rev messages ++ children)) <= 200)%nat /\
  fold_left updateLog_element messages None = None.
Proof.
  intros Hlen. split; [|split].
  - revert children Hlen.
    induction messages as [|m messages IH]; intros children Hlen.
    + simpl. now rewrite take_ge by lia.
    + cbn [fold_left updateLog_element].
      rewrite trimLog_take by lia.
      rewrite IH by (rewrite length_take; lia).
      rewrite take_app_take. simpl. now rewrite <- app_assoc.
  - rewrite length_take. lia.
  - induction messages as [|m messages IH]; [reflexivity | exact IH].
Qed.

Lemma updateLog_keeps_newest_200_witness :
  fold_left updateLog_element [LogSkip; LogReplayBegin; LogReplayEnd] (Some []) =
    Some [LogReplayEnd; LogReplayBegin; LogSkip].
Proof.
  destruct (updateLog_keeps_newest_200 [LogSkip; LogReplayBegin; LogReplayEnd] [])
    as [H _].
  - simpl. lia.
  - exact H.
Defined.
